(** * WrappedGrok: the turn-taking controller of wrapped_grok.py

    A shallow embedding of class [WrappedGrok] (src/wrapped_grok.py) and the
    properties of its response shaper, context augmenter, completion client,
    speech player / interruption monitor and violation log.

    Conventions of the embedding.
    - Python [str] is [string]; a character is a code point below 256, and
      [isspace], [lower], [\w], [\d] are Python's on that range.
    - Python [int] is [Z]; slices and [range] follow Python for negative
      arguments.
    - A method of the object is a computation in the monad [M]: it threads
      the object state and either returns or raises.
    - Collaborators (the completion service, the search service, the clock,
      the speech processes) are oracles passed to the methods; every call
      made to one is also recorded in the state's [trace].
    - The listener thread is a tape of actions in the state: what it does
      before each read of [interrupt_speech] by another thread. *)

From Stdlib Require Import ZArith List String Ascii Bool Lia DecimalString.
From stdpp Require Import base option list strings gmap.
Import ListNotations.
Open Scope string_scope.
Open Scope list_scope.
Open Scope Z_scope.

(** ** Python text primitives *)

Module Py.

Definition code (c : ascii) : Z := Z.of_N (N_of_ascii c).

(** [str.isspace] on one character: TAB..CR, FS..US, SPACE, NEL, NBSP. *)
Definition isspace (c : ascii) : bool :=
  let n := code c in
  ((9 <=? n) && (n <=? 13)) || ((28 <=? n) && (n <=? 32))
  || (n =? 133) || (n =? 160).

(** [\d] of module [re] on [str]: the decimal digits. *)
Definition isdigit (c : ascii) : bool :=
  let n := code c in (48 <=? n) && (n <=? 57).

(** [\w] of module [re] on [str]: alphanumeric or underscore.  Above 127
    the alphanumerics are feminine/masculine ordinal, micro, superscript
    1-3, the vulgar fractions and the letters (all of 192..255 except the
    multiplication and division signs). *)
Definition isword (c : ascii) : bool :=
  let n := code c in
  isdigit c || ((65 <=? n) && (n <=? 90)) || ((97 <=? n) && (n <=? 122))
  || (n =? 95)
  || (n =? 170) || (n =? 181) || (n =? 186)
  || (n =? 178) || (n =? 179) || (n =? 185)
  || ((188 <=? n) && (n <=? 190))
  || ((192 <=? n) && negb (n =? 215) && negb (n =? 247)).

(** [str.lower] on one character: A-Z and the capital letters 192..222
    (not the multiplication sign) move up by 32. *)
Definition lower_char (c : ascii) : ascii :=
  let n := code c in
  if ((65 <=? n) && (n <=? 90))
     || ((192 <=? n) && (n <=? 222) && negb (n =? 215))
  then ascii_of_N (Z.to_N (n + 32)) else c.

Fixpoint lower (s : string) : string :=
  match s with
  | EmptyString => EmptyString
  | String c s' => String (lower_char c) (lower s')
  end.

Definition len (s : string) : Z := Z.of_nat (String.length s).

Fixpoint startswith (p s : string) : bool :=
  match p, s with
  | EmptyString, _ => true
  | String a p', String b s' => Ascii.eqb a b && startswith p' s'
  | String _ _, EmptyString => false
  end.

(** [p in s] for strings. *)
Fixpoint contains (p s : string) : bool :=
  startswith p s ||
  match s with
  | EmptyString => false
  | String _ s' => contains p s'
  end.

(** [s.split()]: the maximal runs of non-whitespace characters. *)
Fixpoint split_go (cur : string) (s : string) : list string :=
  match s with
  | EmptyString => if String.eqb cur "" then [] else [cur]
  | String c s' =>
      if isspace c
      then (if String.eqb cur "" then split_go "" s' else cur :: split_go "" s')
      else split_go (cur +:+ String c "") s'
  end.

Definition split (s : string) : list string := split_go "" s.

(** [sep.join(ws)]. *)
Fixpoint join (sep : string) (ws : list string) : string :=
  match ws with
  | [] => ""
  | [w] => w
  | w :: ws' => w +:+ sep +:+ join sep ws'
  end.

(** [s[-1]]: [None] stands for IndexError on the empty string. *)
Fixpoint last_char (s : string) : option ascii :=
  match s with
  | EmptyString => None
  | String c EmptyString => Some c
  | String _ s' => last_char s'
  end.

Fixpoint lstrip (s : string) : string :=
  match s with
  | String c s' => if isspace c then lstrip s' else s
  | EmptyString => EmptyString
  end.

Fixpoint rstrip (s : string) : string :=
  match s with
  | EmptyString => EmptyString
  | String c s' =>
      match rstrip s' with
      | EmptyString => if isspace c then EmptyString else String c EmptyString
      | r => String c r
      end
  end.

(** [s.strip()]. *)
Definition strip (s : string) : string := rstrip (lstrip s).

(** [s[:n]] on a string, for [n >= 0]. *)
Definition str_prefix (n : nat) (s : string) : string := String.substring 0 n s.

(** [l[:m]] on a list: a negative [m] counts from the end. *)
Definition slice_to {A} (m : Z) (l : list A) : list A :=
  if 0 <=? m then firstn (Z.to_nat m) l
  else firstn (Z.to_nat (Z.of_nat (length l) + m)) l.

(** [range(start, stop, -1)] as a list. *)
Definition range_down (start stop : Z) : list Z :=
  map (fun k => start - Z.of_nat k) (seq 0 (Z.to_nat (start - stop))).

(** [str(n)] for an integer. *)
Definition str_of_int (n : Z) : string := NilZero.string_of_int (Z.to_int n).

End Py.

(** ** Object state, collaborators and the method monad *)

(** One entry of [self.violations]: the dict built by [_log_violation]. *)
Record Violation := mkViolation { timestamp : Z; message : string }.

(** The exceptions the code tells apart, by the [except] clause that
    catches them in [_query_grok]; [OtherError] carries [type(e).__name__]
    and [str(e)]. *)
Inductive Exn :=
| ConnectionError (msg : string)
| Timeout (msg : string)
| RequestException (msg : string)
| OtherError (type_name msg : string).

(** What a method asks of a collaborator, in program order. *)
Inductive Event :=
| SearchCall (query : string)
| PostCall (model : string)
| StartListener
| StopListener
| Generate (text : string)
| Play
| Say (chunk : string)
| KillProc
| Pkill
| Killall
| WaitProc
| ReadFlag (b : bool)
| CallbackCall.

(** What [recognizer.recognize_google] does inside the interruption
    callback: returns text, raises [sr.UnknownValueError], raises
    [sr.RequestError], or raises anything else. *)
Inductive Recognition :=
| Heard (text : string)
| UnknownValue
| ServiceError (msg : string)
| Crash (msg : string).

(** The two moments of one run of [_interruption_callback] on the
    listener thread: it evaluates its guard, and later (after the
    recognition round trip) it acts on the outcome. *)
Inductive MonitorAction :=
| CallbackEnters
| CallbackFinishes (r : Recognition).

(** The mutable attributes of a [WrappedGrok] object, the wall clock read
    by [time.time()], and three ghost fields: the [trace] of collaborator
    calls, whether the listener thread is inside the callback past its
    guard ([callback_active]), and the [tape] of what the listener thread
    does before each of the coming reads of [interrupt_speech] by the
    control or the speech thread. *)
Record State := mkState {
  speaking : bool;
  interrupt_speech : bool;
  use_elevenlabs : bool;
  elevenlabs_available : bool;
  background_listener_stop : bool;
  is_listening : bool;
  violations : list Violation;
  now : Z;
  trace : list Event;
  callback_active : bool;
  tape : list (list MonitorAction)
}.

Definition set_speaking (x : bool) (s : State) : State :=
  mkState x (interrupt_speech s) (use_elevenlabs s)
          (elevenlabs_available s) (background_listener_stop s)
          (is_listening s) (violations s) (now s) (trace s)
          (callback_active s) (tape s).

Definition set_interrupt_speech (x : bool) (s : State) : State :=
  mkState (speaking s) x (use_elevenlabs s) (elevenlabs_available s)
          (background_listener_stop s) (is_listening s) (violations s)
          (now s) (trace s) (callback_active s) (tape s).

Definition set_use_elevenlabs (x : bool) (s : State) : State :=
  mkState (speaking s) (interrupt_speech s) x (elevenlabs_available s)
          (background_listener_stop s) (is_listening s) (violations s)
          (now s) (trace s) (callback_active s) (tape s).

Definition set_background_listener_stop (x : bool) (s : State) : State :=
  mkState (speaking s) (interrupt_speech s) (use_elevenlabs s)
          (elevenlabs_available s) x (is_listening s) (violations s)
          (now s) (trace s) (callback_active s) (tape s).

Definition set_is_listening (x : bool) (s : State) : State :=
  mkState (speaking s) (interrupt_speech s) (use_elevenlabs s)
          (elevenlabs_available s) (background_listener_stop s) x
          (violations s) (now s) (trace s) (callback_active s) (tape s).

Definition set_violations (x : list Violation) (s : State) : State :=
  mkState (speaking s) (interrupt_speech s) (use_elevenlabs s)
          (elevenlabs_available s) (background_listener_stop s)
          (is_listening s) x (now s) (trace s) (callback_active s)
          (tape s).

Definition set_trace (x : list Event) (s : State) : State :=
  mkState (speaking s) (interrupt_speech s) (use_elevenlabs s)
          (elevenlabs_available s) (background_listener_stop s)
          (is_listening s) (violations s) (now s) x (callback_active s)
          (tape s).

Definition set_callback_active (x : bool) (s : State) : State :=
  mkState (speaking s) (interrupt_speech s) (use_elevenlabs s)
          (elevenlabs_available s) (background_listener_stop s)
          (is_listening s) (violations s) (now s) (trace s) x (tape s).

Definition set_tape (x : list (list MonitorAction)) (s : State) : State :=
  mkState (speaking s) (interrupt_speech s) (use_elevenlabs s)
          (elevenlabs_available s) (background_listener_stop s)
          (is_listening s) (violations s) (now s) (trace s)
          (callback_active s) x.

(** Outcome of a method call: a value or a raised exception. *)
Inductive Res (A : Type) :=
| Ret (a : A)
| Raise (e : Exn).
Arguments Ret {A} & a.
Arguments Raise {A} e.

Definition M (A : Type) : Type := State -> Res A * State.

Definition ret {A} (a : A) : M A := fun s => (Ret a, s).
Definition raise {A} (e : Exn) : M A := fun s => (Raise e, s).

Definition bind {A B} (m : M A) (k : A -> M B) : M B :=
  fun s => match m s with
           | (Ret a, s') => k a s'
           | (Raise e, s') => (Raise e, s')
           end.

(** [try: m except Exception as e: h e]. *)
Definition try_except {A} (m : M A) (h : Exn -> M A) : M A :=
  fun s => match m s with
           | (Ret a, s') => (Ret a, s')
           | (Raise e, s') => h e s'
           end.

Definition get : M State := fun s => (Ret s, s).
Definition modify (f : State -> State) : M unit := fun s => (Ret tt, f s).
Definition emit (e : Event) : M unit := modify (fun s => set_trace (trace s ++ [e]) s).

Notation "x <- m ;; k" := (bind m (fun x => k))
  (at level 100, m at next level, right associativity).
Notation "m ;;; k" := (bind m (fun _ => k))
  (at level 100, right associativity).

Definition index_error {A} (what : string) : M A :=
  raise (OtherError "IndexError" what).

(** [l[i]] on a list, negative [i] counting from the end. *)
Definition list_index {A} (l : list A) (i : Z) : M A :=
  let j := if 0 <=? i then i else Z.of_nat (length l) + i in
  if j <? 0 then index_error "list index out of range"
  else match l !! Z.to_nat j with
       | Some x => ret x
       | None => index_error "list index out of range"
       end.

(** [s[-1]] on a string. *)
Definition str_last (s : string) : M ascii :=
  match Py.last_char s with
  | Some c => ret c
  | None => index_error "string index out of range"
  end.

(** Constructor arguments kept on the object and never reassigned. *)
Record Config := mkConfig {
  grok_api_key : string;
  grok_api_url : string;
  serpapi_key : string;
  max_response_words : Z;
  explain_keyword : string
}.

(** The part of [__init__] that stores the arguments: the keyword is kept
    in lower case. *)
Definition init_config (key serp : string) (max_words : Z) (keyword : string)
  : Config :=
  mkConfig key "https://api.x.ai/v1/chat/completions" serp max_words
           (Py.lower keyword).

(** The mutable attributes as [__init__] leaves them. *)
Definition init_state (eleven : bool) (t : Z) : State :=
  mkState false false eleven eleven false false [] t [] false [].

(** [_log_violation]. *)
Definition _log_violation (msg : string) : M unit :=
  modify (fun s => set_violations (violations s ++ [mkViolation (now s) msg]) s).

(** ** Response Shaper: [_limit_response_length] *)

(** [c in '.!?'] for a one-character string [c]. *)
Definition terminal (c : ascii) : bool := Py.contains (String c "") ".!?".

Section Shaper.
Variable cfg : Config.

(** The backward scan [for i in range(...)]: the first [i] whose word
    ends a sentence gives [' '.join(words[:i+1])]; [None] when the loop
    ends without [break]. *)
Fixpoint scan_boundary (words : list string) (idx : list Z)
  : M (option string) :=
  match idx with
  | [] => ret None
  | i :: idx' =>
      w <- list_index words i ;;
      c <- str_last w ;;
      if terminal c
      then ret (Some (Py.join " " (Py.slice_to (i + 1) words)))
      else scan_boundary words idx'
  end.

Definition truncation_message (before after : Z) : string :=
  "Response truncated: " +:+ Py.str_of_int before +:+ " words -> "
  +:+ Py.str_of_int after +:+ " words".

Definition _limit_response_length (response user_input : string) : M string :=
  let user_input_lower := Py.lower user_input in
  if Py.contains (explain_keyword cfg) user_input_lower then ret response
  else
    let words := Py.split response in
    let m := max_response_words cfg in
    let n := Z.of_nat (length words) in
    if m <? n then
      let truncated_words := Py.slice_to m words in
      let original_truncated := Py.join " " truncated_words in
      found <- scan_boundary words
                 (Py.range_down (Z.min m n - 1) (Z.max 0 (m - 5))) ;;
      let truncated := default original_truncated found in
      truncated <-
        (if m <? Z.of_nat (length (Py.split truncated)) then
           let truncated := original_truncated in
           c <- str_last truncated ;;
           if negb (terminal c) then ret (truncated +:+ "...")
           else ret truncated
         else ret truncated) ;;
      _log_violation
        (truncation_message n (Z.of_nat (length (Py.split truncated)))) ;;;
      ret truncated
    else ret response.
End Shaper.

(** The object of [example_voice_chat.py] with the class default of ten
    words. *)
Definition cfg10 : Config := init_config "xai-0123456789" "serp-key" 10 "explain".
Definition st0 : State := init_state false 0.

(** ** Context Augmenter: [_extract_factual_claims] and [_search_web] *)

Module Re.

(** [re.split(r'[.!?]+', text)]: the pieces between maximal runs of
    sentence marks, empty pieces at either end included. *)
Fixpoint split_go (cur : string) (in_run : bool) (s : string) : list string :=
  match s with
  | EmptyString => [cur]
  | String c s' =>
      if terminal c
      then (if in_run then split_go cur true s' else cur :: split_go "" true s')
      else split_go (cur +:+ String c "") false s'
  end.

Definition split_sentences (text : string) : list string := split_go "" false text.

Definition head (s : string) : option ascii :=
  match s with
  | EmptyString => None
  | String c _ => Some c
  end.

Definition isword_at (c : option ascii) : bool :=
  match c with
  | Some c => Py.isword c
  | None => false
  end.

(** [\b] between the character before the position and the one at it. *)
Definition boundary (prev : option ascii) (rest : string) : bool :=
  xorb (isword_at prev) (isword_at (head rest)).

(** [re.search]: try the position matcher at every position of the
    subject, from the left. *)
Fixpoint search_from (p : option ascii -> string -> bool)
                     (prev : option ascii) (s : string) : bool :=
  p prev s ||
  match s with
  | EmptyString => false
  | String c s' => search_from p (Some c) s'
  end.

Definition search (p : option ascii -> string -> bool) (s : string) : bool :=
  search_from p None s.

(** A lower-case literal matched under [re.IGNORECASE]; gives what
    follows the match. *)
Fixpoint literal (lit : string) (prev : option ascii) (s : string)
  : option (option ascii * string) :=
  match lit, s with
  | EmptyString, _ => Some (prev, s)
  | String a lit', String b s' =>
      if Ascii.eqb a (Py.lower_char b) then literal lit' (Some b) s' else None
  | String _ _, EmptyString => None
  end.

Definition alternatives (lits : list string) (prev : option ascii) (s : string)
  : list (option ascii * string) :=
  omap (fun lit => literal lit prev s) lits.

(** [\d{4}] at the start of [s]. *)
Fixpoint digits (n : nat) (prev : option ascii) (s : string)
  : option (option ascii * string) :=
  match n, s with
  | O, _ => Some (prev, s)
  | S n', String c s' => if Py.isdigit c then digits n' (Some c) s' else None
  | S _, EmptyString => None
  end.

(** [\s+\w+] at the start of [s]: the two classes are disjoint, so the
    whole run of whitespace is taken and a word character must follow. *)
Fixpoint spaces_then_word (seen_space : bool) (s : string) : bool :=
  match s with
  | EmptyString => false
  | String c s' =>
      if Py.isspace c then spaces_then_word true s'
      else seen_space && Py.isword c
  end.

(** [\b\d{4}\b] *)
Definition year_at (prev : option ascii) (s : string) : bool :=
  boundary prev s &&
  match digits 4 prev s with
  | Some (last, rest) => boundary last rest
  | None => false
  end.

(** [\b(is|was|are|were)\s+\w+] *)
Definition copula_at (prev : option ascii) (s : string) : bool :=
  boundary prev s &&
  existsb (fun m => spaces_then_word false (snd m))
          (alternatives ["is"; "was"; "are"; "were"] prev s).

(** [\b(according to|studies show|research indicates)] *)
Definition citation_at (prev : option ascii) (s : string) : bool :=
  boundary prev s &&
  negb (forallb (fun _ => false)
          (alternatives ["according to"; "studies show"; "research indicates"]
                        prev s)).

(** [\b(percent|percentage|\%)] *)
Definition percent_at (prev : option ascii) (s : string) : bool :=
  boundary prev s &&
  negb (forallb (fun _ => false)
          (alternatives ["percent"; "percentage"; "%"] prev s)).

Definition patterns : list (option ascii -> string -> bool) :=
  [year_at; copula_at; citation_at; percent_at].

End Re.

(** [_extract_factual_claims]: the stripped sentences that match one of
    the patterns, in order. *)
Definition _extract_factual_claims (text : string) : list string :=
  let sentences := Re.split_sentences text in
  map Py.strip
      (filter (fun sentence =>
                 existsb (fun pattern => Re.search pattern sentence) Re.patterns = true)
              sentences).

(** One entry of [results["organic_results"]]; a missing key is [None]. *)
Record Organic := mkOrganic { title : option string; snippet : option string }.

(** [results["answer_box"]]. *)
Record AnswerBox := mkAnswerBox { answer : option string; box_snippet : option string }.

(** The dict returned by [search.get_dict()]. *)
Record Results := mkResults {
  answer_box : option AnswerBox;
  organic_results : option (list Organic)
}.

(** What the [try] block of [_search_web] meets: a dict of the shape
    above, or an exception, raised by the constructor, by [get_dict()]
    or while a dict of another shape is read; [msg] is [str(e)]. *)
Inductive SearchOutcome :=
| SearchDict (results : Results)
| SearchRaises (msg : string).

(** [d.get(key, "")] *)
Definition get_or_empty (v : option string) : string := default "" v.

(** Python truth of a string. *)
Definition nonempty (s : string) : bool := negb (String.eqb s "").

(** [a or b] on strings. *)
Definition str_or (a b : string) : string := if nonempty a then a else b.

Section Search.
(** The module-level name [GoogleSearch]: [None] when the import failed,
    otherwise the outcome of [GoogleSearch({...}).get_dict()] for a
    query. *)
Variable GoogleSearch : option (string -> SearchOutcome).

Definition organic_part (result : Organic) : list string :=
  let title := get_or_empty (title result) in
  let snippet := get_or_empty (snippet result) in
  if nonempty snippet then [title +:+ ": " +:+ snippet] else [].

Definition direct_part (results : Results) : list string :=
  match answer_box results with
  | Some box =>
      let answer := str_or (get_or_empty (answer box))
                           (get_or_empty (box_snippet box)) in
      if nonempty answer then ["Direct answer: " +:+ answer] else []
  | None => []
  end.

Definition build_context (results : Results) : option string :=
  let context_parts := direct_part results in
  match organic_results results with
  | Some (r :: rs) =>
      let context_parts :=
        context_parts ++ concat (map organic_part (firstn 3 (r :: rs))) in
      match context_parts with
      | _ :: _ => Some (Py.join " | " context_parts)
      | [] => None
      end
  | _ => None
  end.

Definition _search_web (query : string) : M (option string) :=
  match GoogleSearch with
  | None =>
      _log_violation "Web search attempted but SerpAPI not installed" ;;;
      ret None
  | Some search =>
      emit (SearchCall query) ;;;
      match search query with
      | SearchDict results => ret (build_context results)
      | SearchRaises msg =>
          _log_violation ("Web search failed: " +:+ msg) ;;;
          ret None
      end
  end.
End Search.

(** ** Completion Client: [_query_grok] *)

(** The JSON body posted to the completion service, without its constant
    sampling parameters: the model and the contents of the system and
    the user message. *)
Record Request := mkRequest {
  req_model : string;
  req_system : string;
  req_user : string
}.

(** The value found under ["content"] in the JSON of an answer: a [str],
    or any other JSON value ([None], a number, a boolean, a list, a
    dict).  The methods pass such a value on without looking into it;
    where they do use it, a value that is not a [str] has no [split]
    method, differs from every string, and counts by its truth value
    ([truthy]: false for [None], [0], [False], [[]] and [{}]). *)
Inductive Content :=
| Text (s : string)
| NotText (truthy : bool).

Coercion Text : string >-> Content.

(** A [requests.Response] as the method reads it: [status_code], [text],
    the outcome of [response.json()["choices"][0]["message"]["content"]]
    ([reply]: the value found there, or the exception raised on the
    way), and the outcome of [response.json().get("error", {}).get("error",
    "Invalid request")] ([error_detail]: [None] when that raises). *)
Record Response := mkResponse {
  status_code : Z;
  text : string;
  reply : Res Content;
  error_detail : option string
}.

(** [requests.post] returns a response or raises. *)
Inductive PostOutcome :=
| Responds (response : Response)
| PostRaises (e : Exn).

(** Truth value of a [requests.Response] object, as in [if last_response:].
    The library defines [Response.__bool__] as [Response.ok], which is
    false exactly when [raise_for_status()] would raise: for a status in
    400..599. *)
Definition response_truthy (r : Response) : bool :=
  negb ((400 <=? status_code r) && (status_code r <? 600)).

Definition system_prompt : string :=
"You are Grok, an advanced AI assistant created by xAI. 
Your goal is to provide accurate, insightful, and helpful answers that demonstrate deep understanding.

Quality guidelines:
- Provide detailed, well-reasoned answers that show you understand the topic thoroughly
- When web search context is provided, use it to give current, factual, and accurate information
- Be thorough but clear - explain concepts with relevant details and context
- If asked to explain something, provide comprehensive information with examples when helpful
- Be conversational, natural, and engaging - write like you're helping a friend understand
- If uncertain about something, acknowledge it rather than speculating
- When using information from web search, synthesize it naturally into a coherent answer
- Prioritize accuracy, helpfulness, and completeness
- Think through your answers before responding to ensure quality".

Definition context_header : string :=
"

=== Current Web Search Context (use this to inform your answer) ===
".

Definition context_footer : string :=
"
=== End of Web Search Context ===

Use this context to provide an accurate, detailed, and helpful answer. Synthesize the information naturally into your response.".

(** The model fallback list. *)
Definition model_names : list string :=
  ["grok-3"; "grok-beta"; "grok-2"; "grok-vision-beta"; "grok"].

(** The content test that reads a 400 body as model-not-available. *)
Definition model_unavailable (response : Response) : bool :=
  let error_text := Py.lower (text response) in
  Py.contains "model" error_text
  && (Py.contains "invalid" error_text || Py.contains "not found" error_text).

(** How the [for model_name in model_names] loop ends without raising:
    by [return] with the reply, or by falling out of the loop (exhausted
    or [break]) with [last_response]. *)
Inductive LoopEnd :=
| Returned (content : Content)
| Fell (last_response : option Response).

Section Completion.
Variable cfg : Config.
Variable requests_post : Request -> PostOutcome.

Definition system_content (context : option string) : string :=
  match context with
  | Some c =>
      if nonempty c
      then system_prompt +:+ context_header +:+ c +:+ context_footer
      else system_prompt
  | None => system_prompt
  end.

Fixpoint try_models (system user_input : string) (models : list string)
                    (last_response : option Response) : M LoopEnd :=
  match models with
  | [] => ret (Fell last_response)
  | model_name :: rest =>
      emit (PostCall model_name) ;;;
      match requests_post (mkRequest model_name system user_input) with
      | PostRaises e => raise e
      | Responds response =>
          let last_response := Some response in
          if status_code response =? 200 then
            match reply response with
            | Ret content => ret (Returned content)
            | Raise e => raise e
            end
          else if status_code response =? 400 then
            if model_unavailable response
            then try_models system user_input rest last_response
            else ret (Fell last_response)
          else try_models system user_input rest last_response
      end
  end.

Definition key_not_set_message : string :=
  "Error: Grok API key not set. Edit .env file and add your API key from https://console.x.ai".

Definition no_response_message : string :=
  "Error: Could not get response from Grok (no response received)".

(** The text returned for a truthy [last_response]. *)
Definition describe_response (last_response : Response) : string :=
  let error_text := Py.lower (text last_response) in
  let key := grok_api_key cfg in
  let api_key_preview :=
    if 10 <? Py.len key then Py.str_prefix 5 key +:+ "..." else "***" in
  if String.eqb key "your-grok-api-key-here"
     || Py.contains "your-grok-api-key" (Py.lower key)
  then key_not_set_message
  else if (status_code last_response =? 401)
          || Py.contains "api key" error_text
          || Py.contains "unauthorized" error_text
  then "Error: Invalid Grok API key (" +:+ api_key_preview
       +:+ "). Get a valid key from https://console.x.ai"
  else if status_code last_response =? 400 then
    match error_detail last_response with
    | Some error_msg =>
        "Error: " +:+ error_msg +:+ ". Check API key and model availability."
    | None =>
        "Error: Invalid request (400). Response: "
        +:+ Py.str_prefix 200 (text last_response)
    end
  else if status_code last_response =? 404 then
    "Error: API endpoint not found. URL: " +:+ grok_api_url cfg
  else if status_code last_response =? 429 then
    "Error: Rate limit exceeded. Wait a moment and try again."
  else "Error: Grok API returned " +:+ Py.str_of_int (status_code last_response)
       +:+ ": " +:+ Py.str_prefix 200 (text last_response).

(** The body of the [try] block. *)
Definition query_body (user_input : string) (context : option string)
  : M Content :=
  ending <- try_models (system_content context) user_input model_names None ;;
  match ending with
  | Returned content => ret content
  | Fell last_response =>
      match last_response with
      | Some r =>
          if response_truthy r then
            _log_violation
              ("Grok API error: " +:+ Py.str_of_int (status_code r)) ;;;
            ret (Text (describe_response r))
          else ret (Text no_response_message)
      | None => ret (Text no_response_message)
      end
  end.

(** The four [except] clauses. *)
Definition query_handler (e : Exn) : M Content :=
  match e with
  | ConnectionError msg =>
      _log_violation ("Grok API connection error: " +:+ msg) ;;;
      ret (Text ("Error: Cannot connect to Grok API at " +:+ grok_api_url cfg
                +:+ ". Check your internet connection."))
  | Timeout msg =>
      _log_violation ("Grok API timeout: " +:+ msg) ;;;
      ret (Text "Error: Grok API request timed out. The service may be slow or unavailable.")
  | RequestException msg =>
      _log_violation ("Grok API request error: " +:+ msg) ;;;
      ret (Text ("Error: Network error connecting to Grok API: " +:+ msg))
  | OtherError type_name msg =>
      _log_violation ("Grok API unexpected error: " +:+ type_name +:+ ": " +:+ msg) ;;;
      ret (Text ("Error: Unexpected error with Grok API: " +:+ type_name +:+ ": "
                +:+ msg))
  end.

Definition _query_grok (user_input : string) (context : option string)
  : M Content :=
  let key := grok_api_key cfg in
  if negb (nonempty key)
     || String.eqb key "your-grok-api-key-here" || String.eqb key ""
  then
    _log_violation "Grok API key not configured" ;;;
    ret (Text key_not_set_message)
  else try_except (query_body user_input context) query_handler.
End Completion.

(** ** Speech Interruption Monitor: [_interruption_callback] *)

(** The guard on entry: the callback returns at once unless the object is
    speaking and not yet interrupted. *)
Definition callback_guard (s : State) : bool :=
  negb (negb (speaking s) || interrupt_speech s).

(** What the callback does once recognition has answered. *)
Definition callback_outcome (r : Recognition) : M unit :=
  match r with
  | Heard english_text =>
      if nonempty english_text && (0 <? Py.len (Py.strip english_text))
      then
        modify (set_interrupt_speech true) ;;;
        _log_violation ("Speech interrupted by user input: " +:+ english_text)
      else ret tt
  | UnknownValue =>
      modify (set_interrupt_speech true) ;;;
      _log_violation "Speech interrupted by audio detection (untranscribable)"
  | ServiceError _ =>
      modify (set_interrupt_speech true) ;;;
      _log_violation "Speech interrupted by audio detection (recognition error)"
  | Crash _ =>
      modify (set_interrupt_speech true)
  end.

(** The whole callback, run without interference. *)
Definition _interruption_callback (r : Recognition) : M unit :=
  s <- get ;;
  if callback_guard s then callback_outcome r else ret tt.

(** One action of the listener thread.  The listener runs its callbacks
    one after the other, so an entry while a callback is active, or a
    finish while none is, is not a move of the thread and changes
    nothing. *)
Definition monitor_step (a : MonitorAction) : M unit :=
  s <- get ;;
  match a with
  | CallbackEnters =>
      if callback_active s then ret tt
      else if callback_guard s then modify (set_callback_active true)
      else ret tt
  | CallbackFinishes r =>
      if callback_active s
      then callback_outcome r ;;; modify (set_callback_active false)
      else ret tt
  end.

Fixpoint run_monitor (acts : list MonitorAction) : M unit :=
  match acts with
  | [] => ret tt
  | a :: acts' => monitor_step a ;;; run_monitor acts'
  end.

(** A read of [self.interrupt_speech] by another thread: the listener
    first does what the tape schedules before this read. *)
Definition read_interrupt : M bool :=
  s <- get ;;
  match tape s with
  | [] => ret tt
  | acts :: rest => modify (set_tape rest) ;;; run_monitor acts
  end ;;;
  s <- get ;;
  emit (ReadFlag (interrupt_speech s)) ;;;
  ret (interrupt_speech s).

(** ** Turn Controller: [_wait_for_silence] and [process_input] *)

(** The polling loop of [_wait_for_silence]; [polls] is the number of
    times the clock lets the loop condition
    [time.time() - start_time < self.silence_timeout] hold. *)
Fixpoint wait_loop (polls : nat) : M bool :=
  match polls with
  | O => ret true
  | S polls' =>
      interrupted <- read_interrupt ;;
      if interrupted then ret false else wait_loop polls'
  end.

Definition attribute_error (what : string) : Exn :=
  OtherError "AttributeError" what.

Section Turn.
Variable cfg : Config.
Variable GoogleSearch : option (string -> SearchOutcome).
Variable requests_post : Request -> PostOutcome.
Variable silence_polls : nat.

Definition _wait_for_silence : M bool := wait_loop silence_polls.

(** [self._limit_response_length(response, user_input)] as
    [process_input] calls it, on whatever [_query_grok] returned.  A
    value that is not a [str] is returned as it is when the input has
    the keyword, and otherwise [response.split()] raises
    AttributeError. *)
Definition limit_reply (response : Content) (user_input : string)
  : M Content :=
  match response with
  | Text response =>
      shaped <- _limit_response_length cfg response user_input ;;
      ret (Text shaped)
  | NotText _ =>
      if Py.contains (explain_keyword cfg) (Py.lower user_input)
      then ret response
      else raise (attribute_error "object has no attribute 'split'")
  end.

Definition process_input (user_input : string) : M Content :=
  silent <- _wait_for_silence ;;
  if negb silent then
    _log_violation "Response generated without silence timeout" ;;;
    ret (Text "Interrupted")
  else
    let claims := _extract_factual_claims user_input in
    search_context <-
      match claims with
      | first_claim :: _ =>
          let search_query := Py.str_prefix 150 first_claim in
          _search_web GoogleSearch search_query
      | [] =>
          let search_query := Py.str_prefix 150 user_input in
          _search_web GoogleSearch search_query
      end ;;
    response <- _query_grok cfg requests_post user_input search_context ;;
    limit_reply response user_input.
End Turn.

(** [get_violations] at the level of values: the entries of the log. *)
Definition get_violations : M (list Violation) :=
  s <- get ;; ret (violations s).

(** [clear_violations]. *)
Definition clear_violations : M unit := modify (set_violations []).

(** [stop_listening]. *)
Definition stop_listening : M unit := modify (set_is_listening false).

(** *** Observations on the trace and the tape *)

Definition search_calls (t : list Event) : list string :=
  omap (fun e => match e with SearchCall q => Some q | _ => None end) t.

Definition post_calls (t : list Event) : list string :=
  omap (fun e => match e with PostCall m => Some m | _ => None end) t.

(** The flag as read at poll number [k] (from 0) of a wait that starts in
    [s] and is not cut short before: the listener acts and the flag is
    read, [k + 1] times. *)
Definition signal_by_poll (k : nat) (s : State) : bool :=
  interrupt_speech (Nat.iter (S k) (fun s => snd (read_interrupt s)) s).

(** *** The fallback policy, as a function of the outcomes *)

(** The models attempted when outcome [o] of an attempt ends the fallback
    exactly if [stops o]: each model in order, up to and including the
    first one whose outcome stops. *)
Fixpoint attempts_until (stops : PostOutcome -> bool)
                        (outcome : string -> PostOutcome)
                        (models : list string) : list string :=
  match models with
  | [] => []
  | m :: rest =>
      m :: (if stops (outcome m) then [] else attempts_until stops outcome rest)
  end.

(** The loop of [try_models] ends at a raised exception, at status 200,
    and at a 400 whose body does not read as model-not-available. *)
Definition stops_in_code (o : PostOutcome) : bool :=
  match o with
  | PostRaises _ => true
  | Responds r =>
      (status_code r =? 200)
      || ((status_code r =? 400) && negb (model_unavailable r))
  end.

(** The policy as the specification words it: everything ends the
    fallback except a failure response whose body reads as
    model-not-available. *)
Definition stops_as_specified (o : PostOutcome) : bool :=
  match o with
  | PostRaises _ => true
  | Responds r =>
      (status_code r =? 200) || negb (model_unavailable r)
  end.

(** The responses the code itself classifies as an authorization failure
    after the loop, and the endpoint-not-found status. *)
Definition auth_failure (r : Response) : bool :=
  (status_code r =? 401)
  || Py.contains "api key" (Py.lower (text r))
  || Py.contains "unauthorized" (Py.lower (text r)).

Definition auth_or_not_found (o : PostOutcome) : bool :=
  match o with
  | PostRaises _ => false
  | Responds r =>
      negb (status_code r =? 200) && negb (status_code r =? 400)
      && (auth_failure r || (status_code r =? 404))
  end.

(** The key test at the top of [_query_grok]. *)
Definition api_key_configured (cfg : Config) : bool :=
  negb (negb (nonempty (grok_api_key cfg))
        || String.eqb (grok_api_key cfg) "your-grok-api-key-here"
        || String.eqb (grok_api_key cfg) "").

(** The outcome of the attempt with a given model inside one call of
    [_query_grok]. *)
Definition outcome_for (requests_post : Request -> PostOutcome)
                       (user_input : string) (context : option string)
                       (model : string) : PostOutcome :=
  requests_post (mkRequest model (system_content context) user_input).

(** *** Concrete collaborators used in the examples *)

Definition ok_response (content : string) : Response :=
  mkResponse 200 "{}" (Ret content) None.

Definition error_response (status : Z) (body : string) : Response :=
  mkResponse status body (Raise (OtherError "KeyError" "'choices'")) None.

(** The first model answers 503, every other model answers 200. *)
Definition busy_then_ok (req : Request) : PostOutcome :=
  if String.eqb (req_model req) "grok-3"
  then Responds (error_response 503 "service unavailable")
  else Responds (ok_response "Hello.").

(** The first two models are unknown to the service, the third times
    out. *)
Definition unknown_then_timeout (req : Request) : PostOutcome :=
  if String.eqb (req_model req) "grok-3" || String.eqb (req_model req) "grok-beta"
  then Responds (error_response 400 "Model not found")
  else PostRaises (Timeout "read timed out").

(** Every attempt is refused with 401. *)
Definition always_unauthorized (_ : Request) : PostOutcome :=
  Responds (error_response 401 "unauthorized").

(** A search that finds a direct answer and no organic result. *)
Definition answer_only : Results :=
  mkResults (Some (mkAnswerBox (Some "Paris") None)) (Some []).

(** A search that finds a direct answer and two organic results. *)
Definition answer_and_pages : Results :=
  mkResults (Some (mkAnswerBox None (Some "Paris is the capital")))
            (Some [mkOrganic (Some "France") (Some "A country");
                   mkOrganic (Some "Untitled") None;
                   mkOrganic None (Some "Seine")]).

(** The query [process_input] searches with: the first extracted claim,
    or else the raw input, cut to 150 characters. *)
Definition search_query_for (user_input : string) : string :=
  match _extract_factual_claims user_input with
  | first_claim :: _ => Py.str_prefix 150 first_claim
  | [] => Py.str_prefix 150 user_input
  end.

(** *** Words *)

Fixpoint spacefree (s : string) : bool :=
  match s with
  | EmptyString => true
  | String c s' => negb (Py.isspace c) && spacefree s'
  end.

(** What [split] produces: non-empty strings without whitespace. *)
Definition is_word (w : string) : Prop := spacefree w = true /\ w <> "".

(** ** Speech Player: [_speak_text] *)

(** Outcome of [self.elevenlabs_generate(...)] on the generation thread:
    audio (whose truth value is [audio_truthy]) or an exception. *)
Inductive GenOutcome :=
| Generated (audio_truthy : bool)
| GenerateRaises.

(** Outcome of [subprocess.run(['pkill', '-9', 'say'], check=False,
    timeout=0.5)] inside the polling loop. *)
Inductive PkillOutcome :=
| PkillDone
| PkillTimeout
| PkillError.

(** What the operating system does with one chunk. *)
Record ChunkEnv := mkChunkEnv {
  popen_ok : bool;             (* [subprocess.Popen] returns a process *)
  running_polls : nat;         (* times [proc.poll()] returns [None] *)
  safety_polls : nat;          (* iterations before more than 3 s have passed *)
  pkill_in_loop : PkillOutcome;
  wait_expires : bool;         (* [proc.wait(timeout=1)] raises TimeoutExpired *)
  pkill_in_handler_ok : bool   (* the [pkill] of the TimeoutExpired handler returns *)
}.

(** The collaborators of one speech session. *)
Record SpeechEnv := mkSpeechEnv {
  listener_starts : bool;      (* [listen_in_background] returns a stopper *)
  generation_polls : nat;      (* polls before [audio_generated] is set *)
  generation : GenOutcome;
  outcome_seen_at_break : bool;(* the generation thread had stored its
                                  outcome when the wait loop broke off *)
  play_ok : bool;              (* [self.elevenlabs_play] returns *)
  chunk_env : nat -> ChunkEnv;
  has_callback : bool;
  callback_ok : nat -> bool    (* the n-th call of [callback()] returns *)
}.

Definition timeout_expired : Exn := OtherError "TimeoutExpired" "".

Definition is_timeout_expired (e : Exn) : bool :=
  match e with
  | OtherError type_name _ => String.eqb type_name "TimeoutExpired"
  | _ => false
  end.

Definition other_error (what : string) : Exn := OtherError "Exception" what.

(** [for i in range(0, len(words), chunk_size)]: the start indices. *)
Definition chunk_starts (n chunk_size : nat) : list nat :=
  map (fun k => (k * chunk_size)%nat) (seq 0 ((n + chunk_size - 1) / chunk_size)).

(** [' '.join(words[i:i+chunk_size])] for each start index. *)
Definition chunk_list (words : list string) : list string :=
  let chunk_size := 5%nat in
  map (fun i => Py.join " " (take chunk_size (drop i words)))
      (chunk_starts (length words) chunk_size).

Section Player.
Variable env : SpeechEnv.

(** [_start_interruption_detection]; the object always has
    [audio_available]. *)
Definition _start_interruption_detection : M unit :=
  s <- get ;;
  if negb (speaking s) then ret tt
  else if listener_starts env then
    emit StartListener ;;; modify (set_background_listener_stop true)
  else ret tt.

(** [while not audio_generated.is_set()]: [true] when the loop ends
    because the event is set, [false] when it breaks off. *)
Fixpoint generation_wait (polls : nat) : M bool :=
  match polls with
  | O => ret true
  | S polls' =>
      interrupted <- read_interrupt ;;
      if interrupted then ret false else generation_wait polls'
  end.

(** The ElevenLabs branch, with its [except Exception] handler. *)
Definition elevenlabs_speak (text : string) : M unit :=
  try_except
    (emit (Generate text) ;;;
     finished <- generation_wait (generation_polls env) ;;
     let stored := finished || outcome_seen_at_break env in
     let audio_error :=
       stored && match generation env with GenerateRaises => true | _ => false end in
     let audio_data :=
       stored && match generation env with Generated t => t | _ => false end in
     (if audio_error then raise (other_error "generate") else ret tt) ;;;
     interrupted <- read_interrupt ;;
     if negb interrupted && audio_data then
       emit Play ;;;
       (if play_ok env then ret tt else raise (other_error "play")) ;;;
       interrupted <- read_interrupt ;;
       ret tt
     else ret tt)
    (fun _ => modify (set_use_elevenlabs false)).

(** [while proc.poll() is None]. *)
Fixpoint poll_loop (c : ChunkEnv) (running safety : nat) : M unit :=
  match running with
  | O => ret tt
  | S running' =>
      interrupted <- read_interrupt ;;
      if interrupted then
        emit KillProc ;;;
        emit Pkill ;;;
        match pkill_in_loop c with
        | PkillDone => ret tt
        | PkillTimeout => raise timeout_expired
        | PkillError => raise (other_error "pkill")
        end
      else
        match safety with
        | O => emit KillProc ;;; ret tt
        | S safety' => poll_loop c running' safety'
        end
  end.

(** The [try] block around one chunk, with its two handlers.  The
    request for [say] is recorded whether or not [Popen] succeeds. *)
Definition speak_chunk (c : ChunkEnv) (chunk : string) : M unit :=
  try_except
    (emit (Say chunk) ;;;
     (if popen_ok c then ret tt else raise (other_error "Popen")) ;;;
     poll_loop c (running_polls c) (safety_polls c) ;;;
     interrupted <- read_interrupt ;;
     if negb interrupted then
       emit WaitProc ;;;
       if wait_expires c then raise timeout_expired else ret tt
     else ret tt)
    (fun e =>
       if is_timeout_expired e then
         emit Pkill ;;;
         if pkill_in_handler_ok c then ret tt else raise (other_error "pkill")
       else ret tt).

(** [for i in range(0, len(words), chunk_size)]; [i] numbers the
    chunk. *)
Fixpoint say_chunks (i : nat) (chunks : list string) : M unit :=
  match chunks with
  | [] => ret tt
  | chunk :: rest =>
      interrupted <- read_interrupt ;;
      if interrupted then
        emit Pkill ;;; emit Killall ;;; ret tt
      else
        speak_chunk (chunk_env env i) chunk ;;;
        interrupted <- read_interrupt ;;
        if interrupted then ret tt else say_chunks (S i) rest
  end.

(** Stopping the background listener: an exception of the stopper is
    swallowed, and the handle is cleared either way. *)
Definition stop_background_listener : M unit :=
  s <- get ;;
  if background_listener_stop s then
    emit StopListener ;;;
    modify (set_background_listener_stop false)
  else ret tt.

Definition run_callback (n : nat) : M unit :=
  if has_callback env then
    emit CallbackCall ;;;
    if callback_ok env n then ret tt else raise (other_error "callback")
  else ret tt.

(** The two backends, up to the end of playback. *)
Definition play_text (text : string) : M unit :=
  _start_interruption_detection ;;;
  s <- get ;;
  (if use_elevenlabs s && elevenlabs_available s
   then elevenlabs_speak text else ret tt) ;;;
  s <- get ;;
  if negb (use_elevenlabs s) || negb (elevenlabs_available s)
  then say_chunks 0 (chunk_list (Py.split text))
  else ret tt.

(** What ends the session, on the normal path ([n = 0]) and in the
    outer handler ([n = 1]). *)
Definition finish_session (n : nat) : M unit :=
  modify (set_speaking false) ;;;
  stop_background_listener ;;;
  run_callback n.

(** The function [speak] run by the speech thread. *)
Definition speak_thread (text : string) : M unit :=
  try_except (play_text text ;;; finish_session 0)
             (fun _ => finish_session 1).

(** [_speak_text]: the two assignments, then the speech thread. *)
Definition speak_start : M unit :=
  modify (set_speaking true) ;;;
  modify (set_interrupt_speech false).

Definition _speak_text (text : string) : M unit :=
  speak_start ;;;
  speak_thread text.
End Player.

(** *** Observations on a session *)

(** Synthesis and playback requests. *)
Definition is_output (e : Event) : bool :=
  match e with
  | Say _ | Play | Generate _ => true
  | _ => false
  end.

Definition is_true_read (e : Event) : bool :=
  match e with
  | ReadFlag true => true
  | _ => false
  end.

Definition no_output (t : list Event) : bool :=
  forallb (fun e => negb (is_output e)) t.

Definition has_true_read (t : list Event) : bool := existsb is_true_read t.

(** No synthesis or playback request comes after a read of the flag that
    found it set. *)
Fixpoint stops_when_interrupted (t : list Event) : bool :=
  match t with
  | [] => true
  | e :: rest =>
      if is_true_read e then no_output rest else stops_when_interrupted rest
  end.

(** The moves that can happen while a session lasts: an action of the
    listener thread, or the speech thread writing [speaking = False]. *)
Inductive SessionAction :=
| Listener (a : MonitorAction)
| PlayerFinishes.

Definition session_step (a : SessionAction) (s : State) : State :=
  match a with
  | Listener a => snd (monitor_step a s)
  | PlayerFinishes => set_speaking false s
  end.

(** The states a run goes through, the first one included. *)
Fixpoint session_states (s : State) (acts : list SessionAction) : list State :=
  s :: match acts with
       | [] => []
       | a :: rest => session_states (session_step a s) rest
       end.

(** Transitions of [interrupt_speech] along a list of states. *)
Fixpoint rises (states : list State) : nat :=
  match states with
  | x :: ((y :: _) as rest) =>
      (if negb (interrupt_speech x) && interrupt_speech y then 1 else 0)%nat
      + rises rest
  | _ => 0%nat
  end.

Fixpoint falls (states : list State) : nat :=
  match states with
  | x :: ((y :: _) as rest) =>
      (if interrupt_speech x && negb (interrupt_speech y) then 1 else 0)%nat
      + falls rest
  | _ => 0%nat
  end.

(** The flag rises only out of states in which [speaking] holds. *)
Fixpoint rises_while_speaking (states : list State) : bool :=
  match states with
  | x :: ((y :: _) as rest) =>
      (if negb (interrupt_speech x) && interrupt_speech y then speaking x else true)
      && rises_while_speaking rest
  | _ => true
  end.

(** The part of a run that belongs to the session: up to and including
    the write [speaking = False]. *)
Fixpoint until_finish (acts : list SessionAction) : list SessionAction :=
  match acts with
  | [] => []
  | PlayerFinishes :: _ => [PlayerFinishes]
  | a :: rest => a :: until_finish rest
  end.

(** ** The violation log as Python objects *)

(** [self.violations] is a reference to a list object whose items are
    references to the dicts built by [_log_violation];
    [get_violations] returns [self.violations.copy()], a new list
    object with the same items.  The store below keeps the two kinds of
    object by address, so that sharing is visible. *)
Module Store.

Definition loc := positive.

Inductive object :=
| ListObj (items : list loc)
| DictObj (entry : Violation).

Definition alloc (o : object) (h : gmap loc object) : loc * gmap loc object :=
  let l := fresh (dom h) in (l, <[l := o]> h).

(** [self.violations.append(violation)] after building the dict. *)
Definition log_violation (self_violations : loc) (t : Z) (msg : string)
                         (h : gmap loc object) : gmap loc object :=
  let (d, h1) := alloc (DictObj (mkViolation t msg)) h in
  match h1 !! self_violations with
  | Some (ListObj items) => <[self_violations := ListObj (items ++ [d])]> h1
  | _ => h1
  end.

(** [return self.violations.copy()]: the address of the new list. *)
Definition get_violations (self_violations : loc) (h : gmap loc object)
  : option loc * gmap loc object :=
  match h !! self_violations with
  | Some (ListObj items) =>
      let (r, h1) := alloc (ListObj items) h in (Some r, h1)
  | _ => (None, h)
  end.

(** Any in-place change of the list object at [l] (append, insert, pop,
    item assignment, clear, sort, ...): its items become [f items]. *)
Definition mutate_list (l : loc) (f : list loc -> list loc)
                       (h : gmap loc object) : gmap loc object :=
  match h !! l with
  | Some (ListObj items) => <[l := ListObj (f items)]> h
  | _ => h
  end.

Definition mutate_many (l : loc) (fs : list (list loc -> list loc))
                       (h : gmap loc object) : gmap loc object :=
  foldl (fun h f => mutate_list l f h) h fs.

(** An in-place change of the dict at [d]. *)
Definition mutate_dict (d : loc) (f : Violation -> Violation)
                       (h : gmap loc object) : gmap loc object :=
  match h !! d with
  | Some (DictObj v) => <[d := DictObj (f v)]> h
  | _ => h
  end.

Definition items_of (l : loc) (h : gmap loc object) : option (list loc) :=
  match h !! l with
  | Some (ListObj items) => Some items
  | _ => None
  end.

Definition entry_of (h : gmap loc object) (d : loc) : option Violation :=
  match h !! d with
  | Some (DictObj v) => Some v
  | _ => None
  end.

(** What a reader of the list at [l] sees: its entries, in order. *)
Definition view (l : loc) (h : gmap loc object) : option (list Violation) :=
  items ← items_of l h; mapM (entry_of h) items.

(** A store with an empty log at address 1. *)
Definition empty_log : gmap loc object := {[ 1%positive := ListObj [] ]}.

Definition two_entries : gmap loc object :=
  log_violation 1%positive 7 "Web search failed: timeout"
    (log_violation 1%positive 5 "Grok API timeout: read timed out" empty_log).

(** [self.violations.clear()]: the list object is emptied in place. *)
Definition clear_violations (self_violations : loc) (h : gmap loc object)
  : gmap loc object :=
  mutate_list self_violations (fun _ => []) h.

End Store.

(** ** Properties of computations used in the statements *)

(** The keyword test of the shaper, seen from the constructor argument:
    the keyword and the triggering input are both lowered before the
    substring test. *)
Definition mentions_keyword (keyword user_input : string) : bool :=
  Py.contains (Py.lower keyword) (Py.lower user_input).

Definition word_count (text : string) : Z := Z.of_nat (length (Py.split text)).

(** A computation is quiet when it calls neither the search nor the
    completion collaborator. *)
Definition quiet {A} (m : M A) : Prop :=
  forall s out s', m s = (out, s') ->
    search_calls (trace s') = search_calls (trace s)
    /\ post_calls (trace s') = post_calls (trace s).

(** A computation is total when it returns from every state. *)
Definition total {A} (m : M A) : Prop :=
  forall s, exists a s', m s = (Ret a, s').

(** Two properties of a computation of the speech thread, by the value
    of the flag in the state it starts from.  [after_interrupt m]: from
    a state with the flag set, [m] asks for no synthesis or playback and
    leaves the flag set.  [before_interrupt m]: from a state with the
    flag clear, [m] asks for none after a read that found the flag set,
    and the flag ends set exactly if one of its reads found it so. *)
Definition after_interrupt {A} (m : M A) : Prop :=
  forall s out s', interrupt_speech s = true -> m s = (out, s') ->
    exists d, trace s' = trace s ++ d
              /\ no_output d = true /\ interrupt_speech s' = true.

Definition before_interrupt {A} (m : M A) : Prop :=
  forall s out s', interrupt_speech s = false -> m s = (out, s') ->
    exists d, trace s' = trace s ++ d
              /\ stops_when_interrupted d = true
              /\ interrupt_speech s' = has_true_read d.

(** [readless m]: [m] does not read the flag and does not change it. *)
Definition readless {A} (m : M A) : Prop :=
  forall s out s', m s = (out, s') ->
    exists d, trace s' = trace s ++ d
              /\ has_true_read d = false
              /\ interrupt_speech s' = interrupt_speech s.

(** [inert m]: [m] neither reads the flag, nor changes it, nor asks for
    synthesis or playback. *)
Definition inert {A} (m : M A) : Prop :=
  forall s out s', m s = (out, s') ->
    exists d, trace s' = trace s ++ d
              /\ no_output d = true /\ has_true_read d = false
              /\ interrupt_speech s' = interrupt_speech s.

(** One chunk, after the [say] process has been asked for. *)
Definition chunk_tail (c : ChunkEnv) : M unit :=
  poll_loop c (running_polls c) (safety_polls c) ;;;
  interrupted <- read_interrupt ;;
  if negb interrupted then
    emit WaitProc ;;;
    if wait_expires c then raise timeout_expired else ret tt
  else ret tt.

(** *** A concrete speech session *)

(** The [say] process of every chunk runs for three polls and ends by
    itself; there is no ElevenLabs backend. *)
Definition plain_speech : SpeechEnv :=
  mkSpeechEnv true 0 (Generated true) false true
              (fun _ => mkChunkEnv true 3 30 PkillDone false true)
              false (fun _ => true).

(** The listener hears something it cannot transcribe between the second
    and the third read of the flag by the speech thread. *)
Definition interrupted_early : State :=
  set_tape [[]; []; [CallbackEnters; CallbackFinishes UnknownValue]] st0.

(** ** Further observations, used by the properties beyond the claims *)

(** A word ends a sentence. *)
Definition ends_sentence (w : string) : bool :=
  match Py.last_char w with
  | Some c => terminal c
  | None => false
  end.

(** Where the shaper cuts a reply of [words] under a limit [m >= 0]: after
    the last word that ends a sentence among the (at most four) words
    before position [m], counted from 0, that have an index above
    [max(0, m - 5)]; after [m] words when there is none. *)
Definition cut_point (m : Z) (words : list string) : nat :=
  match find (fun i => match words !! Z.to_nat i with
                       | Some w => ends_sentence w
                       | None => false
                       end)
             (Py.range_down (Z.min m (Z.of_nat (length words)) - 1)
                            (Z.max 0 (m - 5))) with
  | Some i => Z.to_nat (i + 1)
  | None => Z.to_nat m
  end.

(** The violations a state holds, by message. *)
Definition messages (s : State) : list string := map message (violations s).

(** The string does not begin with whitespace. *)
Definition starts_clean (s : string) : bool :=
  match s with
  | EmptyString => true
  | String c _ => negb (Py.isspace c)
  end.

(** No character of the string is '.', '!' or '?'. *)
Fixpoint markfree (s : string) : bool :=
  match s with
  | EmptyString => true
  | String c s' => negb (terminal c) && markfree s'
  end.

(** ** Voice input: [_listen_and_transcribe], [process_voice_input] and the
    loop of [voice_chat] *)

(** What the microphone and the recognition service do in one call of
    [_listen_and_transcribe]: text is recognised, or one of the
    exceptions the method catches is raised. *)
Inductive ListenOutcome :=
| Transcribed (text : string)
| WaitTimeout
| NotUnderstood
| ServiceDown (msg : string)
| ListenError (msg : string).

(** [_listen_and_transcribe]: the text, or [None] for every exception. *)
Definition _listen_and_transcribe (heard : ListenOutcome) : M (option string) :=
  match heard with
  | Transcribed text => ret (Some text)
  | WaitTimeout => ret None
  | NotUnderstood => ret None
  | ServiceDown _ => ret None
  | ListenError _ => ret None
  end.

(** Python truth of an optional string: [None] and [""] are false. *)
Definition heard_something (user_input : option string) : bool :=
  match user_input with
  | Some text => nonempty text
  | None => false
  end.

(** Python truth of what [process_input] returned, and its comparison
    with a string. *)
Definition content_truthy (response : Content) : bool :=
  match response with
  | Text r => nonempty r
  | NotText truthy => truthy
  end.

Definition content_eqb (response : Content) (r : string) : bool :=
  match response with
  | Text r' => String.eqb r' r
  | NotText _ => false
  end.

(** How one pass through the body of [while True] in [voice_chat] ends
    for the control thread: [continue] (or the end of the body without
    speech), the exit phrase (the loop says goodbye and breaks), or a
    reply that is handed to [speak]. *)
Inductive TurnEnd :=
| Again
| Goodbye
| Reply (response : Content).

Section Voice.
Variable cfg : Config.
Variable GoogleSearch : option (string -> SearchOutcome).
Variable requests_post : Request -> PostOutcome.

(** [process_voice_input]; [polls] and [polls'] are the numbers of polls
    of its own silence wait and of the one inside [process_input]. *)
Definition process_voice_input (polls polls' : nat) (heard : ListenOutcome)
  : M (option Content) :=
  silent <- _wait_for_silence polls ;;
  if negb silent then ret None
  else
    user_input <- _listen_and_transcribe heard ;;
    if negb (heard_something user_input) then ret None
    else
      response <- process_input cfg GoogleSearch requests_post polls'
                    (default "" user_input) ;;
      ret (Some response).

(** The body of the loop of [voice_chat], up to the point where the
    control thread hands a text to [speak]. *)
Definition voice_chat_turn (exit_phrases : list string) (polls polls' : nat)
                           (heard : ListenOutcome) : M TurnEnd :=
  let exit_phrases_lower := map Py.lower exit_phrases in
  silent <- _wait_for_silence polls ;;
  if negb silent then ret Again
  else
    user_input <- _listen_and_transcribe heard ;;
    if negb (heard_something user_input) then ret Again
    else
      let user_input := default "" user_input in
      if existsb (String.eqb (Py.lower user_input)) exit_phrases_lower
      then ret Goodbye
      else
        response <- process_input cfg GoogleSearch requests_post polls'
                      user_input ;;
        if content_truthy response && negb (content_eqb response "Interrupted")
        then ret (Reply response)
        else ret Again.
End Voice.

(** The default exit phrases of [voice_chat]. *)
Definition default_exit_phrases : list string :=
  ["exit"; "goodbye"; "quit"; "stop"; "end"].

(** [m] only appends to the violation log. *)
Definition appends {A} (m : M A) : Prop :=
  forall s out s', m s = (out, s') ->
    exists added, violations s' = violations s ++ added.

(** Callbacks of the listener thread run one after the other. *)
Fixpoint run_callbacks (rs : list Recognition) : M unit :=
  match rs with
  | [] => ret tt
  | r :: rs' => _interruption_callback r ;;; run_callbacks rs'
  end.

(** The chunks a trace asks [say] to speak, in order. *)
Definition says (t : list Event) : list string :=
  omap (fun e => match e with Say chunk => Some chunk | _ => None end) t.

(** What a computation adds to the trace satisfies [P] of its [say]
    requests. *)
Definition says_of {A} (m : M A) (P : list string -> Prop) : Prop :=
  forall s out s', m s = (out, s') ->
    exists d, trace s' = trace s ++ d /\ P (says d).

(** [m] asks for no [say] process. *)
Definition silent {A} (m : M A) : Prop := says_of m (fun l => l = []).

(** The listener thread has nothing scheduled, the flag is clear and
    the system voice is in use. *)
Definition calm (s : State) : Prop :=
  tape s = [] /\ interrupt_speech s = false /\ use_elevenlabs s = false.

(** From a calm state [m] ends with [out], stays calm and asks [say]
    for exactly [l]. *)
Definition calmly {A} (m : M A) (out : Res A) (l : list string) : Prop :=
  forall s out' s', calm s -> m s = (out', s') ->
    out' = out /\ calm s'
    /\ exists d, trace s' = trace s ++ d /\ says d = l.

(** No process hangs twice: where [proc.wait] expires, the [pkill] of
    the handler returns. *)
Definition handlers_recover (env : SpeechEnv) : Prop :=
  forall i, wait_expires (chunk_env env i) = true ->
            pkill_in_handler_ok (chunk_env env i) = true.

(** A session in which one chunk's process cannot be started, one runs
    into the safety timeout and one outlives [proc.wait]. *)
Definition rough_speech : SpeechEnv :=
  mkSpeechEnv true 0 (Generated true) false true
              (fun i => match i with
                        | O => mkChunkEnv false 0 0 PkillDone false true
                        | S O => mkChunkEnv true 9 2 PkillDone false true
                        | _ => mkChunkEnv true 1 30 PkillDone true true
                        end)
              true (fun _ => true).

(** [m] keeps the handle of a started listener. *)
Definition keeps_handle {A} (m : M A) : Prop :=
  forall s out s', m s = (out, s') ->
    background_listener_stop s = true -> background_listener_stop s' = true.

(** ** The API server: [get_hue_instance]

    The first call, which builds the instance from the two keys of the
    environment ([None] for a variable that is not set); the ElevenLabs
    settings do not enter the configuration. *)

Definition value_error (msg : string) : Exn := OtherError "ValueError" msg.

(** [not key or marker in key.lower()]. *)
Definition key_rejected (marker : string) (key : option string) : bool :=
  match key with
  | None => true
  | Some k => negb (nonempty k) || Py.contains marker (Py.lower k)
  end.

Definition get_hue_instance (grok_api_key serpapi_key : option string)
  : Res Config :=
  if key_rejected "your-grok" grok_api_key then
    Raise (value_error "GROK_API_KEY not set in .env file")
  else if key_rejected "your-serpapi" serpapi_key then
    Raise (value_error "SERPAPI_KEY not set in .env file")
  else
    Ret (init_config (default "" grok_api_key) (default "" serpapi_key)
                     20 "explain").

(** The completion service answers 200 only with a [str] under
    "content", or with a body from which no content can be taken. *)
Definition replies_are_text (requests_post : Request -> PostOutcome) : Prop :=
  forall req r truthy,
    requests_post req = Responds r -> status_code r = 200 ->
    reply r <> Ret (NotText truthy).

(** Every model answers 200 with [null] under "content". *)
Definition null_content (_ : Request) : PostOutcome :=
  Responds (mkResponse 200 "{}" (Ret (NotText false)) None).

(** ** Observations on the player's checks *)

(** Requests that make sound: a [say] process, ElevenLabs playback. *)
Definition is_speech (e : Event) : bool :=
  match e with
  | Say _ | Play => true
  | _ => false
  end.

Definition is_clear_read (e : Event) : bool :=
  match e with
  | ReadFlag false => true
  | _ => false
  end.

(** Every request that makes sound comes directly after a read of the
    flag that found it clear; [clear] tells whether the event before
    [t] was such a read. *)
Fixpoint checked_from (clear : bool) (t : list Event) : bool :=
  match t with
  | [] => true
  | e :: rest =>
      (if is_speech e then clear else true)
      && checked_from (is_clear_read e) rest
  end.

Definition checks_before_speech (t : list Event) : bool := checked_from false t.

(** What follows the start of a [say] process that runs for [running]
    polls, under a safety limit of [safety] polls: when poll number [j]
    (from 0), made while the process still runs and the limit has not
    passed, is the first to read the flag set, [proc.kill()] and
    [pkill] come next. *)
Definition kill_on_poll (running safety : nat) (after : list Event) : Prop :=
  forall j rest,
    after = repeat (ReadFlag false) j ++ ReadFlag true :: rest ->
    (j < running)%nat -> (j <= safety)%nat ->
    exists rest', rest = KillProc :: Pkill :: rest'.

(** The chunk in flight is cancelled: for every [say] request of the
    trace whose process could be started, what follows it kills the
    process at the poll that finds the flag set.  The request after
    [n] earlier ones is for chunk number [n]. *)
Definition kills_in_flight (env : SpeechEnv) (t : list Event) : Prop :=
  forall before chunk after,
    t = before ++ Say chunk :: after ->
    let c := chunk_env env (length (says before)) in
    popen_ok c = true ->
    kill_on_poll (running_polls c) (safety_polls c) after.

(** The same for a part of a session that starts at chunk number [i]
    and may be followed by anything. *)
Definition kills_from (env : SpeechEnv) (i : nat) (t : list Event) : Prop :=
  forall before chunk after l,
    t = before ++ Say chunk :: after ->
    let c := chunk_env env (i + length (says before)) in
    popen_ok c = true ->
    kill_on_poll (running_polls c) (safety_polls c) (after ++ l).

(** What a computation adds to the trace satisfies [P]. *)
Definition adds {A} (m : M A) (P : list Event -> Prop) : Prop :=
  forall s out s', m s = (out, s') ->
    exists d, trace s' = trace s ++ d /\ P d.

(** A property of traces that holds of nothing, of a read, and of two
    traces one after the other. *)
Definition closed (P : list Event -> Prop) : Prop :=
  P [] /\ (forall d1 d2, P d1 -> P d2 -> P (d1 ++ d2))
  /\ (forall b, P [ReadFlag b]).

Definition speechless (t : list Event) : Prop :=
  forallb (fun e => negb (is_speech e)) t = true.

(** Checked whatever came before, and without a [say] request. *)
Definition checked_and_silent (t : list Event) : Prop :=
  (forall clear, checked_from clear t = true) /\ says t = [].

(** Checked whatever came before, with the chunks in flight killed. *)
Definition checked_and_killed (env : SpeechEnv) (i : nat) (t : list Event)
  : Prop :=
  (forall clear, checked_from clear t = true) /\ kills_from env i t.

(** * Properties *)

(** ** Checks of the text primitives and the shaper on examples *)

Example split_example :
  Py.split "  The moon  landing. " = ["The"; "moon"; "landing."].
Proof. reflexivity. Qed.

Example lower_example : Py.lower "Please EXPLAIN" = "please explain".
Proof. reflexivity. Qed.

Example range_down_example : Py.range_down 9 5 = [9; 8; 7; 6].
Proof. reflexivity. Qed.

Example slice_to_negative : Py.slice_to (-1) ["a"; "b"; "c"] = ["a"; "b"].
Proof. reflexivity. Qed.

Example str_of_int_example : Py.str_of_int 15 = "15" /\ Py.str_of_int (-3) = "-3".
Proof. split; reflexivity. Qed.

Example shape_scenario_B :
  fst (_limit_response_length cfg10
         "one two three four five six seven eight nine. ten eleven twelve thirteen fourteen fifteen"
         "tell me" st0)
  = Ret "one two three four five six seven eight nine.".
Proof. reflexivity. Qed.

Example shape_no_boundary :
  fst (_limit_response_length cfg10 "a b c d e f g h i j k" "tell me" st0)
  = Ret "a b c d e f g h i j".
Proof. reflexivity. Qed.

(** ** Response Shaper *)

(** C7: the shaper returns the reply unchanged (and leaves the object
    untouched) whenever the triggering input contains the explain keyword
    in any letter case, whatever the length of the reply, and also
    whenever the reply has at most [max_response_words] words. *)
Theorem shape_unchanged :
  forall key serp max_words keyword response user_input s,
    mentions_keyword keyword user_input = true
    \/ word_count response <= max_words ->
    _limit_response_length (init_config key serp max_words keyword)
      response user_input s
    = (Ret response, s).
Proof.
  intros key serp max_words keyword response user_input s H.
  unfold _limit_response_length, mentions_keyword, word_count in *. simpl.
  destruct (Py.contains (Py.lower keyword) (Py.lower user_input)) eqn:Hkw.
  - reflexivity.
  - destruct H as [H | H]; [discriminate |].
    destruct (Z.ltb_spec max_words (Z.of_nat (length (Py.split response))));
      [lia | reflexivity].
Qed.

Lemma shape_unchanged_witness :
  (mentions_keyword "explain" "Could you EXPLAIN tides?" = true
   \/ word_count "a b c d e f g h i j k l m" <= 10)
  /\ _limit_response_length (init_config "xai-0123456789" "serp-key" 10 "explain")
       "a b c d e f g h i j k l m" "Could you EXPLAIN tides?" st0
     = (Ret "a b c d e f g h i j k l m", st0).
Proof.
  split.
  - left. reflexivity.
  - apply shape_unchanged. left. reflexivity.
Defined.

(** C4 (the code departs from it): an eleven-word reply with no sentence
    end among its first ten words, shaped for an input without the
    keyword under [max_response_words = 10].  The truncation chosen is
    the first ten words, it ends in the letter j, and the shaper returns
    it as it is: the test that appends the ellipsis sits under the
    word-count test, which is false here. *)
Theorem shape_ellipsis_missing :
  let reply := "a b c d e f g h i j k" in
  let out := fst (_limit_response_length cfg10 reply "tell me" st0) in
  mentions_keyword "explain" "tell me" = false
  /\ word_count reply = 11
  /\ out = Ret "a b c d e f g h i j"
  /\ Py.last_char "a b c d e f g h i j" = Some "j"%char
  /\ terminal "j" = false.
Proof. repeat split; reflexivity. Qed.

(** ** Running the monad *)

Ltac run :=
  unfold bind, ret, raise, modify, emit, get, try_except, _log_violation,
         index_error in *;
  simpl in *.

Lemma post_calls_snoc t e :
  post_calls (t ++ [e]) = post_calls t ++ post_calls [e].
Proof. unfold post_calls. apply omap_app. Qed.

Lemma search_calls_snoc t e :
  search_calls (t ++ [e]) = search_calls t ++ search_calls [e].
Proof. unfold search_calls. apply omap_app. Qed.

(** ** Completion Client *)

Section CompletionFacts.
Variable cfg : Config.
Variable requests_post : Request -> PostOutcome.

(** The loop posts to the models in order and ends where
    [stops_in_code] says; it touches nothing but the trace. *)
Lemma try_models_trace system user_input models last s out s' :
  try_models requests_post system user_input models last s = (out, s') ->
  post_calls (trace s')
  = post_calls (trace s)
    ++ attempts_until stops_in_code
         (fun m => requests_post (mkRequest m system user_input)) models
  /\ search_calls (trace s') = search_calls (trace s)
  /\ violations s' = violations s.
Proof.
  revert last s. induction models as [| m rest IH]; intros last s Hrun.
  - simpl in Hrun. run. inversion Hrun; subst. rewrite app_nil_r. auto.
  - simpl in Hrun. unfold bind, emit, modify in Hrun. simpl in Hrun.
    assert (Hstep : forall t,
               post_calls (trace s ++ [PostCall m]) ++ t
               = post_calls (trace s) ++ m :: t).
    { intros t. rewrite post_calls_snoc. simpl. now rewrite <- app_assoc. }
    assert (Hsearch : search_calls (trace s ++ [PostCall m])
                      = search_calls (trace s)).
    { rewrite search_calls_snoc. simpl. apply app_nil_r. }
    simpl.
    destruct (requests_post (mkRequest m system user_input)) as [r | e];
      simpl in *.
    + destruct (status_code r =? 200) eqn:E200; simpl in *.
      * rewrite <- Hstep, app_nil_r.
        destruct (reply r); run; inversion Hrun; subst; simpl; auto.
      * destruct (status_code r =? 400) eqn:E400; simpl in *.
        -- destruct (model_unavailable r); simpl in *.
           ++ apply IH in Hrun as (H1 & H2 & H3). simpl in *.
              rewrite H1, H2, H3, Hstep, Hsearch. auto.
           ++ run. inversion Hrun; subst; simpl.
              rewrite <- Hstep, app_nil_r. auto.
        -- apply IH in Hrun as (H1 & H2 & H3). simpl in *.
           rewrite H1, H2, H3, Hstep, Hsearch. auto.
    + run. inversion Hrun; subst; simpl.
      rewrite <- Hstep, app_nil_r. auto.
Qed.

(** What one call of [_query_grok] leaves in the trace: no search, and
    the posts of the loop. *)
Lemma query_grok_trace user_input context s out s' :
  _query_grok cfg requests_post user_input context s = (out, s') ->
  post_calls (trace s')
  = post_calls (trace s)
    ++ (if api_key_configured cfg
        then attempts_until stops_in_code
               (outcome_for requests_post user_input context) model_names
        else [])
  /\ search_calls (trace s') = search_calls (trace s).
Proof.
  unfold _query_grok, api_key_configured.
  destruct (negb (nonempty (grok_api_key cfg))
            || String.eqb (grok_api_key cfg) "your-grok-api-key-here"
            || String.eqb (grok_api_key cfg) "") eqn:Hkey;
    cbn [negb].
  - run. intros H; inversion H; subst; simpl. now rewrite app_nil_r.
  - unfold try_except, query_body. unfold bind at 1.
    destruct (try_models requests_post (system_content context) user_input
                model_names None s) as [[ending | e] s1] eqn:Hrun;
      apply try_models_trace in Hrun as (H1 & H2 & _);
      unfold outcome_for; intros H.
    + assert (Htr : trace s' = trace s1).
      { destruct ending as [content | [r |]]; run;
          try (inversion H; subst; reflexivity).
        destruct (response_truthy r); inversion H; subst; reflexivity. }
      rewrite Htr. auto.
    + assert (Htr : trace s' = trace s1).
      { destruct e; run; inversion H; subst; reflexivity. }
      rewrite Htr. auto.
Qed.

(** The models [_query_grok] attempts, for every request. *)
Lemma query_grok_attempts user_input context s :
  post_calls (trace (snd (_query_grok cfg requests_post user_input context s)))
  = post_calls (trace s)
    ++ (if api_key_configured cfg
        then attempts_until stops_in_code
               (outcome_for requests_post user_input context) model_names
        else []).
Proof.
  destruct (_query_grok cfg requests_post user_input context s) as [out s']
    eqn:Hrun.
  now apply query_grok_trace in Hrun as [H _].
Qed.
End CompletionFacts.

(** C1, as stated, fails: the first model answers 503 with a body that
    does not mention a model; the specified policy ends the fallback
    there, the code goes on and posts to the second model. *)
Lemma fallback_continues_after_503 :
  let attempted :=
    post_calls (trace (snd (_query_grok cfg10 busy_then_ok "hi" None st0))) in
  let specified :=
    attempts_until stops_as_specified (outcome_for busy_then_ok "hi" None)
                   model_names in
  attempted = ["grok-3"; "grok-beta"]
  /\ specified = ["grok-3"]
  /\ attempted <> specified.
Proof. repeat split; try reflexivity. discriminate. Qed.

(** C1, amended: with a configured API key, and leaving aside responses
    that are an authorization failure or a 404, the client posts to the
    models strictly in order and stops at the first attempt that raises
    (timeout, connection failure, any other exception), that answers 200,
    or that answers 400 with a body that does not read as
    model-not-available; after a model-not-available 400 and after any
    other status it goes on to the next model. *)
Theorem fallback_order :
  forall cfg requests_post user_input context s,
    api_key_configured cfg = true ->
    (forall m, In m model_names ->
       auth_or_not_found (outcome_for requests_post user_input context m) = false) ->
    post_calls (trace (snd (_query_grok cfg requests_post user_input context s)))
    = post_calls (trace s)
      ++ attempts_until stops_in_code
           (outcome_for requests_post user_input context) model_names.
Proof.
  intros cfg requests_post user_input context s Hkey _.
  rewrite query_grok_attempts, Hkey. reflexivity.
Qed.

Lemma fallback_order_witness :
  api_key_configured cfg10 = true
  /\ (forall m, In m model_names ->
        auth_or_not_found (outcome_for unknown_then_timeout "hi" None m) = false)
  /\ post_calls (trace (snd (_query_grok cfg10 unknown_then_timeout "hi" None st0)))
     = ["grok-3"; "grok-beta"; "grok-2"].
Proof.
  assert (H : forall m, In m model_names ->
            auth_or_not_found (outcome_for unknown_then_timeout "hi" None m) = false).
  { intros m Hm. simpl in Hm.
    repeat (destruct Hm as [<- | Hm]; [reflexivity |]). destruct Hm. }
  split; [reflexivity | split; [exact H |]].
  rewrite (fallback_order cfg10 unknown_then_timeout "hi" None st0 eq_refl H).
  reflexivity.
Defined.

(** The attempts are always an initial segment of the fallback list. *)
Lemma attempts_until_prefix stops outcome models :
  exists rest, models = attempts_until stops outcome models ++ rest.
Proof.
  induction models as [| m models IH]; simpl.
  - now exists [].
  - destruct (stops (outcome m)).
    + now exists models.
    + destruct IH as [rest IH]. exists rest. now rewrite <- IH.
Qed.

(** Scenario C: every model answers model-not-found; each model is tried
    exactly once, in order. *)
Example all_models_unknown :
  post_calls (trace (snd (_query_grok cfg10
                            (fun _ => Responds (error_response 400 "Model not found"))
                            "hi" None st0)))
  = model_names.
Proof. reflexivity. Qed.

(** The missed case: a 401 does not end the loop either, all five
    models are posted to with the key that was just refused. *)
Example unauthorized_tries_every_model :
  post_calls (trace (snd (_query_grok cfg10 always_unauthorized "hi" None st0)))
  = model_names.
Proof. reflexivity. Qed.

(** ** Context Augmenter *)

(** Scenario A: the sentence with the year is the claim, and the search
    is made with it. *)
Example scenario_A :
  _extract_factual_claims "The moon landing was in 1969."
  = ["The moon landing was in 1969"]
  /\ search_query_for "The moon landing was in 1969."
     = "The moon landing was in 1969".
Proof. split; reflexivity. Qed.

Example extract_claims_examples :
  _extract_factual_claims
    "Hello there! 50% of cats sleep. It IS  raining? is. No year in 12345 or a1969."
  = ["50% of cats sleep"; "It IS  raining"].
Proof. reflexivity. Qed.

(** C8 (the code departs from it): the search succeeds and returns a
    direct answer but no organic result.  [_search_web] has put the
    answer in [context_parts], but the [return] of the joined parts sits
    under the test for organic results, so the method returns [None] (and
    logs no violation). *)
Theorem search_drops_direct_answer :
  let search := Some (fun _ : string => SearchDict answer_only) in
  direct_part answer_only = ["Direct answer: Paris"]
  /\ _search_web search "capital of France" st0
     = (Ret None, set_trace [SearchCall "capital of France"] st0)
  /\ _search_web (Some (fun _ : string =>
                    SearchDict (mkResults (answer_box answer_only) None)))
                 "capital of France" st0
     = (Ret None, set_trace [SearchCall "capital of France"] st0).
Proof. repeat split; reflexivity. Qed.

(** Without organic results nothing is returned, whatever the answer box
    holds. *)
Lemma build_context_without_pages results :
  organic_results results = None \/ organic_results results = Some [] ->
  build_context results = None.
Proof. unfold build_context. now intros [-> | ->]. Qed.

(** With at least one organic result the context is the direct answer
    followed by the "title: snippet" pairs of the first three results
    that have a snippet, joined by " | ". *)
Lemma build_context_with_pages results r rs :
  organic_results results = Some (r :: rs) ->
  build_context results
  = match direct_part results
          ++ concat (map organic_part (firstn 3 (r :: rs))) with
    | [] => None
    | parts => Some (Py.join " | " parts)
    end.
Proof.
  intros H. unfold build_context. rewrite H.
  destruct (direct_part results ++ concat (map organic_part (firstn 3 (r :: rs))));
    reflexivity.
Qed.

Example search_with_pages :
  fst (_search_web (Some (fun _ : string => SearchDict answer_and_pages))
                   "capital of France" st0)
  = Ret (Some "Direct answer: Paris is the capital | France: A country | : Seine").
Proof. reflexivity. Qed.

(** ** Turn Controller *)

Lemma quiet_ret {A} (a : A) : quiet (ret a).
Proof. intros s out s' H. run. now inversion H. Qed.

Lemma quiet_raise {A} e : quiet (@raise A e).
Proof. intros s out s' H. run. now inversion H. Qed.

Lemma quiet_bind {A B} (m : M A) (k : A -> M B) :
  quiet m -> (forall a, quiet (k a)) -> quiet (bind m k).
Proof.
  intros Hm Hk s out s' H. unfold bind in H.
  destruct (m s) as [[a | e] s1] eqn:Hrun.
  - apply Hm in Hrun as [H1 H2]. apply Hk in H as [H3 H4].
    split; congruence.
  - inversion H; subst. now apply Hm in Hrun.
Qed.

Lemma quiet_modify f :
  (forall s, trace (f s) = trace s) -> quiet (modify f).
Proof.
  intros Hf s out s' H. run. inversion H; subst. now rewrite Hf.
Qed.

Lemma quiet_get : quiet get.
Proof. intros s out s' H. run. now inversion H. Qed.

Lemma quiet_log msg : quiet (_log_violation msg).
Proof. now apply quiet_modify. Qed.

Lemma quiet_read_flag b : quiet (emit (ReadFlag b)).
Proof.
  intros s out s' H. run. inversion H; subst. simpl.
  rewrite search_calls_snoc, post_calls_snoc. simpl.
  now rewrite !app_nil_r.
Qed.

Lemma quiet_callback_outcome r : quiet (callback_outcome r).
Proof.
  destruct r as [heard | | msg | msg]; simpl;
    try destruct (nonempty heard && (0 <? Py.len (Py.strip heard)));
    repeat first [ apply quiet_bind; [| intros ?] | apply quiet_log
                 | apply quiet_ret | now apply quiet_modify ].
Qed.

Lemma quiet_monitor_step a : quiet (monitor_step a).
Proof.
  unfold monitor_step. apply quiet_bind; [apply quiet_get |].
  intros s. destruct a.
  - destruct (callback_active s); [apply quiet_ret |].
    destruct (callback_guard s); [now apply quiet_modify | apply quiet_ret].
  - destruct (callback_active s); [| apply quiet_ret].
    apply quiet_bind; [apply quiet_callback_outcome |].
    intros _. now apply quiet_modify.
Qed.

Lemma quiet_run_monitor acts : quiet (run_monitor acts).
Proof.
  induction acts as [| a acts IH]; simpl.
  - apply quiet_ret.
  - apply quiet_bind; [apply quiet_monitor_step | intros _; exact IH].
Qed.

Lemma quiet_read_interrupt : quiet read_interrupt.
Proof.
  unfold read_interrupt.
  apply quiet_bind; [apply quiet_get |]. intros s.
  apply quiet_bind.
  - destruct (tape s); [apply quiet_ret |].
    apply quiet_bind; [now apply quiet_modify |].
    intros _. apply quiet_run_monitor.
  - intros _. apply quiet_bind; [apply quiet_get |]. intros s1.
    apply quiet_bind; [apply quiet_read_flag |]. intros _. apply quiet_ret.
Qed.

Lemma quiet_wait_loop polls : quiet (wait_loop polls).
Proof.
  induction polls as [| polls IH]; simpl.
  - apply quiet_ret.
  - apply quiet_bind; [apply quiet_read_interrupt |].
    intros b. destruct b; [apply quiet_ret | exact IH].
Qed.

Lemma total_ret {A} (a : A) : total (ret a).
Proof. intros s. now exists a, s. Qed.

Lemma total_bind {A B} (m : M A) (k : A -> M B) :
  total m -> (forall a, total (k a)) -> total (bind m k).
Proof.
  intros Hm Hk s. destruct (Hm s) as (a & s1 & H1).
  destruct (Hk a s1) as (b & s2 & H2).
  exists b, s2. unfold bind. now rewrite H1.
Qed.

Lemma total_modify f : total (modify f).
Proof. intros s. now exists tt, (f s). Qed.

Lemma total_get : total get.
Proof. intros s. now exists s, s. Qed.

Lemma total_callback_outcome r : total (callback_outcome r).
Proof.
  destruct r as [heard | | msg | msg]; simpl;
    try destruct (nonempty heard && (0 <? Py.len (Py.strip heard)));
    repeat first [ apply total_bind; [| intros ?] | apply total_modify
                 | apply total_ret ].
Qed.

Lemma total_monitor_step a : total (monitor_step a).
Proof.
  unfold monitor_step. apply total_bind; [apply total_get |].
  intros s. destruct a.
  - destruct (callback_active s); [apply total_ret |].
    destruct (callback_guard s); [apply total_modify | apply total_ret].
  - destruct (callback_active s); [| apply total_ret].
    apply total_bind; [apply total_callback_outcome |].
    intros _. apply total_modify.
Qed.

Lemma total_run_monitor acts : total (run_monitor acts).
Proof.
  induction acts as [| a acts IH]; simpl.
  - apply total_ret.
  - apply total_bind; [apply total_monitor_step | intros _; exact IH].
Qed.

(** A read returns the value the flag has once the listener has acted. *)
Lemma read_interrupt_returns s :
  exists s', read_interrupt s = (Ret (interrupt_speech s'), s').
Proof.
  unfold read_interrupt. unfold bind at 1. unfold get at 1.
  assert (Hpre : total (match tape s with
                        | [] => ret tt
                        | acts :: rest =>
                            modify (set_tape rest) ;;; run_monitor acts
                        end)).
  { destruct (tape s); [apply total_ret |].
    apply total_bind; [apply total_modify | intros _; apply total_run_monitor]. }
  destruct (Hpre s) as ([] & s1 & H1).
  unfold bind at 1. rewrite H1. run.
  now exists (set_trace (trace s1 ++ [ReadFlag (interrupt_speech s1)]) s1).
Qed.

Lemma signal_by_poll_next k s :
  signal_by_poll (S k) s = signal_by_poll k (snd (read_interrupt s)).
Proof. unfold signal_by_poll. now rewrite Nat.iter_succ_r. Qed.

(** The wait returns [False] as soon as one of its polls reads the flag
    set. *)
Lemma wait_loop_interrupted polls :
  forall s k, (k < polls)%nat -> signal_by_poll k s = true ->
    fst (wait_loop polls s) = Ret false.
Proof.
  induction polls as [| polls IH]; intros s k Hk Hsig; [lia |].
  simpl. unfold bind.
  destruct (read_interrupt_returns s) as [s1 H1].
  destruct k as [| k].
  - unfold signal_by_poll in Hsig. simpl in Hsig.
    rewrite H1 in *. simpl in Hsig. now rewrite Hsig.
  - rewrite signal_by_poll_next in Hsig. rewrite H1 in *. simpl in Hsig.
    destruct (interrupt_speech s1); [reflexivity |].
    apply (IH s1 k); [lia | exact Hsig].
Qed.

Lemma wait_loop_returns polls : total (wait_loop polls).
Proof.
  induction polls as [| polls IH]; simpl.
  - apply total_ret.
  - apply total_bind.
    + intros s. destruct (read_interrupt_returns s) as [s1 H1]. eauto.
    + intros b. destruct b; [apply total_ret | exact IH].
Qed.

Lemma process_input_interrupted cfg GoogleSearch requests_post polls
      user_input s s1 :
  wait_loop polls s = (Ret false, s1) ->
  process_input cfg GoogleSearch requests_post polls user_input s
  = (Ret (Text "Interrupted"),
     set_violations
       (violations s1
        ++ [mkViolation (now s1) "Response generated without silence timeout"])
       s1).
Proof.
  intros H. unfold process_input, _wait_for_silence, bind. now rewrite H.
Qed.

(** C5: when the interruption signal arrives during the silence wait
    (one of its polls reads the flag set), [process_input] returns the
    sentinel "Interrupted" and logs the violation for it, and calls
    neither the search collaborator nor the completion collaborator. *)
Theorem interrupted_wait_aborts_turn :
  forall cfg GoogleSearch requests_post polls user_input s k,
    (k < polls)%nat ->
    signal_by_poll k s = true ->
    let waited := snd (_wait_for_silence polls s) in
    let result := process_input cfg GoogleSearch requests_post polls user_input s in
    fst result = Ret "Interrupted"
    /\ violations (snd result)
       = violations waited
         ++ [mkViolation (now waited) "Response generated without silence timeout"]
    /\ search_calls (trace (snd result)) = search_calls (trace s)
    /\ post_calls (trace (snd result)) = post_calls (trace s).
Proof.
  intros cfg GoogleSearch requests_post polls user_input s k Hk Hsig.
  pose proof (wait_loop_interrupted polls s k Hk Hsig) as Hwait.
  unfold _wait_for_silence.
  destruct (wait_loop polls s) as [out s1] eqn:Hrun. simpl in Hwait.
  subst out. rewrite (process_input_interrupted _ _ _ _ _ _ _ Hrun).
  apply quiet_wait_loop in Hrun as [H1 H2]. simpl. auto.
Qed.

Lemma interrupted_wait_aborts_turn_witness :
  let s := set_tape [[]; [CallbackEnters; CallbackFinishes UnknownValue]]
             (set_speaking true st0) in
  signal_by_poll 1 s = true
  /\ fst (process_input cfg10 (Some (fun _ => SearchDict answer_and_pages))
            busy_then_ok 20 "The moon landing was in 1969." s)
     = Ret "Interrupted".
Proof.
  split; [reflexivity |].
  apply (interrupted_wait_aborts_turn cfg10 _ busy_then_ok 20 _ _ 1);
    [lia | reflexivity].
Defined.

Lemma str_prefix_length n s : (String.length (Py.str_prefix n s) <= n)%nat.
Proof.
  unfold Py.str_prefix. revert n.
  induction s as [| c s IH]; intros [| n]; simpl; try lia.
  specialize (IH n). lia.
Qed.

Lemma list_index_pure {A} (l : list A) i s out s' :
  list_index l i s = (out, s') -> s' = s.
Proof.
  unfold list_index.
  destruct (_ <? 0); [run; now inversion 1 |].
  destruct (l !! _); run; now inversion 1.
Qed.

Lemma str_last_pure w s out s' : str_last w s = (out, s') -> s' = s.
Proof. unfold str_last. destruct (Py.last_char w); run; now inversion 1. Qed.

Lemma scan_boundary_pure words idx s out s' :
  scan_boundary words idx s = (out, s') -> s' = s.
Proof.
  revert s. induction idx as [| i idx IH]; intros s; simpl.
  - run. now inversion 1.
  - unfold bind.
    destruct (list_index words i s) as [[w | e] s1] eqn:H1;
      apply list_index_pure in H1; subst s1; [| now inversion 1].
    destruct (str_last w s) as [[c | e] s1] eqn:H2;
      apply str_last_pure in H2; subst s1; [| now inversion 1].
    destruct (terminal c); [run; now inversion 1 | apply IH].
Qed.

(** The shaper changes nothing but the violation log. *)
Lemma shape_trace cfg response user_input s out s' :
  _limit_response_length cfg response user_input s = (out, s') ->
  trace s' = trace s.
Proof.
  unfold _limit_response_length.
  destruct (Py.contains _ _); [run; now inversion 1 |].
  destruct (_ <? _); [| run; now inversion 1].
  unfold bind at 1.
  destruct (scan_boundary _ _ s) as [[found | e] s1] eqn:H1;
    apply scan_boundary_pure in H1; subst s1; [| now inversion 1].
  unfold bind at 1.
  destruct (_ <? _).
  - unfold bind at 1.
    destruct (str_last _ s) as [[c | e] s1] eqn:H2;
      apply str_last_pure in H2; subst s1; [| now inversion 1].
    destruct (negb (terminal c)); run; now inversion 1.
  - run. now inversion 1.
Qed.

Lemma limit_reply_trace cfg response user_input s out s' :
  limit_reply cfg response user_input s = (out, s') ->
  trace s' = trace s.
Proof.
  destruct response as [response | truthy]; simpl.
  - unfold bind.
    destruct (_limit_response_length cfg response user_input s)
      as [[shaped | e] s1] eqn:Hshape;
      apply shape_trace in Hshape; run; inversion 1; now subst.
  - destruct (Py.contains _ _); run; now inversion 1.
Qed.

(** With the search collaborator available, [_search_web] calls it once,
    with the query it was given, and returns. *)
Lemma search_web_one_call search query s :
  exists context s',
    _search_web (Some search) query s = (Ret context, s')
    /\ search_calls (trace s') = search_calls (trace s) ++ [query]
    /\ post_calls (trace s') = post_calls (trace s).
Proof.
  unfold _search_web. run.
  destruct (search query) as [results | msg]; simpl;
    eexists _, _; (split; [reflexivity |]); simpl;
    rewrite search_calls_snoc, post_calls_snoc; simpl;
    now rewrite app_nil_r.
Qed.

Lemma process_input_silent cfg GoogleSearch requests_post polls user_input s s1 :
  wait_loop polls s = (Ret true, s1) ->
  process_input cfg GoogleSearch requests_post polls user_input s
  = (search_context <- _search_web GoogleSearch (search_query_for user_input) ;;
     response <- _query_grok cfg requests_post user_input search_context ;;
     limit_reply cfg response user_input) s1.
Proof.
  intros H. unfold process_input, _wait_for_silence, search_query_for.
  unfold bind at 1. rewrite H. simpl.
  now destruct (_extract_factual_claims user_input).
Qed.

(** C6: in every turn that passes the silence gate with the search
    collaborator available, exactly one web-search call is made; its
    query is the first extracted claim cut to 150 characters when there
    is a claim, otherwise the raw input cut to 150 characters, and it is
    never longer than 150 characters. *)
Theorem one_search_per_turn :
  forall cfg search requests_post polls user_input s,
    fst (_wait_for_silence polls s) = Ret true ->
    let s' := snd (process_input cfg (Some search) requests_post polls
                     user_input s) in
    let query :=
      match _extract_factual_claims user_input with
      | first_claim :: _ => Py.str_prefix 150 first_claim
      | [] => Py.str_prefix 150 user_input
      end in
    search_calls (trace s') = search_calls (trace s) ++ [query]
    /\ (String.length query <= 150)%nat.
Proof.
  intros cfg search requests_post polls user_input s Hgate s' query.
  split; [| unfold query; destruct (_extract_factual_claims user_input);
            apply str_prefix_length].
  unfold _wait_for_silence in Hgate. subst s'.
  destruct (wait_loop polls s) as [out s1] eqn:Hwait. simpl in Hgate.
  subst out. rewrite (process_input_silent _ _ _ _ _ _ _ Hwait).
  apply quiet_wait_loop in Hwait as [Hw _]. rewrite <- Hw.
  fold (search_query_for user_input) in query. subst query.
  destruct (search_web_one_call search (search_query_for user_input) s1)
    as (context & s2 & Hsearch & Hs & _).
  unfold bind at 1. rewrite Hsearch. rewrite <- Hs.
  unfold bind.
  destruct (_query_grok cfg requests_post user_input context s2)
    as [[response | e] s3] eqn:Hq;
    apply query_grok_trace in Hq as [_ Hq]; rewrite <- Hq; [| reflexivity].
  destruct (limit_reply cfg response user_input s3) as [out s4] eqn:Hshape.
  apply limit_reply_trace in Hshape. simpl. now rewrite Hshape.
Qed.

Lemma one_search_per_turn_witness :
  fst (_wait_for_silence 20 st0) = Ret true
  /\ search_calls
       (trace (snd (process_input cfg10
                      (Some (fun _ => SearchDict answer_and_pages))
                      busy_then_ok 20 "The moon landing was in 1969." st0)))
     = ["The moon landing was in 1969"].
Proof.
  split; [reflexivity |].
  apply (one_search_per_turn cfg10 (fun _ => SearchDict answer_and_pages)
           busy_then_ok 20 "The moon landing was in 1969." st0).
  reflexivity.
Defined.

(** ** Splitting and joining *)

Lemma append_cons c s t : String c s +:+ t = String c (s +:+ t).
Proof. reflexivity. Qed.

Lemma append_nil_l t : "" +:+ t = t.
Proof. reflexivity. Qed.

Lemma append_nil_r s : s +:+ "" = s.
Proof. induction s as [| c s IH]; [reflexivity |]. now rewrite append_cons, IH. Qed.

Lemma append_assoc s t u : (s +:+ t) +:+ u = s +:+ (t +:+ u).
Proof.
  induction s as [| c s IH]; [reflexivity |].
  now rewrite !append_cons, IH.
Qed.

Lemma append_empty s t : s +:+ t = "" -> s = "" /\ t = "".
Proof. destruct s; [auto | discriminate]. Qed.

Lemma spacefree_append s t :
  spacefree (s +:+ t) = spacefree s && spacefree t.
Proof.
  induction s as [| c s IH]; [reflexivity |].
  rewrite append_cons. simpl. rewrite IH. now rewrite andb_assoc.
Qed.

Lemma split_go_words s :
  forall cur, spacefree cur = true -> Forall is_word (Py.split_go cur s).
Proof.
  induction s as [| c s IH]; intros cur Hcur; simpl.
  - destruct (String.eqb_spec cur ""); [constructor |].
    repeat constructor; assumption.
  - destruct (Py.isspace c) eqn:Hc.
    + destruct (String.eqb_spec cur "").
      * now apply IH.
      * constructor; [now split | now apply IH].
    + apply IH. rewrite spacefree_append, Hcur. simpl. now rewrite Hc.
Qed.

Lemma split_words s : Forall is_word (Py.split s).
Proof. now apply split_go_words. Qed.

Lemma split_go_word w :
  spacefree w = true ->
  forall cur rest, Py.split_go cur (w +:+ rest) = Py.split_go (cur +:+ w) rest.
Proof.
  induction w as [| c w IH]; intros Hw cur rest.
  - now rewrite append_nil_l, append_nil_r.
  - simpl in Hw. apply andb_true_iff in Hw as [Hc Hw].
    rewrite append_cons. simpl.
    apply negb_true_iff in Hc. rewrite Hc.
    rewrite (IH Hw). now rewrite append_assoc.
Qed.

(** Splitting the join of words gives the words back. *)
Lemma split_join ws : Forall is_word ws -> Py.split (Py.join " " ws) = ws.
Proof.
  unfold Py.split. induction 1 as [| w ws [Hw Hne] Hws IH]; [reflexivity |].
  destruct ws as [| w' ws].
  - simpl. rewrite <- (append_nil_r w) at 1.
    rewrite (split_go_word w Hw). simpl. rewrite append_nil_l.
    now destruct (String.eqb_spec w "").
  - change (Py.join " " (w :: w' :: ws))
      with (w +:+ " " +:+ Py.join " " (w' :: ws)).
    rewrite (split_go_word w Hw). rewrite append_nil_l.
    rewrite append_cons, append_nil_l.
    change (Py.split_go w (String " " (Py.join " " (w' :: ws))))
      with (if String.eqb w "" then Py.split_go "" (Py.join " " (w' :: ws))
            else w :: Py.split_go "" (Py.join " " (w' :: ws))).
    destruct (String.eqb_spec w ""); [contradiction |].
    now rewrite IH.
Qed.

Lemma last_char_word w : w <> "" -> exists c, Py.last_char w = Some c.
Proof.
  induction w as [| c w IH]; [contradiction |]. intros _.
  destruct w as [| c' w]; [now exists c |].
  destruct IH as [d Hd]; [discriminate |]. exists d. exact Hd.
Qed.

(** ** The shaper on replies that are too long *)

Lemma in_range_down start stop i :
  In i (Py.range_down start stop) -> stop < i <= start.
Proof.
  unfold Py.range_down. rewrite in_map_iff.
  intros (k & <- & Hk). apply in_seq in Hk. lia.
Qed.

Lemma list_index_in_range {A} (l : list A) i s :
  0 <= i < Z.of_nat (length l) ->
  exists x, l !! Z.to_nat i = Some x /\ list_index l i s = (Ret x, s).
Proof.
  intros Hi. unfold list_index.
  destruct (Z.leb_spec 0 i); [| lia].
  destruct (Z.ltb_spec i 0); [lia |].
  destruct (lookup_lt_is_Some_2 l (Z.to_nat i)) as [x Hx]; [lia |].
  exists x. now rewrite Hx.
Qed.

(** The backward scan over indices inside the list of words never
    raises; when it finds something, it is the join of the words up to
    one that ends a sentence. *)
Lemma scan_boundary_spec words idx s :
  Forall is_word words ->
  (forall i, In i idx -> 0 <= i < Z.of_nat (length words)) ->
  exists found,
    scan_boundary words idx s = (Ret found, s)
    /\ (found = None
        \/ exists i w c,
             In i idx /\ words !! Z.to_nat i = Some w
             /\ Py.last_char w = Some c /\ terminal c = true
             /\ found = Some (Py.join " " (Py.slice_to (i + 1) words))).
Proof.
  intros Hwords. induction idx as [| i idx IH]; intros Hidx.
  - exists None. split; [reflexivity | now left].
  - simpl. unfold bind.
    destruct (list_index_in_range words i s) as (w & Hw & ->);
      [apply Hidx; now left |].
    assert (Hword : is_word w).
    { eapply Forall_lookup_1; eassumption. }
    destruct (last_char_word w (proj2 Hword)) as [c Hc].
    unfold str_last. rewrite Hc. run.
    destruct (terminal c) eqn:Hterm.
    + eexists. split; [reflexivity |]. right. exists i, w, c.
      repeat split; auto.
    + destruct IH as (found & Hrun & Hfound).
      { intros j Hj. apply Hidx. now right. }
      exists found. split; [exact Hrun |].
      destruct Hfound as [-> | (j & w' & c' & Hj & H)]; [now left |].
      right. exists j, w', c'. split; [now right | exact H].
Qed.

(** What the shaper does to a reply of more than [max_response_words]
    words when the input lacks the keyword and the limit is not
    negative: it returns the first [k] words joined by single spaces,
    where [k] is the limit or fewer (and then word [k] ends a sentence),
    and logs one violation with the two word counts.  It never raises
    and it never appends anything to the chosen truncation. *)
Lemma shape_truncates cfg response user_input s :
  let words := Py.split response in
  let m := max_response_words cfg in
  Py.contains (explain_keyword cfg) (Py.lower user_input) = false ->
  0 <= m < Z.of_nat (length words) ->
  exists k : nat,
    (k <= Z.to_nat m)%nat
    /\ (k = Z.to_nat m
        \/ exists w c, words !! (k - 1)%nat = Some w
                       /\ Py.last_char w = Some c /\ terminal c = true)
    /\ _limit_response_length cfg response user_input s
       = (Ret (Py.join " " (take k words)),
          set_violations
            (violations s
             ++ [mkViolation (now s)
                   (truncation_message (Z.of_nat (length words)) (Z.of_nat k))])
            s).
Proof.
  intros words m Hkw Hm.
  pose proof (split_words response) as Hwords. fold words in Hwords.
  unfold _limit_response_length. rewrite Hkw. fold words. fold m.
  destruct (Z.ltb_spec m (Z.of_nat (length words))); [| lia].
  destruct (scan_boundary_spec words
              (Py.range_down (Z.min m (Z.of_nat (length words)) - 1)
                             (Z.max 0 (m - 5))) s Hwords)
    as (found & Hscan & Hfound).
  { intros i Hi. apply in_range_down in Hi. lia. }
  unfold bind at 1. rewrite Hscan.
  assert (Hk : exists k : nat,
             (k <= Z.to_nat m)%nat
             /\ (k = Z.to_nat m
                 \/ exists w c, words !! (k - 1)%nat = Some w
                                /\ Py.last_char w = Some c /\ terminal c = true)
             /\ default (Py.join " " (Py.slice_to m words)) found
                = Py.join " " (take k words)).
  { destruct Hfound as [-> | (i & w & c & Hi & Hw & Hc & Hterm & ->)].
    - exists (Z.to_nat m). repeat split; [lia | now left |].
      simpl. unfold Py.slice_to.
      destruct (Z.leb_spec 0 m); [reflexivity | lia].
    - apply in_range_down in Hi.
      exists (Z.to_nat (i + 1)). repeat split; [lia | |].
      + right. exists w, c. repeat split; auto.
        replace (Z.to_nat (i + 1) - 1)%nat with (Z.to_nat i) by lia.
        exact Hw.
      + simpl. unfold Py.slice_to.
        destruct (Z.leb_spec 0 (i + 1)); [reflexivity | lia]. }
  destruct Hk as (k & Hkm & Hend & ->).
  exists k. repeat split; [exact Hkm | exact Hend |].
  rewrite split_join by (now apply Forall_take).
  rewrite length_take.
  destruct (Z.ltb_spec m (Z.of_nat (k `min` length words))); [lia |].
  run. rewrite split_join by (now apply Forall_take).
  rewrite length_take.
  replace (k `min` length words)%nat with k by lia.
  reflexivity.
Qed.

Example shape_truncates_example :
  _limit_response_length cfg10 "It rains. Then it stops and the sun comes out again today"
    "weather" st0
  = (Ret "It rains. Then it stops and the sun comes out",
     set_violations
       [mkViolation 0 "Response truncated: 12 words -> 10 words"] st0).
Proof. reflexivity. Qed.

(** ** Failures of the completion call *)

Lemma total_log msg : total (_log_violation msg).
Proof. apply total_modify. Qed.

(** [_query_grok] returns from every state, whatever the collaborator
    does: every exception of the loop is caught. *)
Lemma query_grok_returns cfg requests_post user_input context :
  total (_query_grok cfg requests_post user_input context).
Proof.
  intros s. unfold _query_grok.
  destruct (negb (nonempty (grok_api_key cfg)) || _ || _).
  - run. eauto.
  - unfold try_except, query_body. unfold bind at 1.
    destruct (try_models requests_post (system_content context) user_input
                model_names None s) as [[ending | e] s1].
    + destruct ending as [content | [r |]]; run; eauto.
      destruct (response_truthy r); eauto.
    + destruct e; run; eauto.
Qed.

(** The violations one call of [_query_grok] records, by the way the
    loop ends: one for a raised exception; for a failure response, one
    if the response object is truthy and none if it is not. *)
Lemma query_grok_log cfg requests_post user_input context s :
  api_key_configured cfg = true ->
  let s' := snd (_query_grok cfg requests_post user_input context s) in
  match try_models requests_post (system_content context) user_input
          model_names None s with
  | (Ret (Returned _), _) => violations s' = violations s
  | (Ret (Fell (Some r)), _) =>
      if response_truthy r
      then exists v, violations s' = violations s ++ [v]
      else violations s' = violations s
  | (Ret (Fell None), _) => violations s' = violations s
  | (Raise _, _) => exists v, violations s' = violations s ++ [v]
  end.
Proof.
  intros Hkey. cbv zeta. unfold api_key_configured in Hkey.
  apply negb_true_iff in Hkey.
  destruct (try_models requests_post (system_content context) user_input
              model_names None s) as [[ending | e] s1] eqn:Hrun;
    unfold _query_grok; rewrite Hkey; cbv beta iota;
    unfold try_except, query_body, bind; rewrite Hrun;
    apply try_models_trace in Hrun as (_ & _ & Hv).
  - destruct ending as [content | [r |]]; [exact Hv | | exact Hv].
    destruct (response_truthy r); [| exact Hv].
    eexists. unfold _log_violation, modify, ret. simpl. now rewrite Hv.
  - destruct e; eexists;
      unfold query_handler, bind, _log_violation, modify, ret;
      simpl; now rewrite Hv.
Qed.

Lemma shape_returns cfg response user_input :
  0 <= max_response_words cfg ->
  total (_limit_response_length cfg response user_input).
Proof.
  intros Hmax s.
  destruct (Py.contains (explain_keyword cfg) (Py.lower user_input)) eqn:Hkw.
  - unfold _limit_response_length. rewrite Hkw. run. eauto.
  - destruct (Z.ltb_spec (max_response_words cfg)
                (Z.of_nat (length (Py.split response)))) as [Hlt | Hge].
    + destruct (shape_truncates cfg response user_input s Hkw) as (k & _ & _ & ->);
        eauto.
    + unfold _limit_response_length. rewrite Hkw.
      destruct (Z.ltb_spec (max_response_words cfg)
                  (Z.of_nat (length (Py.split response)))); [lia |].
      run. eauto.
Qed.

Lemma search_web_returns GoogleSearch query : total (_search_web GoogleSearch query).
Proof.
  intros s. unfold _search_web. destruct GoogleSearch as [search |]; run.
  - destruct (search query); simpl; eauto.
  - eauto.
Qed.

(** C9 (the code departs from it): every model answers 401.  The object
    [last_response] is then false in [if last_response:], so the block
    that logs "Grok API error: 401" and words the authorization error is
    skipped: the turn returns the no-response text and records no
    violation at all for the failed completion. *)
Theorem unauthorized_turn_logs_nothing :
  let result :=
    process_input cfg10 (Some (fun _ => SearchDict answer_and_pages))
                  always_unauthorized 20 "hello" st0 in
  response_truthy (error_response 401 "unauthorized") = false
  /\ post_calls (trace (snd result)) = model_names
  /\ fst result = Ret "Error: Could not get response from Grok (no response received)"
  /\ violations (snd result) = violations st0.
Proof. repeat split; reflexivity. Qed.

(** A completion that times out: the client records its one violation,
    and the shaper, which is applied to the error text as to any reply,
    records a second one for cutting it. *)
Example timeout_turn :
  let result :=
    process_input cfg10 (Some (fun _ => SearchDict answer_and_pages))
                  (fun _ => PostRaises (Timeout "read timed out")) 20 "hello" st0 in
  fst result = Ret "Error: Grok API request timed out. The service may be"
  /\ map message (violations (snd result))
     = ["Grok API timeout: read timed out";
        "Response truncated: 13 words -> 10 words"].
Proof. split; reflexivity. Qed.

(** ** Speech Interruption Monitor *)

(** What one action of the listener thread can change: it returns, it
    leaves the trace, the tape and [speaking] alone, and it never clears
    the flag. *)
Lemma callback_outcome_frame r s :
  exists s',
    callback_outcome r s = (Ret tt, s')
    /\ trace s' = trace s /\ tape s' = tape s /\ speaking s' = speaking s
    /\ callback_active s' = callback_active s
    /\ (interrupt_speech s = true -> interrupt_speech s' = true).
Proof.
  destruct r as [heard | | msg | msg]; simpl;
    try destruct (nonempty heard && (0 <? Py.len (Py.strip heard)));
    run; eexists; (split; [reflexivity |]); simpl; auto.
Qed.

Lemma monitor_step_frame a s :
  exists s',
    monitor_step a s = (Ret tt, s')
    /\ trace s' = trace s /\ tape s' = tape s /\ speaking s' = speaking s
    /\ (interrupt_speech s = true -> interrupt_speech s' = true).
Proof.
  unfold monitor_step, bind, get. destruct a as [| r].
  - destruct (callback_active s); [run; eauto 6 |].
    destruct (callback_guard s); run; eauto 6.
  - destruct (callback_active s); [| run; eauto 6].
    destruct (callback_outcome_frame r s) as (s1 & -> & H1 & H2 & H3 & _ & H4).
    run. eexists; (split; [reflexivity |]); simpl; auto.
Qed.

Lemma run_monitor_frame acts s :
  exists s',
    run_monitor acts s = (Ret tt, s')
    /\ trace s' = trace s /\ tape s' = tape s /\ speaking s' = speaking s
    /\ (interrupt_speech s = true -> interrupt_speech s' = true).
Proof.
  revert s. induction acts as [| a acts IH]; intros s; simpl.
  - run. eauto 6.
  - unfold bind.
    destruct (monitor_step_frame a s) as (s1 & -> & H1 & H2 & H3 & H4).
    destruct (IH s1) as (s2 & -> & H5 & H6 & H7 & H8).
    exists s2. repeat split; try congruence. auto.
Qed.

(** The guard of the callback: run without interference, it sets the
    flag only out of a state in which the object is speaking. *)
Lemma callback_sets_flag_only_while_speaking r s :
  interrupt_speech s = false ->
  interrupt_speech (snd (_interruption_callback r s)) = true ->
  speaking s = true.
Proof.
  unfold _interruption_callback, bind, get, callback_guard.
  destruct (speaking s); [reflexivity |]. simpl. congruence.
Qed.

Lemma session_step_speaking a s :
  a <> PlayerFinishes -> speaking (session_step a s) = speaking s.
Proof.
  destruct a as [a |]; [intros _ | contradiction]. simpl.
  destruct (monitor_step_frame a s) as (s1 & -> & _ & _ & H & _). exact H.
Qed.

Lemma session_step_keeps_flag a s :
  interrupt_speech s = true -> interrupt_speech (session_step a s) = true.
Proof.
  destruct a as [a |]; simpl; [| auto].
  destruct (monitor_step_frame a s) as (s1 & -> & _ & _ & _ & H). exact H.
Qed.

Lemma session_states_head s acts :
  exists rest, session_states s acts = s :: rest.
Proof. destruct acts; simpl; eauto. Qed.

Lemma falls_zero acts : forall s, falls (session_states s acts) = 0%nat.
Proof.
  induction acts as [| a acts IH]; intros s; [reflexivity |].
  specialize (IH (session_step a s)).
  change (session_states s (a :: acts))
    with (s :: session_states (session_step a s) acts).
  destruct (session_states_head (session_step a s) acts) as [rest Hrest].
  rewrite Hrest in *. simpl in *. rewrite IH.
  destruct (interrupt_speech s) eqn:Hs; [| reflexivity].
  now rewrite (session_step_keeps_flag a s Hs).
Qed.

Lemma rises_zero_once_set acts :
  forall s, interrupt_speech s = true -> rises (session_states s acts) = 0%nat.
Proof.
  induction acts as [| a acts IH]; intros s Hs; [reflexivity |].
  pose proof (session_step_keeps_flag a s Hs) as Hs'.
  specialize (IH (session_step a s) Hs').
  change (session_states s (a :: acts))
    with (s :: session_states (session_step a s) acts).
  destruct (session_states_head (session_step a s) acts) as [rest Hrest].
  rewrite Hrest in *. simpl in *. rewrite IH, Hs. reflexivity.
Qed.

Lemma rises_at_most_once acts :
  forall s, (rises (session_states s acts) <= 1)%nat.
Proof.
  induction acts as [| a acts IH]; intros s; [simpl; lia |].
  specialize (IH (session_step a s)).
  pose proof (rises_zero_once_set acts (session_step a s)) as Hset.
  change (session_states s (a :: acts))
    with (s :: session_states (session_step a s) acts).
  destruct (session_states_head (session_step a s) acts) as [rest Hrest].
  rewrite Hrest in *. simpl in *.
  destruct (interrupt_speech s); simpl; [lia |].
  destruct (interrupt_speech (session_step a s)); [| lia].
  rewrite Hset; [lia | reflexivity].
Qed.

Lemma rises_in_session acts :
  forall s, speaking s = true ->
    rises_while_speaking (session_states s (until_finish acts)) = true.
Proof.
  induction acts as [| a acts IH]; intros s Hs; [reflexivity |].
  destruct a as [a |].
  - assert (Hs' : speaking (session_step (Listener a) s) = true).
    { rewrite session_step_speaking; [exact Hs | discriminate]. }
    specialize (IH _ Hs').
    change (until_finish (Listener a :: acts))
      with (Listener a :: until_finish acts).
    change (session_states s (Listener a :: until_finish acts))
      with (s :: session_states (session_step (Listener a) s) (until_finish acts)).
    destruct (session_states_head (session_step (Listener a) s) (until_finish acts))
      as [rest Hrest].
    rewrite Hrest in *. simpl in *. rewrite IH, Hs.
    now destruct (negb (interrupt_speech s) && _).
  - simpl. now destruct (interrupt_speech s).
Qed.

(** C3: within one speech session, from the two assignments that open
    [_speak_text] to the write [speaking = False], and whatever the
    listener thread does meanwhile, the flag [interrupt_speech] never
    goes from true to false, goes from false to true at most once, and
    does so only out of a state in which [speaking] is true. *)
Theorem interrupt_flag_in_session :
  forall (s : State) (acts : list SessionAction),
    let start := snd (speak_start s) in
    let states := session_states start (until_finish acts) in
    speaking start = true
    /\ interrupt_speech start = false
    /\ falls states = 0%nat
    /\ (rises states <= 1)%nat
    /\ rises_while_speaking states = true.
Proof.
  intros s acts start states.
  repeat split; try reflexivity.
  - apply falls_zero.
  - apply rises_at_most_once.
  - now apply rises_in_session.
Qed.

(** A run in which the flag does rise, once, during the session. *)
Example session_with_interruption :
  let acts := [Listener CallbackEnters; Listener (CallbackFinishes UnknownValue);
               Listener CallbackEnters; Listener (CallbackFinishes (Heard "stop"));
               PlayerFinishes; Listener CallbackEnters] in
  map interrupt_speech (session_states (snd (speak_start st0)) (until_finish acts))
  = [false; false; true; true; true; true].
Proof. reflexivity. Qed.

(** Outside the session the guard does not protect the flag: a callback
    that passed its guard while the object was speaking and hears from
    the recognition service only after the speech thread has finished
    sets the flag while [speaking] is false. *)
Example late_callback_after_session :
  let acts := [Listener CallbackEnters; PlayerFinishes;
               Listener (CallbackFinishes UnknownValue)] in
  map (fun x => (speaking x, interrupt_speech x))
      (session_states (snd (speak_start st0)) acts)
  = [(true, false); (true, false); (false, false); (false, true)].
Proof. reflexivity. Qed.

(** ** Speech Player *)

Lemma stops_app d1 d2 :
  stops_when_interrupted d1 = true ->
  stops_when_interrupted d2 = true ->
  (has_true_read d1 = true -> no_output d2 = true) ->
  stops_when_interrupted (d1 ++ d2) = true.
Proof.
  induction d1 as [| e d1 IH]; simpl; intros H1 H2 H3; [exact H2 |].
  destruct (is_true_read e); simpl in *.
  - unfold no_output in *. rewrite forallb_app, H1. simpl. now apply H3.
  - now apply IH.
Qed.

Lemma no_output_stops d : no_output d = true -> stops_when_interrupted d = true.
Proof.
  induction d as [| e d IH]; simpl; [reflexivity |].
  intros H. apply andb_true_iff in H as [_ H].
  destruct (is_true_read e); [exact H | now apply IH].
Qed.

Lemma has_true_read_app d1 d2 :
  has_true_read (d1 ++ d2) = has_true_read d1 || has_true_read d2.
Proof. apply existsb_app. Qed.

Lemma no_output_app d1 d2 :
  no_output (d1 ++ d2) = no_output d1 && no_output d2.
Proof. apply forallb_app. Qed.

Lemma no_read_stops d : has_true_read d = false -> stops_when_interrupted d = true.
Proof.
  induction d as [| e d IH]; simpl; [reflexivity |].
  intros H. apply orb_false_iff in H as [He H]. rewrite He. now apply IH.
Qed.

Section Sequencing.
Context {A B : Type}.

Lemma after_bind (m : M A) (k : A -> M B) :
  after_interrupt m -> (forall a, after_interrupt (k a)) ->
  after_interrupt (bind m k).
Proof.
  intros Hm Hk s out s' Hs H. unfold bind in H.
  destruct (m s) as [[a | e] s1] eqn:Hrun;
    destruct (Hm _ _ _ Hs Hrun) as (d1 & Ht1 & Hc1 & Hf1).
  - destruct (Hk a _ _ _ Hf1 H) as (d2 & Ht2 & Hc2 & Hf2).
    exists (d1 ++ d2). rewrite Ht2, Ht1, no_output_app, Hc1, Hc2.
    now rewrite app_assoc.
  - inversion H; subst. eauto.
Qed.

Lemma before_bind (m : M A) (k : A -> M B) :
  before_interrupt m ->
  (forall a, before_interrupt (k a)) -> (forall a, after_interrupt (k a)) ->
  before_interrupt (bind m k).
Proof.
  intros Hm Hk Hk' s out s' Hs H. unfold bind in H.
  destruct (m s) as [[a | e] s1] eqn:Hrun;
    destruct (Hm _ _ _ Hs Hrun) as (d1 & Ht1 & Hc1 & Hf1).
  - destruct (has_true_read d1) eqn:Hr1.
    + destruct (Hk' a _ _ _ Hf1 H) as (d2 & Ht2 & Hc2 & Hf2).
      exists (d1 ++ d2). rewrite Ht2, Ht1, has_true_read_app, Hr1, Hf2.
      repeat split; [now rewrite app_assoc |].
      apply stops_app; [assumption | now apply no_output_stops | auto].
    + destruct (Hk a _ _ _ Hf1 H) as (d2 & Ht2 & Hc2 & Hf2).
      exists (d1 ++ d2). rewrite Ht2, Ht1, has_true_read_app, Hr1, Hf2.
      repeat split; [now rewrite app_assoc |].
      apply stops_app; [assumption | assumption | intros; congruence].
  - inversion H; subst. eauto.
Qed.

Lemma before_bind_readless (m : M A) (k : A -> M B) :
  readless m -> (forall a, before_interrupt (k a)) ->
  before_interrupt (bind m k).
Proof.
  intros Hm Hk s out s' Hs H. unfold bind in H.
  destruct (m s) as [[a | e] s1] eqn:Hrun;
    destruct (Hm _ _ _ Hrun) as (d1 & Ht1 & Hr1 & Hf1).
  - rewrite Hs in Hf1.
    destruct (Hk a _ _ _ Hf1 H) as (d2 & Ht2 & Hc2 & Hf2).
    exists (d1 ++ d2). rewrite Ht2, Ht1, has_true_read_app, Hr1, Hf2.
    repeat split; [now rewrite app_assoc |].
    apply stops_app; [now apply no_read_stops | assumption | intros; congruence].
  - inversion H; subst. exists d1. rewrite Hr1, Hf1.
    auto using no_read_stops.
Qed.
End Sequencing.

Lemma after_try {A} (m : M A) (h : Exn -> M A) :
  after_interrupt m -> (forall e, after_interrupt (h e)) ->
  after_interrupt (try_except m h).
Proof.
  intros Hm Hh s out s' Hs H. unfold try_except in H.
  destruct (m s) as [[a | e] s1] eqn:Hrun;
    destruct (Hm _ _ _ Hs Hrun) as (d1 & Ht1 & Hc1 & Hf1).
  - inversion H; subst. eauto.
  - destruct (Hh e _ _ _ Hf1 H) as (d2 & Ht2 & Hc2 & Hf2).
    exists (d1 ++ d2). rewrite Ht2, Ht1, no_output_app, Hc1, Hc2.
    now rewrite app_assoc.
Qed.

Lemma before_try {A} (m : M A) (h : Exn -> M A) :
  before_interrupt m ->
  (forall e, before_interrupt (h e)) -> (forall e, after_interrupt (h e)) ->
  before_interrupt (try_except m h).
Proof.
  intros Hm Hh Hh' s out s' Hs H. unfold try_except in H.
  destruct (m s) as [[a | e] s1] eqn:Hrun;
    destruct (Hm _ _ _ Hs Hrun) as (d1 & Ht1 & Hc1 & Hf1).
  - inversion H; subst. eauto.
  - destruct (has_true_read d1) eqn:Hr1.
    + destruct (Hh' e _ _ _ Hf1 H) as (d2 & Ht2 & Hc2 & Hf2).
      exists (d1 ++ d2). rewrite Ht2, Ht1, has_true_read_app, Hr1, Hf2.
      repeat split; [now rewrite app_assoc |].
      apply stops_app; [assumption | now apply no_output_stops | auto].
    + destruct (Hh e _ _ _ Hf1 H) as (d2 & Ht2 & Hc2 & Hf2).
      exists (d1 ++ d2). rewrite Ht2, Ht1, has_true_read_app, Hr1, Hf2.
      repeat split; [now rewrite app_assoc |].
      apply stops_app; [assumption | assumption | intros; congruence].
Qed.

Lemma inert_after {A} (m : M A) : inert m -> after_interrupt m.
Proof.
  intros Hm s out s' Hs H. destruct (Hm _ _ _ H) as (d & Ht & Hc & _ & Hf).
  exists d. rewrite Hf. auto.
Qed.

Lemma inert_before {A} (m : M A) : inert m -> before_interrupt m.
Proof.
  intros Hm s out s' Hs H. destruct (Hm _ _ _ H) as (d & Ht & _ & Hr & Hf).
  exists d. rewrite Hf, Hr. auto using no_read_stops.
Qed.

Lemma inert_readless {A} (m : M A) : inert m -> readless m.
Proof.
  intros Hm s out s' H. destruct (Hm _ _ _ H) as (d & Ht & _ & Hr & Hf).
  eauto.
Qed.

Lemma inert_ret {A} (a : A) : inert (ret a).
Proof.
  intros s out s' H. run. inversion H; subst. exists [].
  now rewrite app_nil_r.
Qed.

Lemma inert_raise {A} e : inert (@raise A e).
Proof.
  intros s out s' H. run. inversion H; subst. exists [].
  now rewrite app_nil_r.
Qed.

Lemma inert_get : inert get.
Proof.
  intros s out s' H. run. inversion H; subst. exists [].
  now rewrite app_nil_r.
Qed.

Lemma inert_modify f :
  (forall s, trace (f s) = trace s) ->
  (forall s, interrupt_speech (f s) = interrupt_speech s) ->
  inert (modify f).
Proof.
  intros Ht Hf s out s' H. run. inversion H; subst. exists [].
  now rewrite app_nil_r, Ht, Hf.
Qed.

Lemma inert_emit e :
  is_output e = false -> is_true_read e = false -> inert (emit e).
Proof.
  intros Ho Hr s out s' H. run. inversion H; subst. exists [e]. simpl.
  now rewrite Ho, Hr.
Qed.

Lemma inert_bind {A B} (m : M A) (k : A -> M B) :
  inert m -> (forall a, inert (k a)) -> inert (bind m k).
Proof.
  intros Hm Hk s out s' H. unfold bind in H.
  destruct (m s) as [[a | e] s1] eqn:Hrun;
    destruct (Hm _ _ _ Hrun) as (d1 & Ht1 & Hc1 & Hr1 & Hf1).
  - destruct (Hk a _ _ _ H) as (d2 & Ht2 & Hc2 & Hr2 & Hf2).
    exists (d1 ++ d2).
    rewrite Ht2, Ht1, no_output_app, has_true_read_app, Hc1, Hc2, Hr1, Hr2.
    rewrite app_assoc. repeat split. congruence.
  - inversion H; subst. eauto.
Qed.

(** An output request alone: it does not touch the flag. *)
Lemma readless_emit e : is_true_read e = false -> readless (emit e).
Proof.
  intros Hr s out s' H. run. inversion H; subst. exists [e]. simpl.
  now rewrite Hr.
Qed.

(** A read by the speech thread: the listener acts, the flag is read and
    the read is recorded. *)
Lemma read_interrupt_run s :
  exists s',
    read_interrupt s = (Ret (interrupt_speech s'), s')
    /\ trace s' = trace s ++ [ReadFlag (interrupt_speech s')]
    /\ (interrupt_speech s = true -> interrupt_speech s' = true).
Proof.
  unfold read_interrupt. unfold bind at 1. unfold get at 1.
  destruct (tape s) as [| acts rest].
  - run.
    exists (set_trace (trace s ++ [ReadFlag (interrupt_speech s)]) s).
    simpl. auto.
  - unfold bind at 1. unfold bind at 1. unfold modify at 1.
    destruct (run_monitor_frame acts (set_tape rest s))
      as (s1 & -> & Ht & _ & _ & Hf).
    run.
    exists (set_trace (trace s1 ++ [ReadFlag (interrupt_speech s1)]) s1).
    simpl. rewrite Ht. auto.
Qed.

Section Reads.
Context {A : Type} (k : bool -> M A).

Lemma after_read :
  after_interrupt (k true) -> after_interrupt (bind read_interrupt k).
Proof.
  intros Hk s out s' Hs H. unfold bind in H.
  destruct (read_interrupt_run s) as (s1 & Hrun & Ht & Hf).
  rewrite Hrun in H. specialize (Hf Hs). rewrite Hf in *.
  destruct (Hk _ _ _ Hf H) as (d & Ht' & Hc & Hf').
  exists (ReadFlag true :: d). rewrite Ht', Ht, <- app_assoc. auto.
Qed.

Lemma before_read :
  after_interrupt (k true) -> before_interrupt (k false) ->
  before_interrupt (bind read_interrupt k).
Proof.
  intros Hk Hk' s out s' Hs H. unfold bind in H.
  destruct (read_interrupt_run s) as (s1 & Hrun & Ht & _).
  rewrite Hrun in H.
  destruct (interrupt_speech s1) eqn:Hf.
  - destruct (Hk _ _ _ Hf H) as (d & Ht' & Hc & Hf').
    exists (ReadFlag true :: d). rewrite Ht', Ht, <- app_assoc. auto.
  - destruct (Hk' _ _ _ Hf H) as (d & Ht' & Hc & Hf').
    exists (ReadFlag false :: d). rewrite Ht', Ht, <- app_assoc. auto.
Qed.
End Reads.

Ltac inert_step :=
  first [ apply inert_ret | apply inert_raise | apply inert_get
        | apply inert_emit; reflexivity
        | apply inert_modify; reflexivity
        | apply inert_bind; [| intros ?] ].

Ltac inert_auto := repeat inert_step.

Section PlayerFacts.
Variable env : SpeechEnv.

Lemma inert_pkill_outcome c :
  inert (match pkill_in_loop c with
         | PkillDone => ret tt
         | PkillTimeout => raise timeout_expired
         | PkillError => raise (other_error "pkill")
         end).
Proof. destruct (pkill_in_loop c); inert_auto. Qed.

Lemma after_poll_loop c running safety :
  after_interrupt (poll_loop c running safety).
Proof.
  destruct running as [| running]; simpl.
  - apply inert_after. inert_auto.
  - apply after_read. apply inert_after. inert_auto.
    apply inert_pkill_outcome.
Qed.

Lemma before_poll_loop c running :
  forall safety, before_interrupt (poll_loop c running safety).
Proof.
  induction running as [| running IH]; intros safety; simpl.
  - apply inert_before. inert_auto.
  - apply before_read.
    + apply inert_after. inert_auto. apply inert_pkill_outcome.
    + destruct safety as [| safety]; [| apply IH].
      apply inert_before. inert_auto.
Qed.

Lemma after_chunk_tail c : after_interrupt (chunk_tail c).
Proof.
  apply after_bind; [apply after_poll_loop |]. intros _.
  apply after_read. apply inert_after. inert_auto.
Qed.

Lemma before_chunk_tail c : before_interrupt (chunk_tail c).
Proof.
  apply before_bind; [apply before_poll_loop | |]; intros _.
  - apply before_read; [apply inert_after | apply inert_before]; simpl;
      inert_auto.
    destruct (wait_expires c); inert_auto.
  - apply after_read. apply inert_after. inert_auto.
Qed.

Lemma inert_chunk_handler c e :
  inert (if is_timeout_expired e then
           emit Pkill ;;;
           if pkill_in_handler_ok c then ret tt
           else raise (other_error "pkill")
         else ret tt).
Proof.
  destruct (is_timeout_expired e); inert_auto.
  destruct (pkill_in_handler_ok c); inert_auto.
Qed.

Lemma before_speak_chunk c chunk : before_interrupt (speak_chunk c chunk).
Proof.
  unfold speak_chunk. apply before_try.
  - apply before_bind_readless; [now apply readless_emit |]. intros _.
    apply before_bind.
    + apply inert_before. destruct (popen_ok c); inert_auto.
    + intros _. apply before_chunk_tail.
    + intros _. apply after_chunk_tail.
  - intros e. apply inert_before, inert_chunk_handler.
  - intros e. apply inert_after, inert_chunk_handler.
Qed.

Lemma after_say_chunks i chunks : after_interrupt (say_chunks env i chunks).
Proof.
  destruct chunks as [| chunk rest]; simpl.
  - apply inert_after. inert_auto.
  - apply after_read. apply inert_after. inert_auto.
Qed.

Lemma before_say_chunks chunks :
  forall i, before_interrupt (say_chunks env i chunks).
Proof.
  induction chunks as [| chunk rest IH]; intros i; simpl.
  - apply inert_before. inert_auto.
  - apply before_read; [apply inert_after; inert_auto |].
    apply before_bind; [apply before_speak_chunk | |]; intros _.
    + apply before_read; [apply inert_after; inert_auto | apply IH].
    + apply after_read. apply inert_after. inert_auto.
Qed.

Lemma after_generation_wait polls : after_interrupt (generation_wait polls).
Proof.
  destruct polls as [| polls]; simpl.
  - apply inert_after. inert_auto.
  - apply after_read. apply inert_after. inert_auto.
Qed.

Lemma before_generation_wait polls : before_interrupt (generation_wait polls).
Proof.
  induction polls as [| polls IH]; simpl.
  - apply inert_before. inert_auto.
  - apply before_read; [apply inert_after; inert_auto | exact IH].
Qed.

Lemma before_elevenlabs_speak text : before_interrupt (elevenlabs_speak env text).
Proof.
  unfold elevenlabs_speak. apply before_try.
  - apply before_bind_readless; [now apply readless_emit |]. intros _.
    apply before_bind; [apply before_generation_wait | |]; intros finished.
    + apply before_bind.
      * apply inert_before. destruct (_ && _); inert_auto.
      * intros _. apply before_read; [apply inert_after; inert_auto |].
        simpl. destruct (_ && _); [| apply inert_before; inert_auto].
        apply before_bind_readless; [now apply readless_emit |]. intros _.
        apply before_bind.
        -- apply inert_before. destruct (play_ok env); inert_auto.
        -- intros _. apply before_read;
             [apply inert_after | apply inert_before]; inert_auto.
        -- intros _. apply after_read. apply inert_after. inert_auto.
      * intros _. apply after_read. apply inert_after. inert_auto.
    + apply after_bind.
      * apply inert_after. destruct (_ && _); inert_auto.
      * intros _. apply after_read. apply inert_after. inert_auto.
  - intros e. apply inert_before. inert_auto.
  - intros e. apply inert_after. inert_auto.
Qed.

Lemma inert_start_detection : inert (_start_interruption_detection env).
Proof.
  unfold _start_interruption_detection. inert_auto.
  destruct (negb (speaking a)); inert_auto.
  destruct (listener_starts env); inert_auto.
Qed.

Lemma inert_finish_session n : inert (finish_session env n).
Proof.
  unfold finish_session, stop_background_listener, run_callback. inert_auto.
  - destruct (background_listener_stop a0); inert_auto.
  - destruct (has_callback env); inert_auto.
    destruct (callback_ok env n); inert_auto.
Qed.

Lemma before_play_text text : before_interrupt (play_text env text).
Proof.
  unfold play_text.
  apply before_bind_readless;
    [apply inert_readless, inert_start_detection |]. intros _.
  apply before_bind_readless; [apply inert_readless, inert_get |].
  intros s1. apply before_bind.
  - destruct (_ && _); [apply before_elevenlabs_speak |].
    apply inert_before. inert_auto.
  - intros _. apply before_bind_readless; [apply inert_readless, inert_get |].
    intros s2. destruct (_ || _); [apply before_say_chunks |].
    apply inert_before. inert_auto.
  - intros _. apply after_bind; [apply inert_after, inert_get |].
    intros s2. destruct (_ || _); [apply after_say_chunks |].
    apply inert_after. inert_auto.
Qed.

Lemma before_speak_thread text : before_interrupt (speak_thread env text).
Proof.
  unfold speak_thread. apply before_try.
  - apply before_bind; [apply before_play_text | |]; intros _.
    + apply inert_before, inert_finish_session.
    + apply inert_after, inert_finish_session.
  - intros e. apply inert_before, inert_finish_session.
  - intros e. apply inert_after, inert_finish_session.
Qed.

(** Whatever way the session ends, [speaking] is false afterwards. *)
Lemma finish_session_silent n s out s' :
  finish_session env n s = (out, s') -> speaking s' = false.
Proof.
  unfold finish_session, stop_background_listener, run_callback.
  unfold bind, modify, get, emit. simpl.
  destruct (background_listener_stop s); simpl;
    destruct (has_callback env); simpl;
    try destruct (callback_ok env n); run;
    intros H; inversion H; subst; reflexivity.
Qed.

Lemma speak_thread_silent text s out s' :
  speak_thread env text s = (out, s') -> speaking s' = false.
Proof.
  unfold speak_thread, try_except. unfold bind at 1.
  destruct (play_text env text s) as [[[] | e] s1].
  - destruct (finish_session env 0 s1) as [[[] | e] s2] eqn:Hfin.
    + intros H. inversion H; subst. eapply finish_session_silent, Hfin.
    + apply finish_session_silent.
  - apply finish_session_silent.
Qed.
End PlayerFacts.

Lemma speak_text_unfold env text s :
  _speak_text env text s
  = speak_thread env text (set_interrupt_speech false (set_speaking true s)).
Proof. reflexivity. Qed.

(** Scenario D: the listener sets the flag while the first chunk plays;
    the [say] process is killed and the second chunk is never asked
    for. *)
Example scenario_D :
  let s' := snd (_speak_text plain_speech
                   "hello there how are you doing today my friend"
                   interrupted_early) in
  trace s'
  = [StartListener; ReadFlag false; Say "hello there how are you";
     ReadFlag false; ReadFlag true; KillProc; Pkill; ReadFlag true;
     ReadFlag true; StopListener]
  /\ speaking s' = false
  /\ interrupt_speech s' = true.
Proof. repeat split; reflexivity. Qed.

(** The same text without interruption is spoken in two chunks. *)
Example uninterrupted_session :
  let s' := snd (_speak_text plain_speech
                   "hello there how are you doing today my friend" st0) in
  omap (fun e => match e with Say c => Some c | _ => None end) (trace s')
  = ["hello there how are you"; "doing today my friend"]
  /\ speaking s' = false.
Proof. split; reflexivity. Qed.

(** ** The violation log as Python objects *)

(** [get_violations] in the method monad reads the log and changes
    nothing. *)
Lemma get_violations_reads s : get_violations s = (Ret (violations s), s).
Proof. reflexivity. Qed.

Module StoreFacts.
Import Store.

Lemma alloc_fresh o (h : gmap loc object) :
  h !! (alloc o h).1 = None /\ (alloc o h).2 = <[(alloc o h).1 := o]> h.
Proof.
  unfold alloc. simpl. split; [| reflexivity].
  apply not_elem_of_dom, is_fresh.
Qed.

(** Objects that stay where they are keep a reader's view. *)
Lemma view_weaken l (h h' : gmap loc object) log :
  h ⊆ h' -> view l h = Some log -> view l h' = Some log.
Proof.
  intros Hsub. unfold view, items_of.
  destruct (h !! l) as [[items | v] |] eqn:Hl; try discriminate.
  rewrite (lookup_weaken _ _ _ _ Hl Hsub). simpl.
  rewrite !mapM_Some. intros Hall. eapply Forall2_impl; [exact Hall |].
  intros d v. unfold entry_of.
  destruct (h !! d) as [[items' | v'] |] eqn:Hd; try discriminate.
  now rewrite (lookup_weaken _ _ _ _ Hd Hsub).
Qed.

Lemma view_items l (h : gmap loc object) log :
  view l h = Some log -> exists items, h !! l = Some (ListObj items).
Proof.
  unfold view, items_of.
  destruct (h !! l) as [[items | v] |]; try discriminate. eauto.
Qed.

Lemma view_insert_list l items (h : gmap loc object) log :
  h !! l = None ->
  mapM (entry_of h) items = Some log ->
  view l (<[l := ListObj items]> h) = Some log.
Proof.
  intros Hl Hlog. unfold view, items_of. rewrite lookup_insert_eq. simpl.
  rewrite mapM_Some in *. eapply Forall2_impl; [exact Hlog |].
  intros d v. unfold entry_of.
  destruct (h !! d) as [[items' | v'] |] eqn:Hd; try discriminate.
  rewrite lookup_insert_ne; [now rewrite Hd | congruence].
Qed.

(** A run of changes to the list at a fresh address only rewrites what is
    stored at that address. *)
Lemma mutate_many_fresh l fs :
  forall items (h : gmap loc object),
    exists items',
      mutate_many l fs (<[l := ListObj items]> h) = <[l := ListObj items']> h.
Proof.
  induction fs as [| f fs IH]; intros items h; simpl.
  - now exists items.
  - unfold mutate_list. rewrite lookup_insert_eq, insert_insert_eq.
    apply IH.
Qed.

Lemma get_violations_run self (h : gmap loc object) items :
  h !! self = Some (ListObj items) ->
  exists copy,
    get_violations self h = (Some copy, <[copy := ListObj items]> h)
    /\ h !! copy = None.
Proof.
  intros Hself. unfold get_violations. rewrite Hself.
  destruct (alloc_fresh (ListObj items) h) as [Hfresh Heq].
  exists (alloc (ListObj items) h).1. split; [| exact Hfresh].
  destruct (alloc (ListObj items) h) as [r h1]. simpl in *. now rewrite Heq.
Qed.

Lemma view_entries l (h : gmap loc object) items log :
  h !! l = Some (ListObj items) -> view l h = Some log ->
  mapM (entry_of h) items = Some log.
Proof. unfold view, items_of. now intros ->. Qed.

(** C10: [get_violations] returns a copy of the violation log.  In a
    store where [self.violations] is a readable log, the call returns
    the address of a new list that shows the same entries; the call
    leaves every object of the store, the log among them, as it was;
    and after any run of in-place changes to the returned list the log
    still has the same items and the same entries, and a further call
    of [get_violations] still returns those entries. *)
Theorem get_violations_copy :
  forall (self : loc) (h : gmap loc object) (log : list Violation),
    view self h = Some log ->
    exists copy,
      fst (get_violations self h) = Some copy
      /\ copy <> self
      /\ h ⊆ snd (get_violations self h)
      /\ view copy (snd (get_violations self h)) = Some log
      /\ view self (snd (get_violations self h)) = Some log
      /\ forall fs,
           let h2 := mutate_many copy fs (snd (get_violations self h)) in
           items_of self h2 = items_of self h
           /\ view self h2 = Some log
           /\ exists copy',
                fst (get_violations self h2) = Some copy'
                /\ view copy' (snd (get_violations self h2)) = Some log.
Proof.
  intros self h log Hview.
  destruct (view_items _ _ _ Hview) as [items Hself].
  pose proof (view_entries _ _ _ _ Hself Hview) as Hentries.
  destruct (get_violations_run self h items Hself) as (copy & Hrun & Hfresh).
  exists copy. rewrite Hrun. simpl.
  assert (Hne : copy <> self) by congruence.
  assert (Hsub : forall o, h ⊆ <[copy := o]> h).
  { intros o. now apply insert_subseteq. }
  repeat split; auto.
  - now apply view_insert_list.
  - eapply view_weaken; [apply Hsub | exact Hview].
  - destruct (mutate_many_fresh copy fs items h) as [items' ->].
    unfold items_of. rewrite lookup_insert_ne by exact Hne. reflexivity.
  - destruct (mutate_many_fresh copy fs items h) as [items' ->].
    eapply view_weaken; [apply Hsub | exact Hview].
  - destruct (mutate_many_fresh copy fs items h) as [items' ->].
    assert (Hself' : <[copy := ListObj items']> h !! self = Some (ListObj items)).
    { rewrite lookup_insert_ne by exact Hne. exact Hself. }
    destruct (get_violations_run self _ items Hself')
      as (copy' & -> & Hfresh').
    exists copy'. split; [reflexivity |]. simpl.
    apply view_insert_list; [exact Hfresh' |].
    rewrite mapM_Some in *. eapply Forall2_impl; [exact Hentries |].
    intros d v. unfold entry_of.
    destruct (h !! d) as [[its | v'] |] eqn:Hd; try discriminate.
    rewrite lookup_insert_ne; [now rewrite Hd | congruence].
Qed.

Lemma get_violations_copy_witness :
  view 1%positive two_entries
  = Some [mkViolation 5 "Grok API timeout: read timed out";
          mkViolation 7 "Web search failed: timeout"]
  /\ exists copy,
       fst (get_violations 1%positive two_entries) = Some copy
       /\ copy <> 1%positive.
Proof.
  split; [reflexivity |].
  destruct (get_violations_copy 1%positive two_entries _ eq_refl)
    as (copy & H1 & H2 & _).
  exists copy. split; assumption.
Defined.

(** [_log_violation] on the store appends one entry to what a reader of
    the log sees: the list of values kept in [violations] by the method
    monad is that view. *)
Lemma log_violation_view self t msg (h : gmap loc object) log :
  view self h = Some log ->
  view self (log_violation self t msg h) = Some (log ++ [mkViolation t msg]).
Proof.
  intros Hview.
  destruct (view_items _ _ _ Hview) as [items Hself].
  pose proof (view_entries _ _ _ _ Hself Hview) as Hentries.
  unfold log_violation.
  destruct (alloc_fresh (DictObj (mkViolation t msg)) h) as [Hfresh Heq].
  destruct (alloc (DictObj (mkViolation t msg)) h) as [d h1].
  simpl in *. subst h1.
  assert (Hne : d <> self) by congruence.
  rewrite lookup_insert_ne by exact Hne. rewrite Hself.
  unfold view, items_of. rewrite lookup_insert_eq. simpl.
  rewrite mapM_Some in *. apply Forall2_app.
  - eapply Forall2_impl; [exact Hentries |].
    intros x v. unfold entry_of.
    destruct (h !! x) as [[its | v'] |] eqn:Hx; try discriminate.
    rewrite !lookup_insert_ne by congruence. now rewrite Hx.
  - repeat constructor. unfold entry_of.
    rewrite lookup_insert_ne by congruence. now rewrite lookup_insert_eq.
Qed.

(** The copy is shallow: the dicts are shared, so a change made to an
    entry reached through the returned list shows in the log. *)
Example shared_entries :
  let '(copy, h1) := get_violations 1%positive two_entries in
  items_of (default 1%positive copy) h1 = Some [2%positive; 3%positive]
  /\ view 1%positive (mutate_dict 2%positive (fun v => mkViolation (timestamp v) "edited") h1)
     = Some [mkViolation 5 "edited";
             mkViolation 7 "Web search failed: timeout"].
Proof. split; reflexivity. Qed.

End StoreFacts.

(** * Further properties of the code *)

(** ** Response Shaper: where it cuts *)

Lemma last_char_append s t :
  t <> "" -> Py.last_char (s +:+ t) = Py.last_char t.
Proof.
  intros Ht. induction s as [| c s IH]; [reflexivity |].
  rewrite append_cons. simpl. rewrite IH.
  destruct (s +:+ t) eqn:E; [| reflexivity].
  apply append_empty in E as [_ E]. contradiction.
Qed.

Lemma last_char_join ws w :
  w <> "" -> Py.last_char (Py.join " " (ws ++ [w])) = Py.last_char w.
Proof.
  intros Hw. induction ws as [| a ws IH]; [reflexivity |].
  assert (Hne : Py.join " " (ws ++ [w]) <> "").
  { intros E. rewrite E in IH. destruct (last_char_word w Hw) as [c Hc].
    rewrite Hc in IH. discriminate. }
  change (Py.join " " ((a :: ws) ++ [w]))
    with (Py.join " " (a :: (ws ++ [w]))).
  destruct (ws ++ [w]) as [| b rest] eqn:E.
  - destruct ws; discriminate.
  - change (Py.join " " (a :: b :: rest))
      with (a +:+ " " +:+ Py.join " " (b :: rest)).
    rewrite last_char_append.
    + rewrite last_char_append; [exact IH | exact Hne].
    + intros E'. apply append_empty in E' as [E' _]. discriminate.
Qed.

(** The backward scan is a search for the first index whose word ends a
    sentence. *)
Lemma scan_boundary_find words idx s :
  Forall is_word words ->
  (forall i, In i idx -> 0 <= i < Z.of_nat (length words)) ->
  scan_boundary words idx s
  = (Ret (option_map (fun i => Py.join " " (Py.slice_to (i + 1) words))
            (find (fun i => match words !! Z.to_nat i with
                            | Some w => ends_sentence w
                            | None => false
                            end) idx)),
     s).
Proof.
  intros Hwords. induction idx as [| i idx IH]; intros Hidx; [reflexivity |].
  simpl. unfold bind.
  destruct (list_index_in_range words i s) as (w & Hw & ->);
    [apply Hidx; now left |].
  assert (Hword : is_word w) by (eapply Forall_lookup_1; eassumption).
  destruct (last_char_word w (proj2 Hword)) as [c Hc].
  unfold str_last, ends_sentence. rewrite Hw, Hc. run.
  destruct (terminal c); [reflexivity |].
  apply IH. intros j Hj. apply Hidx. now right.
Qed.

Lemma cut_point_bounds m words :
  0 <= m < Z.of_nat (length words) ->
  (cut_point m words <= Z.to_nat m)%nat
  /\ (cut_point m words = Z.to_nat m
      \/ (1 <= cut_point m words)%nat
         /\ exists w, words !! (cut_point m words - 1)%nat = Some w
                      /\ ends_sentence w = true).
Proof.
  intros Hm. unfold cut_point.
  destruct (find _ _) as [i |] eqn:Hfind; [| split; [lia | now left]].
  apply find_some in Hfind as [Hi Hend].
  apply in_range_down in Hi.
  split; [lia | right]. split; [lia |].
  replace (Z.to_nat (i + 1) - 1)%nat with (Z.to_nat i) by lia.
  destruct (words !! Z.to_nat i) as [w |]; [| discriminate]. eauto.
Qed.

(** The shaper as a function of the words: the reply cut at
    [cut_point], one violation with the two word counts. *)
Lemma shape_cut cfg response user_input s :
  let words := Py.split response in
  let m := max_response_words cfg in
  Py.contains (explain_keyword cfg) (Py.lower user_input) = false ->
  0 <= m < Z.of_nat (length words) ->
  _limit_response_length cfg response user_input s
  = (Ret (Py.join " " (take (cut_point m words) words)),
     set_violations
       (violations s
        ++ [mkViolation (now s)
              (truncation_message (Z.of_nat (length words))
                                  (Z.of_nat (cut_point m words)))])
       s).
Proof.
  intros words m Hkw Hm.
  pose proof (split_words response) as Hwords. fold words in Hwords.
  destruct (cut_point_bounds m words Hm) as [Hle _].
  unfold _limit_response_length. rewrite Hkw. fold words. fold m.
  destruct (Z.ltb_spec m (Z.of_nat (length words))); [| lia].
  unfold bind at 1. rewrite scan_boundary_find; [| exact Hwords |].
  2:{ intros i Hi. apply in_range_down in Hi. lia. }
  assert (Hcut : default (Py.join " " (Py.slice_to m words))
                   (option_map (fun i => Py.join " " (Py.slice_to (i + 1) words))
                      (find (fun i => match words !! Z.to_nat i with
                                      | Some w => ends_sentence w
                                      | None => false
                                      end)
                         (Py.range_down (Z.min m (Z.of_nat (length words)) - 1)
                                        (Z.max 0 (m - 5)))))
                 = Py.join " " (take (cut_point m words) words)).
  { unfold cut_point.
    destruct (find _ _) as [i |] eqn:Hfind; simpl; unfold Py.slice_to.
    - apply find_some in Hfind as [Hi _]. apply in_range_down in Hi.
      destruct (Z.leb_spec 0 (i + 1)); [reflexivity | lia].
    - destruct (Z.leb_spec 0 m); [reflexivity | lia]. }
  rewrite Hcut.
  rewrite split_join by (now apply Forall_take).
  rewrite length_take.
  destruct (Z.ltb_spec m (Z.of_nat (cut_point m words `min` length words)));
    [lia |].
  run. rewrite split_join by (now apply Forall_take).
  rewrite length_take.
  replace (cut_point m words `min` length words)%nat
    with (cut_point m words) by lia.
  reflexivity.
Qed.

Lemma shape_short cfg response user_input s :
  word_count response <= max_response_words cfg ->
  _limit_response_length cfg response user_input s = (Ret response, s).
Proof.
  intros H. unfold _limit_response_length, word_count in *.
  destruct (Py.contains _ _); [reflexivity |].
  destruct (Z.ltb_spec (max_response_words cfg)
              (Z.of_nat (length (Py.split response)))); [lia | reflexivity].
Qed.

(** X1: for a limit that is not negative, an input without the keyword
    and a reply of more words than the limit, the shaper returns the
    first [cut_point] words of the reply joined by single spaces (runs
    of whitespace in the reply are not kept), and appends to the log one
    violation that gives the word counts before and after. *)
Theorem shape_cuts_reply :
  forall cfg response user_input s,
    Py.contains (explain_keyword cfg) (Py.lower user_input) = false ->
    0 <= max_response_words cfg < word_count response ->
    let k := cut_point (max_response_words cfg) (Py.split response) in
    _limit_response_length cfg response user_input s
    = (Ret (Py.join " " (take k (Py.split response))),
       set_violations
         (violations s
          ++ [mkViolation (now s)
                (truncation_message (word_count response) (Z.of_nat k))])
         s).
Proof.
  intros cfg response user_input s Hkw Hm. now apply shape_cut.
Qed.

Lemma shape_cuts_reply_witness :
  fst (_limit_response_length cfg10
         "Yes.  It   rains a lot in the north of Spain in spring"
         "weather" st0)
  = Ret "Yes. It rains a lot in the north of Spain".
Proof.
  rewrite (shape_cuts_reply cfg10
             "Yes.  It   rains a lot in the north of Spain in spring"
             "weather" st0 eq_refl).
  - reflexivity.
  - unfold word_count. simpl. lia.
Defined.

(** X2: under the same conditions the shaped reply never has more words
    than the limit, its words are the first words of the reply, and when
    it has fewer words than the limit its last word ends in '.', '!' or
    '?'. *)
Theorem shape_within_limit :
  forall cfg response user_input s,
    Py.contains (explain_keyword cfg) (Py.lower user_input) = false ->
    0 <= max_response_words cfg < word_count response ->
    exists out,
      fst (_limit_response_length cfg response user_input s) = Ret out
      /\ word_count out <= max_response_words cfg
      /\ Py.split out = take (length (Py.split out)) (Py.split response)
      /\ (word_count out = max_response_words cfg \/ ends_sentence out = true).
Proof.
  intros cfg response user_input s Hkw Hm.
  rewrite shape_cut by assumption. simpl.
  set (words := Py.split response) in *.
  set (k := cut_point (max_response_words cfg) words).
  pose proof (split_words response) as Hwords. fold words in Hwords.
  unfold word_count in Hm. fold words in Hm.
  destruct (cut_point_bounds _ words Hm) as [Hle Hcase]. fold k in Hle, Hcase.
  exists (Py.join " " (take k words)).
  unfold word_count. rewrite split_join by (now apply Forall_take).
  rewrite length_take.
  replace (k `min` length words)%nat with k by lia.
  repeat split; [lia |].
  destruct Hcase as [-> | (Hk & w & Hw & Hend)]; [left; lia | right].
  replace k with (S (k - 1)) by lia.
  rewrite (take_S_r _ _ _ Hw).
  assert (Hword : is_word w) by (eapply Forall_lookup_1; eassumption).
  unfold ends_sentence in *.
  now rewrite (last_char_join _ w (proj2 Hword)).
Qed.

Lemma shape_within_limit_witness :
  exists out,
    fst (_limit_response_length cfg10 "a b c d e f g h i j k l" "tell me" st0)
    = Ret out
    /\ word_count out <= 10.
Proof.
  destruct (shape_within_limit cfg10 "a b c d e f g h i j k l" "tell me" st0
              eq_refl) as (out & H1 & H2 & _).
  - unfold word_count. simpl. lia.
  - exists out. split; assumption.
Defined.

(** X3: shaping is idempotent for a limit that is not negative: applied
    to its own result for the same input, the shaper returns it
    unchanged and logs nothing more. *)
Theorem shape_idempotent :
  forall cfg response user_input s out s1,
    0 <= max_response_words cfg ->
    _limit_response_length cfg response user_input s = (Ret out, s1) ->
    _limit_response_length cfg out user_input s1 = (Ret out, s1).
Proof.
  intros cfg response user_input s out s1 Hmax Hrun.
  destruct (Py.contains (explain_keyword cfg) (Py.lower user_input)) eqn:Hkw.
  - unfold _limit_response_length in *. rewrite Hkw in *. run.
    now inversion Hrun.
  - destruct (Z.ltb_spec (max_response_words cfg) (word_count response))
      as [Hlt | Hge].
    + rewrite shape_cut in Hrun by (unfold word_count in Hlt; auto with zarith).
      inversion Hrun; subst. apply shape_short.
      pose proof (split_words response) as Hwords.
      unfold word_count. rewrite split_join by (now apply Forall_take).
      rewrite length_take.
      destruct (cut_point_bounds (max_response_words cfg) (Py.split response));
        [unfold word_count in Hlt; lia | lia].
    + rewrite shape_short in Hrun by exact Hge. inversion Hrun; subst.
      now apply shape_short.
Qed.

Lemma shape_idempotent_witness :
  _limit_response_length cfg10 "a b c d e f g h i j" "tell me"
    (snd (_limit_response_length cfg10 "a b c d e f g h i j k l" "tell me" st0))
  = (Ret "a b c d e f g h i j",
     snd (_limit_response_length cfg10 "a b c d e f g h i j k l" "tell me" st0)).
Proof.
  apply (shape_idempotent cfg10 "a b c d e f g h i j k l" "tell me" st0).
  - simpl. lia.
  - reflexivity.
Defined.

(** X4: a negative limit makes the shaper fail on short replies: for an
    input without the keyword and a reply of at most as many words as
    the limit is below zero (the empty reply included), the default
    truncation is the empty string and the test of its last character
    raises IndexError; the object is left as it was. *)
Theorem shape_negative_limit_raises :
  forall cfg response user_input s,
    Py.contains (explain_keyword cfg) (Py.lower user_input) = false ->
    max_response_words cfg < 0 ->
    word_count response <= - max_response_words cfg ->
    _limit_response_length cfg response user_input s
    = (Raise (OtherError "IndexError" "string index out of range"), s).
Proof.
  intros cfg response user_input s Hkw Hneg Hshort.
  unfold _limit_response_length, word_count in *. rewrite Hkw.
  set (words := Py.split response) in *.
  set (m := max_response_words cfg) in *.
  destruct (Z.ltb_spec m (Z.of_nat (length words))); [| lia].
  assert (Hrange : Py.range_down (Z.min m (Z.of_nat (length words)) - 1)
                                 (Z.max 0 (m - 5)) = []).
  { unfold Py.range_down.
    replace (Z.to_nat _) with 0%nat by lia. reflexivity. }
  rewrite Hrange.
  assert (Hslice : Py.slice_to m words = []).
  { unfold Py.slice_to. destruct (Z.leb_spec 0 m); [lia |].
    replace (Z.to_nat _) with 0%nat by lia. reflexivity. }
  rewrite Hslice. simpl. unfold bind, ret. simpl.
  destruct (Z.ltb_spec m (Z.of_nat 0)); [reflexivity | lia].
Qed.

Lemma shape_negative_limit_raises_witness :
  fst (_limit_response_length (init_config "xai-0123456789" "serp-key" (-3) "explain")
         "Yes of course" "tell me" st0)
  = Raise (OtherError "IndexError" "string index out of range").
Proof.
  rewrite (shape_negative_limit_raises
             (init_config "xai-0123456789" "serp-key" (-3) "explain")
             "Yes of course" "tell me" st0 eq_refl).
  - reflexivity.
  - simpl. lia.
  - unfold word_count. simpl. lia.
Defined.

(** ** Completion Client: what [_query_grok] returns *)

Lemma startswith_append_l p a b :
  Py.startswith p a = true -> Py.startswith p (a +:+ b) = true.
Proof.
  revert a. induction p as [| c p IH]; intros a H; [reflexivity |].
  destruct a as [| d a]; [discriminate |].
  rewrite append_cons. simpl in *.
  apply andb_true_iff in H as [-> H]. now apply IH.
Qed.

Lemma describe_response_is_error cfg r :
  Py.startswith "Error:" (describe_response cfg r) = true.
Proof.
  unfold describe_response, key_not_set_message.
  repeat match goal with
         | |- context [if ?b then _ else _] => destruct b
         | |- context [match ?o with Some _ => _ | None => _ end] => destruct o
         end;
    repeat (apply startswith_append_l); reflexivity.
Qed.

(** The loop returns a reply only when a model of the list answered 200
    with that reply. *)
Lemma try_models_returned requests_post system user_input models :
  forall last s content s',
    try_models requests_post system user_input models last s
    = (Ret (Returned content), s') ->
    exists m r,
      In m models
      /\ requests_post (mkRequest m system user_input) = Responds r
      /\ status_code r = 200 /\ reply r = Ret content.
Proof.
  induction models as [| m rest IH]; intros last s content s' H; simpl in H.
  - run. discriminate.
  - unfold bind, emit, modify in H. simpl in H.
    destruct (requests_post (mkRequest m system user_input)) as [r | e] eqn:Hpost;
      [| run; discriminate].
    destruct (Z.eqb_spec (status_code r) 200) as [H200 | H200].
    + destruct (reply r) as [c | e] eqn:Hreply; run; inversion H; subst.
      exists m, r. repeat split; auto.
    + assert (Hrest : forall last s0,
                 try_models requests_post system user_input rest last s0
                 = (Ret (Returned content), s') ->
                 exists m0 r0,
                   In m0 (m :: rest)
                   /\ requests_post (mkRequest m0 system user_input) = Responds r0
                   /\ status_code r0 = 200 /\ reply r0 = Ret content).
      { intros last0 s0 H0. destruct (IH _ _ _ _ H0) as (m0 & r0 & Hin & Hr).
        exists m0, r0. split; [now right | exact Hr]. }
      destruct (status_code r =? 400); [| eapply Hrest, H].
      destruct (model_unavailable r); [eapply Hrest, H |].
      run. discriminate.
Qed.

(** The loop ends with the reply of the last model attempted when that
    model answered 200 with a reply. *)
Lemma try_models_success requests_post system user_input models :
  forall last s m r content,
    List.last (attempts_until stops_in_code
                 (fun m => requests_post (mkRequest m system user_input)) models) ""
    = m ->
    models <> [] ->
    requests_post (mkRequest m system user_input) = Responds r ->
    status_code r = 200 -> reply r = Ret content ->
    fst (try_models requests_post system user_input models last s)
    = Ret (Returned content).
Proof.
  induction models as [| m0 rest IH];
    intros last s m r content Hlast Hne Hpost H200 Hreply; [contradiction |].
  simpl in Hlast. simpl. unfold bind, emit, modify. simpl.
  assert (Hhere : m0 = m ->
            requests_post (mkRequest m0 system user_input) = Responds r).
  { now intros ->. }
  assert (Hgo : stops_in_code (requests_post (mkRequest m0 system user_input))
                = false ->
                forall last0 s0,
                  fst (try_models requests_post system user_input rest last0 s0)
                  = Ret (Returned content)).
  { intros Hstop last0 s0. rewrite Hstop in Hlast.
    destruct rest as [| m1 rest'].
    - simpl in Hlast. rewrite (Hhere Hlast) in Hstop. simpl in Hstop.
      rewrite H200 in Hstop. discriminate.
    - apply (IH last0 s0 m r content);
        [exact Hlast | discriminate | assumption | assumption | assumption]. }
  destruct (requests_post (mkRequest m0 system user_input)) as [r0 | e]
    eqn:Hpost0; simpl in Hlast, Hgo.
  - destruct (status_code r0 =? 200) eqn:E200; simpl in Hlast, Hgo.
    + specialize (Hhere Hlast). inversion Hhere; subst r0. now rewrite Hreply.
    + destruct (status_code r0 =? 400) eqn:E400; simpl in Hlast, Hgo.
      * destruct (model_unavailable r0) eqn:Hmu; simpl in Hlast, Hgo.
        -- now apply Hgo.
        -- specialize (Hhere Hlast). inversion Hhere; subst r0.
           rewrite H200 in E200. discriminate.
      * now apply Hgo.
  - specialize (Hhere Hlast). discriminate.
Qed.

Lemma query_handler_is_error cfg e s :
  exists text s',
    query_handler cfg e s = (Ret (Text text), s')
    /\ Py.startswith "Error:" text = true.
Proof.
  destruct e; simpl; run; eexists _, _; (split; [reflexivity |]);
    repeat (apply startswith_append_l); reflexivity.
Qed.

(** X5: [_query_grok] never raises, whatever the completion service and
    the transport do, and what it returns is either the reply of a model
    of the fallback list that answered 200 (the value under "content",
    a string or not), or a text that starts with "Error:". *)
Theorem completion_returns_reply_or_error :
  forall cfg requests_post user_input context s,
    exists answer s',
      _query_grok cfg requests_post user_input context s = (Ret answer, s')
      /\ ((exists m r,
             In m model_names
             /\ outcome_for requests_post user_input context m = Responds r
             /\ status_code r = 200 /\ reply r = Ret answer)
          \/ (exists text,
                answer = Text text /\ Py.startswith "Error:" text = true)).
Proof.
  intros cfg requests_post user_input context s. unfold _query_grok.
  destruct (negb (nonempty (grok_api_key cfg)) || _ || _).
  - run. eexists _, _. split; [reflexivity | right].
    eexists. split; reflexivity.
  - unfold try_except, query_body. unfold bind at 1.
    destruct (try_models requests_post (system_content context) user_input
                model_names None s) as [[ending | e] s1] eqn:Hrun.
    + destruct ending as [content | [r |]].
      * apply try_models_returned in Hrun.
        unfold ret. eexists _, _. split; [reflexivity | left; exact Hrun].
      * clear Hrun.
        destruct (response_truthy r); run; eexists _, _;
          (split; [reflexivity | right]); eexists;
          (split; [reflexivity |]);
          [apply describe_response_is_error | reflexivity].
      * clear Hrun. run. eexists _, _. split; [reflexivity | right].
        eexists. split; reflexivity.
    + destruct (query_handler_is_error cfg e s1) as (text & s' & -> & Herr).
      exists (Text text), s'. split; [reflexivity | right]. eauto.
Qed.

(** X6: when the last model attempted answers 200 with a reply,
    [_query_grok] returns that reply as it is and records no
    violation. *)
Theorem completion_success :
  forall cfg requests_post user_input context s m r content,
    api_key_configured cfg = true ->
    List.last (attempts_until stops_in_code
                 (outcome_for requests_post user_input context) model_names) ""
    = m ->
    outcome_for requests_post user_input context m = Responds r ->
    status_code r = 200 ->
    reply r = Ret content ->
    fst (_query_grok cfg requests_post user_input context s) = Ret content
    /\ violations (snd (_query_grok cfg requests_post user_input context s))
       = violations s.
Proof.
  intros cfg requests_post user_input context s m r content
         Hkey Hlast Hpost H200 Hreply.
  unfold api_key_configured in Hkey. apply negb_true_iff in Hkey.
  pose proof (try_models_success requests_post (system_content context)
                user_input model_names None s m r content Hlast
                ltac:(discriminate) Hpost H200 Hreply) as Hok.
  unfold _query_grok. rewrite Hkey. cbv beta iota.
  unfold try_except, query_body, bind.
  destruct (try_models requests_post (system_content context) user_input
              model_names None s) as [out s1] eqn:Hrun.
  simpl in Hok. subst out.
  apply try_models_trace in Hrun as (_ & _ & Hv). simpl. auto.
Qed.

Lemma completion_success_witness :
  fst (_query_grok cfg10 busy_then_ok "hi" None st0) = Ret "Hello."
  /\ violations (snd (_query_grok cfg10 busy_then_ok "hi" None st0)) = [].
Proof.
  apply (completion_success cfg10 busy_then_ok "hi" None st0 "grok-beta"
           (ok_response "Hello.") "Hello."); reflexivity.
Defined.

(** X8: for every behaviour of the completion service, the models one
    call of [_query_grok] posts to are an initial segment of the
    fallback list: never more than the five models, never one twice,
    never out of order. *)
Theorem completion_posts_initial_segment :
  forall cfg requests_post user_input context s,
    exists attempted rest,
      post_calls (trace (snd (_query_grok cfg requests_post user_input context s)))
      = post_calls (trace s) ++ attempted
      /\ model_names = attempted ++ rest.
Proof.
  intros cfg requests_post user_input context s.
  rewrite query_grok_attempts.
  destruct (api_key_configured cfg).
  - destruct (attempts_until_prefix stops_in_code
                (outcome_for requests_post user_input context) model_names)
      as [rest Hrest].
    eauto.
  - exists [], model_names. auto.
Qed.

(** ** Context Augmenter: failures and results *)

Lemma join_nonempty sep p parts : p <> "" -> Py.join sep (p :: parts) <> "".
Proof.
  intros Hp. destruct parts as [| q parts]; [exact Hp |].
  change (Py.join sep (p :: q :: parts))
    with (p +:+ sep +:+ Py.join sep (q :: parts)).
  intros E. apply append_empty in E as [E _]. contradiction.
Qed.

Lemma direct_part_nonempty results :
  Forall (fun p => p <> "") (direct_part results).
Proof.
  unfold direct_part. destruct (answer_box results) as [box |]; [| constructor].
  destruct (nonempty _); repeat constructor. discriminate.
Qed.

Lemma organic_part_nonempty result :
  Forall (fun p => p <> "") (organic_part result).
Proof.
  unfold organic_part. destruct (nonempty _); repeat constructor.
  intros E. apply append_empty in E as [_ E]. discriminate.
Qed.

Lemma build_context_nonempty results c :
  build_context results = Some c -> c <> "".
Proof.
  unfold build_context.
  destruct (organic_results results) as [[| r rs] |]; try discriminate.
  assert (Hall : Forall (fun p => p <> "")
                   (direct_part results
                    ++ concat (map organic_part (firstn 3 (r :: rs))))).
  { apply Forall_app. split; [apply direct_part_nonempty |].
    apply Forall_concat, Forall_forall. intros ps Hps.
    apply list_elem_of_In, in_map_iff in Hps as (x & <- & _).
    apply organic_part_nonempty. }
  destruct (direct_part results ++ _) as [| p parts]; [discriminate |].
  intros H. inversion H; subst. apply join_nonempty.
  now inversion Hall.
Qed.

(** X10: a context returned by [_search_web] is never the empty string,
    so the emptiness test of [_query_grok] never drops it: the system
    message sent to the model is the prompt followed by the context
    between its two delimiters. *)
Theorem search_context_is_sent :
  forall GoogleSearch query s c,
    fst (_search_web GoogleSearch query s) = Ret (Some c) ->
    c <> ""
    /\ system_content (Some c)
       = system_prompt +:+ context_header +:+ c +:+ context_footer.
Proof.
  intros GoogleSearch query s c H.
  assert (Hc : c <> "").
  { unfold _search_web in H. destruct GoogleSearch as [search |]; run;
      [| discriminate].
    destruct (search query) as [results | msg]; simpl in H; [| discriminate].
    inversion H as [Hb]. now apply build_context_nonempty in Hb. }
  split; [exact Hc |]. unfold system_content, nonempty.
  destruct (String.eqb_spec c ""); [contradiction | reflexivity].
Qed.

Lemma search_context_is_sent_witness :
  system_content (Some "Direct answer: Paris is the capital | France: A country | : Seine")
  = system_prompt +:+ context_header
    +:+ "Direct answer: Paris is the capital | France: A country | : Seine"
    +:+ context_footer.
Proof.
  apply (search_context_is_sent
           (Some (fun _ : string => SearchDict answer_and_pages))
           "capital of France" st0).
  reflexivity.
Defined.

(** ** Context Augmenter: the extracted claims *)

Lemma markfree_append s t : markfree (s +:+ t) = markfree s && markfree t.
Proof.
  induction s as [| c s IH]; [reflexivity |].
  rewrite append_cons. simpl. rewrite IH. now rewrite andb_assoc.
Qed.

Lemma split_sentences_markfree s :
  forall cur in_run, markfree cur = true ->
    Forall (fun p => markfree p = true) (Re.split_go cur in_run s).
Proof.
  induction s as [| c s IH]; intros cur in_run Hcur; simpl.
  - repeat constructor. exact Hcur.
  - destruct (terminal c) eqn:Hc.
    + destruct in_run; [now apply IH |].
      constructor; [exact Hcur | now apply IH].
    + apply IH. rewrite markfree_append, Hcur. simpl. now rewrite Hc.
Qed.

Lemma markfree_lstrip s : markfree s = true -> markfree (Py.lstrip s) = true.
Proof.
  induction s as [| c s IH]; [reflexivity |]. simpl.
  intros H. destruct (Py.isspace c); [| exact H].
  apply andb_true_iff in H as [_ H]. now apply IH.
Qed.

Lemma markfree_rstrip s : markfree s = true -> markfree (Py.rstrip s) = true.
Proof.
  induction s as [| c s IH]; [reflexivity |]. simpl.
  intros H. apply andb_true_iff in H as [Hc H]. specialize (IH H).
  destruct (Py.rstrip s) as [| d r].
  - destruct (Py.isspace c); [reflexivity |]. simpl. now rewrite Hc.
  - simpl in *. now rewrite Hc, IH.
Qed.

Lemma lstrip_starts_clean s : starts_clean (Py.lstrip s) = true.
Proof.
  induction s as [| c s IH]; [reflexivity |]. simpl.
  destruct (Py.isspace c) eqn:Hc; [exact IH |]. simpl. now rewrite Hc.
Qed.

Lemma rstrip_starts_clean s :
  starts_clean s = true -> starts_clean (Py.rstrip s) = true.
Proof.
  destruct s as [| c s]; [reflexivity |]. simpl. intros Hc.
  destruct (Py.rstrip s); [| exact Hc].
  destruct (Py.isspace c) eqn:E; [discriminate | simpl; now rewrite E].
Qed.

Lemma lstrip_clean s : starts_clean s = true -> Py.lstrip s = s.
Proof.
  destruct s as [| c s]; [reflexivity |]. simpl. intros Hc.
  apply negb_true_iff in Hc. now rewrite Hc.
Qed.

Lemma rstrip_idempotent s : Py.rstrip (Py.rstrip s) = Py.rstrip s.
Proof.
  induction s as [| c s IH]; [reflexivity |]. simpl.
  destruct (Py.rstrip s) as [| d r] eqn:E.
  - destruct (Py.isspace c) eqn:Hc; [reflexivity |]. simpl. now rewrite Hc.
  - simpl in *. now rewrite IH.
Qed.

Lemma strip_idempotent s : Py.strip (Py.strip s) = Py.strip s.
Proof.
  unfold Py.strip.
  rewrite (lstrip_clean (Py.rstrip (Py.lstrip s))).
  - apply rstrip_idempotent.
  - apply rstrip_starts_clean, lstrip_starts_clean.
Qed.

(** X11: every claim [_extract_factual_claims] returns is free of the
    sentence marks '.', '!' and '?', and has no whitespace at either
    end (stripping it again changes nothing). *)
Theorem claims_are_trimmed_sentences :
  forall text claim,
    In claim (_extract_factual_claims text) ->
    markfree claim = true /\ Py.strip claim = claim.
Proof.
  intros text claim H. unfold _extract_factual_claims in H.
  apply in_map_iff in H as (sentence & <- & Hin).
  apply list_elem_of_In, list_elem_of_filter in Hin as [_ Hin].
  split; [| apply strip_idempotent].
  unfold Py.strip. apply markfree_rstrip, markfree_lstrip.
  pose proof (split_sentences_markfree text "" false eq_refl) as Hall.
  rewrite Forall_forall in Hall. now apply Hall.
Qed.

Lemma claims_are_trimmed_sentences_witness :
  markfree "It IS  raining" = true /\ Py.strip "It IS  raining" = "It IS  raining".
Proof.
  apply (claims_are_trimmed_sentences
           "Hello there! 50% of cats sleep.  It IS  raining? is.").
  simpl. auto.
Defined.

(** ** Turn Controller: the silence wait and the flag *)

Lemma signal_by_poll_first s :
  interrupt_speech s = true -> signal_by_poll 0 s = true.
Proof.
  intros Hs. unfold signal_by_poll. simpl.
  destruct (read_interrupt_run s) as (s1 & -> & _ & Hf). simpl. auto.
Qed.

Lemma wait_loop_silent polls :
  forall s, (forall k, (k < polls)%nat -> signal_by_poll k s = false) ->
    fst (wait_loop polls s) = Ret true.
Proof.
  induction polls as [| polls IH]; intros s Hall; [reflexivity |].
  simpl. unfold bind.
  destruct (read_interrupt_returns s) as [s1 H1].
  pose proof (Hall 0%nat ltac:(lia)) as H0.
  unfold signal_by_poll in H0. simpl in H0. rewrite H1 in *. simpl in H0.
  rewrite H0. apply IH. intros k Hk.
  specialize (Hall (S k) ltac:(lia)).
  rewrite signal_by_poll_next, H1 in Hall. exact Hall.
Qed.

(** X12: [_wait_for_silence] returns [True] exactly when none of its
    polls reads the flag set; in particular a wait with no poll at all (a
    silence timeout of zero or less) returns [True] even when the flag is
    already set. *)
Theorem wait_passes_iff_no_signal :
  forall polls s,
    (fst (_wait_for_silence polls s) = Ret true
     <-> forall k, (k < polls)%nat -> signal_by_poll k s = false)
    /\ fst (_wait_for_silence 0 s) = Ret true.
Proof.
  intros polls s. split; [| reflexivity]. unfold _wait_for_silence. split.
  - intros Hwait k Hk.
    destruct (signal_by_poll k s) eqn:Hsig; [| reflexivity].
    rewrite (wait_loop_interrupted polls s k Hk Hsig) in Hwait. discriminate.
  - apply wait_loop_silent.
Qed.

Lemma wait_loop_keeps_flag polls :
  forall s out s', interrupt_speech s = true ->
    wait_loop polls s = (out, s') -> interrupt_speech s' = true.
Proof.
  induction polls as [| polls IH]; intros s out s' Hs H; simpl in H.
  - run. now inversion H; subst.
  - unfold bind in H.
    destruct (read_interrupt_run s) as (s1 & Hrun & _ & Hf).
    rewrite Hrun in H. specialize (Hf Hs). rewrite Hf in H.
    run. now inversion H; subst.
Qed.

(** A turn that starts with the flag set is aborted at its first poll,
    and the flag stays set. *)
Lemma stale_flag_aborts cfg GoogleSearch requests_post polls user_input s :
  interrupt_speech s = true -> (1 <= polls)%nat ->
  let result := process_input cfg GoogleSearch requests_post polls user_input s in
  fst result = Ret "Interrupted"
  /\ interrupt_speech (snd result) = true
  /\ search_calls (trace (snd result)) = search_calls (trace s)
  /\ post_calls (trace (snd result)) = post_calls (trace s).
Proof.
  intros Hs Hpolls result. subst result.
  pose proof (wait_loop_interrupted polls s 0 ltac:(lia)
                (signal_by_poll_first s Hs)) as Hwait.
  destruct (wait_loop polls s) as [out s1] eqn:Hrun. simpl in Hwait.
  subst out. rewrite (process_input_interrupted _ _ _ _ _ _ _ Hrun).
  pose proof (wait_loop_keeps_flag _ _ _ _ Hs Hrun) as Hflag.
  apply quiet_wait_loop in Hrun as [H1 H2]. simpl. auto.
Qed.

(** X13: nothing in a turn clears [interrupt_speech]: when the flag is
    set as [process_input] is called and the silence wait polls at least
    once, the turn returns "Interrupted" without a search or completion
    call, and the flag is still set afterwards, so every later turn ends
    the same way until [_speak_text] is called. *)
Theorem stale_flag_blocks_turns :
  forall cfg GoogleSearch requests_post polls user_input s,
    interrupt_speech s = true ->
    (1 <= polls)%nat ->
    let result := process_input cfg GoogleSearch requests_post polls user_input s in
    fst result = Ret "Interrupted"
    /\ interrupt_speech (snd result) = true
    /\ search_calls (trace (snd result)) = search_calls (trace s)
    /\ post_calls (trace (snd result)) = post_calls (trace s).
Proof. intros. now apply stale_flag_aborts. Qed.

Lemma stale_flag_blocks_turns_witness :
  fst (process_input cfg10 (Some (fun _ => SearchDict answer_and_pages))
         busy_then_ok 20 "hello" (set_interrupt_speech true st0))
  = Ret "Interrupted".
Proof.
  apply (stale_flag_blocks_turns cfg10 _ busy_then_ok 20 "hello"
           (set_interrupt_speech true st0)); [reflexivity | lia].
Defined.

(** X14: an interrupted utterance blocks the next turn.  If some read of
    the flag during a speech session found it set, the flag is still set
    when the session has ended, and the [process_input] that follows
    (with at least one poll) returns "Interrupted" without searching or
    asking the model. *)
Theorem interrupted_speech_blocks_next_turn :
  forall env text s cfg GoogleSearch requests_post polls user_input,
    let spoken := snd (_speak_text env text s) in
    has_true_read (drop (length (trace s)) (trace spoken)) = true ->
    (1 <= polls)%nat ->
    let result :=
      process_input cfg GoogleSearch requests_post polls user_input spoken in
    interrupt_speech spoken = true
    /\ fst result = Ret "Interrupted"
    /\ search_calls (trace (snd result)) = search_calls (trace spoken)
    /\ post_calls (trace (snd result)) = post_calls (trace spoken).
Proof.
  intros env text s cfg GoogleSearch requests_post polls user_input spoken
         Hread Hpolls result.
  assert (Hflag : interrupt_speech spoken = true).
  { subst spoken. rewrite speak_text_unfold in *.
    set (s0 := set_interrupt_speech false (set_speaking true s)) in *.
    destruct (speak_thread env text s0) as [out s'] eqn:Hrun. simpl in *.
    destruct (before_speak_thread env text s0 out s' eq_refl Hrun)
      as (d & Ht & _ & Hf).
    rewrite Hf. rewrite Ht in Hread.
    change (trace s0) with (trace s) in Hread.
    now rewrite drop_app_length in Hread. }
  split; [exact Hflag |].
  destruct (stale_flag_aborts cfg GoogleSearch requests_post polls user_input
              spoken Hflag Hpolls) as (H1 & _ & H2 & H3).
  auto.
Qed.

Lemma interrupted_speech_blocks_next_turn_witness :
  fst (process_input cfg10 (Some (fun _ => SearchDict answer_and_pages))
         busy_then_ok 20 "and then?"
         (snd (_speak_text plain_speech
                 "hello there how are you doing today my friend"
                 interrupted_early)))
  = Ret "Interrupted".
Proof.
  apply (interrupted_speech_blocks_next_turn plain_speech
           "hello there how are you doing today my friend" interrupted_early
           cfg10 _ busy_then_ok 20 "and then?"); [reflexivity | lia].
Defined.

(** ** Voice input *)

(** X15: [process_voice_input] searches and asks the model only after a
    silence wait that passed and a transcription that is not empty: when
    its wait is interrupted, or the microphone gives nothing (a timeout,
    unintelligible audio, a service error, any other exception, or the
    empty text), it returns [None] without a search or completion
    call. *)
Theorem voice_input_without_speech :
  forall cfg GoogleSearch requests_post polls polls' heard s,
    fst (_wait_for_silence polls s) = Ret false
    \/ (forall text, heard = Transcribed text -> text = "") ->
    let result :=
      process_voice_input cfg GoogleSearch requests_post polls polls' heard s in
    fst result = Ret None
    /\ search_calls (trace (snd result)) = search_calls (trace s)
    /\ post_calls (trace (snd result)) = post_calls (trace s).
Proof.
  intros cfg GoogleSearch requests_post polls polls' heard s H result.
  subst result.
  destruct (process_voice_input cfg GoogleSearch requests_post polls polls'
              heard s) as [out s'] eqn:Hrun.
  unfold process_voice_input, _wait_for_silence in *. unfold bind at 1 in Hrun.
  destruct (wait_loop_returns polls s) as (silent & s1 & Hwait).
  rewrite Hwait in Hrun.
  apply quiet_wait_loop in Hwait as Hquiet. destruct Hquiet as [H1 H2].
  assert (Hend : (out, s') = (Ret None, s1)).
  { destruct silent; simpl in Hrun.
    - destruct H as [H | H]; [rewrite Hwait in H; discriminate |].
      unfold bind, _listen_and_transcribe in Hrun.
      destruct heard as [t | | | m | m]; simpl in Hrun; run; try congruence.
      rewrite (H t eq_refl) in Hrun. simpl in Hrun. congruence.
    - run. congruence. }
  inversion Hend; subst. simpl. auto.
Qed.

Lemma voice_input_without_speech_witness :
  fst (process_voice_input cfg10 (Some (fun _ => SearchDict answer_and_pages))
         busy_then_ok 20 20 NotUnderstood st0)
  = Ret None.
Proof.
  apply (voice_input_without_speech cfg10 _ busy_then_ok 20 20 NotUnderstood st0).
  right. intros text H. discriminate.
Defined.

(** X16: the loop of [voice_chat] cannot recover from an interruption by
    itself.  A pass through the loop body that starts with
    [interrupt_speech] set (and polls at least once) takes the first
    [continue]: whatever the user says, nothing is transcribed into a
    turn, no search or completion call is made, no reply is produced,
    and the flag is still set for the next pass. *)
Theorem voice_chat_stalls_after_interruption :
  forall cfg GoogleSearch requests_post exit_phrases polls polls' heard s,
    interrupt_speech s = true ->
    (1 <= polls)%nat ->
    let result :=
      voice_chat_turn cfg GoogleSearch requests_post exit_phrases polls polls'
                      heard s in
    fst result = Ret Again
    /\ interrupt_speech (snd result) = true
    /\ search_calls (trace (snd result)) = search_calls (trace s)
    /\ post_calls (trace (snd result)) = post_calls (trace s).
Proof.
  intros cfg GoogleSearch requests_post exit_phrases polls polls' heard s
         Hs Hpolls result.
  subst result.
  pose proof (wait_loop_interrupted polls s 0 ltac:(lia)
                (signal_by_poll_first s Hs)) as Hwait.
  destruct (voice_chat_turn cfg GoogleSearch requests_post exit_phrases polls
              polls' heard s) as [out s'] eqn:Hrun.
  unfold voice_chat_turn, _wait_for_silence in Hrun. unfold bind at 1 in Hrun.
  destruct (wait_loop polls s) as [silent s1] eqn:Hloop. simpl in Hwait.
  subst silent. simpl in Hrun. run. inversion Hrun; subst. simpl.
  pose proof (wait_loop_keeps_flag _ _ _ _ Hs Hloop) as Hflag.
  apply quiet_wait_loop in Hloop as [H1 H2]. auto.
Qed.

Lemma voice_chat_stalls_after_interruption_witness :
  fst (voice_chat_turn cfg10 (Some (fun _ => SearchDict answer_and_pages))
         busy_then_ok default_exit_phrases 20 20 (Transcribed "what time is it")
         (snd (_speak_text plain_speech
                 "hello there how are you doing today my friend"
                 interrupted_early)))
  = Ret Again.
Proof.
  apply (voice_chat_stalls_after_interruption cfg10 _ busy_then_ok
           default_exit_phrases 20 20 (Transcribed "what time is it"));
    [reflexivity | lia].
Defined.

(** Without a stale flag the same pass answers, and an exit phrase in
    any letter case ends the chat. *)
Example voice_chat_turn_examples :
  fst (voice_chat_turn cfg10 (Some (fun _ => SearchDict answer_and_pages))
         busy_then_ok default_exit_phrases 20 20 (Transcribed "what time is it") st0)
  = Ret (Reply "Hello.")
  /\ fst (voice_chat_turn cfg10 (Some (fun _ => SearchDict answer_and_pages))
            busy_then_ok default_exit_phrases 20 20 (Transcribed "Goodbye") st0)
     = Ret Goodbye
  /\ fst (voice_chat_turn cfg10 (Some (fun _ => SearchDict answer_and_pages))
            busy_then_ok default_exit_phrases 20 20 WaitTimeout st0)
     = Ret Again.
Proof. repeat split; reflexivity. Qed.

(** ** The violation log only grows *)

Lemma appends_ret {A} (a : A) : appends (ret a).
Proof. intros s out s' H. run. inversion H; subst. exists []. now rewrite app_nil_r. Qed.

Lemma appends_raise {A} e : appends (@raise A e).
Proof. intros s out s' H. run. inversion H; subst. exists []. now rewrite app_nil_r. Qed.

Lemma appends_get : appends get.
Proof. intros s out s' H. run. inversion H; subst. exists []. now rewrite app_nil_r. Qed.

Lemma appends_modify f :
  (forall s, violations (f s) = violations s) -> appends (modify f).
Proof.
  intros Hf s out s' H. run. inversion H; subst. exists [].
  now rewrite app_nil_r, Hf.
Qed.

Lemma appends_emit e : appends (emit e).
Proof. now apply appends_modify. Qed.

Lemma appends_log msg : appends (_log_violation msg).
Proof. intros s out s' H. run. inversion H; subst. simpl. eauto. Qed.

Lemma appends_bind {A B} (m : M A) (k : A -> M B) :
  appends m -> (forall a, appends (k a)) -> appends (bind m k).
Proof.
  intros Hm Hk s out s' H. unfold bind in H.
  destruct (m s) as [[a | e] s1] eqn:Hrun;
    destruct (Hm _ _ _ Hrun) as [d1 H1].
  - destruct (Hk a _ _ _ H) as [d2 H2].
    exists (d1 ++ d2). now rewrite H2, H1, app_assoc.
  - inversion H; subst. eauto.
Qed.

Lemma appends_try {A} (m : M A) (h : Exn -> M A) :
  appends m -> (forall e, appends (h e)) -> appends (try_except m h).
Proof.
  intros Hm Hh s out s' H. unfold try_except in H.
  destruct (m s) as [[a | e] s1] eqn:Hrun;
    destruct (Hm _ _ _ Hrun) as [d1 H1].
  - inversion H; subst. eauto.
  - destruct (Hh e _ _ _ H) as [d2 H2].
    exists (d1 ++ d2). now rewrite H2, H1, app_assoc.
Qed.

Ltac appends_basic :=
  first [ apply appends_ret | apply appends_raise | apply appends_get
        | apply appends_log | apply appends_emit
        | apply appends_modify; reflexivity ].

Ltac appends_split :=
  first [ apply appends_bind; [| intros ?]
        | apply appends_try; [| intros ?]
        | match goal with
          | |- appends (if ?b then _ else _) => destruct b
          | |- appends (match ?x with _ => _ end) => destruct x
          end ].

Lemma appends_callback_outcome r : appends (callback_outcome r).
Proof. unfold callback_outcome. repeat first [appends_basic | appends_split]. Qed.

Lemma appends_callback r : appends (_interruption_callback r).
Proof.
  unfold _interruption_callback.
  repeat first [apply appends_callback_outcome | appends_basic | appends_split].
Qed.

Lemma appends_monitor_step a : appends (monitor_step a).
Proof.
  unfold monitor_step.
  repeat first [apply appends_callback_outcome | appends_basic | appends_split].
Qed.

Lemma appends_run_monitor acts : appends (run_monitor acts).
Proof.
  induction acts as [| a acts IH]; simpl; [apply appends_ret |].
  apply appends_bind; [apply appends_monitor_step | intros _; exact IH].
Qed.

Lemma appends_read : appends read_interrupt.
Proof.
  unfold read_interrupt.
  repeat first [apply appends_run_monitor | appends_basic | appends_split].
Qed.

Lemma appends_pure {A} (m : M A) :
  (forall s out s', m s = (out, s') -> s' = s) -> appends m.
Proof.
  intros Hm s out s' H. apply Hm in H. subst. exists [].
  now rewrite app_nil_r.
Qed.

Lemma appends_scan words idx : appends (scan_boundary words idx).
Proof. apply appends_pure. intros s out s'. apply scan_boundary_pure. Qed.

Lemma appends_str_last w : appends (str_last w).
Proof. apply appends_pure. intros s out s'. apply str_last_pure. Qed.

Lemma appends_try_models requests_post system user_input models last :
  appends (try_models requests_post system user_input models last).
Proof.
  intros s out s' H. apply try_models_trace in H as (_ & _ & H).
  exists []. now rewrite app_nil_r.
Qed.

(** One step of the search for a proof that a computation built from
    the pieces above only appends; loops are closed by their induction
    hypothesis. *)
Ltac appends_step :=
  first [ assumption
        | apply appends_read | apply appends_scan | apply appends_str_last
        | apply appends_try_models
        | appends_basic | appends_split ].

Ltac appends_auto := repeat appends_step.

Lemma appends_wait_loop polls : appends (wait_loop polls).
Proof. induction polls as [| polls IH]; simpl; appends_auto. Qed.

Lemma appends_search_web GoogleSearch query :
  appends (_search_web GoogleSearch query).
Proof. unfold _search_web. appends_auto. Qed.

Lemma appends_query_grok cfg requests_post user_input context :
  appends (_query_grok cfg requests_post user_input context).
Proof. unfold _query_grok, query_body, query_handler. appends_auto. Qed.

Lemma appends_shape cfg response user_input :
  appends (_limit_response_length cfg response user_input).
Proof. unfold _limit_response_length. appends_auto. Qed.

Lemma appends_limit_reply cfg response user_input :
  appends (limit_reply cfg response user_input).
Proof.
  unfold limit_reply.
  repeat first [apply appends_shape | appends_basic | appends_split].
Qed.

Lemma appends_process_input cfg GoogleSearch requests_post polls user_input :
  appends (process_input cfg GoogleSearch requests_post polls user_input).
Proof.
  unfold process_input, _wait_for_silence.
  repeat first [ apply appends_wait_loop | apply appends_search_web
               | apply appends_query_grok | apply appends_limit_reply
               | appends_basic | appends_split ].
Qed.

Lemma appends_poll_loop c running :
  forall safety, appends (poll_loop c running safety).
Proof.
  induction running as [| running IH]; intros safety; simpl; appends_auto.
  apply IH.
Qed.

Lemma appends_speak_chunk c chunk : appends (speak_chunk c chunk).
Proof.
  unfold speak_chunk.
  repeat first [apply appends_poll_loop | appends_step].
Qed.

Lemma appends_say_chunks env chunks :
  forall i, appends (say_chunks env i chunks).
Proof.
  induction chunks as [| chunk rest IH]; intros i; simpl.
  - apply appends_ret.
  - repeat first [apply appends_speak_chunk | apply IH | appends_step].
Qed.

Lemma appends_generation_wait polls : appends (generation_wait polls).
Proof. induction polls as [| polls IH]; simpl; appends_auto. Qed.

Lemma appends_speak_text env text : appends (_speak_text env text).
Proof.
  unfold _speak_text, speak_start, speak_thread, play_text, finish_session,
    _start_interruption_detection, elevenlabs_speak, stop_background_listener,
    run_callback.
  repeat first [ apply appends_generation_wait | apply appends_say_chunks
               | appends_step ].
Qed.

(** X17: the violation log only grows.  Whatever their collaborators and
    the listener thread do, [process_input], the interruption callback
    and a whole speech session leave every entry that was in the log
    where it was and at most add entries after it. *)
Theorem violation_log_only_grows :
  (forall cfg GoogleSearch requests_post polls user_input s,
      exists added,
        violations (snd (process_input cfg GoogleSearch requests_post polls
                           user_input s))
        = violations s ++ added)
  /\ (forall r s,
        exists added,
          violations (snd (_interruption_callback r s)) = violations s ++ added)
  /\ (forall env text s,
        exists added,
          violations (snd (_speak_text env text s)) = violations s ++ added).
Proof.
  repeat split.
  - intros cfg GoogleSearch requests_post polls user_input s.
    destruct (process_input cfg GoogleSearch requests_post polls user_input s)
      as [out s'] eqn:Hrun.
    exact (appends_process_input _ _ _ _ _ _ _ _ Hrun).
  - intros r s.
    destruct (_interruption_callback r s) as [out s'] eqn:Hrun.
    exact (appends_callback _ _ _ _ Hrun).
  - intros env text s.
    destruct (_speak_text env text s) as [out s'] eqn:Hrun.
    exact (appends_speak_text _ _ _ _ _ Hrun).
Qed.

(** ** Speech Interruption Monitor: repeated callbacks *)

Lemma callback_ignored r s :
  callback_guard s = false -> _interruption_callback r s = (Ret tt, s).
Proof. intros H. unfold _interruption_callback, bind, get. now rewrite H. Qed.

Lemma run_callbacks_ignored rs :
  forall s, callback_guard s = false -> run_callbacks rs s = (Ret tt, s).
Proof.
  induction rs as [| r rs IH]; intros s H; [reflexivity |].
  simpl. unfold bind. rewrite (callback_ignored r s H). now apply IH.
Qed.

(** One callback either changes nothing, or sets the flag and logs at
    most one violation. *)
Lemma callback_effect r s :
  _interruption_callback r s = (Ret tt, s)
  \/ exists s' added,
       _interruption_callback r s = (Ret tt, s')
       /\ callback_guard s' = false
       /\ violations s' = violations s ++ added
       /\ (length added <= 1)%nat.
Proof.
  destruct (callback_guard s) eqn:Hg; [| left; now apply callback_ignored].
  unfold _interruption_callback, bind, get. rewrite Hg.
  assert (Hset : forall x, interrupt_speech x = true -> callback_guard x = false).
  { intros x Hx. unfold callback_guard. rewrite Hx. now rewrite orb_true_r. }
  destruct r as [heard | | msg | msg]; simpl.
  - destruct (nonempty heard && (0 <? Py.len (Py.strip heard)));
      [| left; reflexivity].
    right. run. eexists _, [_]. repeat split; auto.
  - right. run. eexists _, [_]. repeat split; auto.
  - right. run. eexists _, [_]. repeat split; auto.
  - right. run. eexists _, []. repeat split; auto.
    simpl. now rewrite app_nil_r.
Qed.

(** X18: however many phrases the listener hears in a row, its callbacks
    log at most one violation: the first one that counts as an
    interruption sets the flag and every later one returns at its guard.
    Callbacks that arrive while the object is not speaking, or after the
    flag is set, change nothing at all. *)
Theorem listener_logs_at_most_once :
  forall rs s,
    (exists added,
        violations (snd (run_callbacks rs s)) = violations s ++ added
        /\ (length added <= 1)%nat)
    /\ (speaking s = false \/ interrupt_speech s = true ->
        run_callbacks rs s = (Ret tt, s)).
Proof.
  intros rs s. split.
  - revert s. induction rs as [| r rs IH]; intros s.
    + exists []. simpl. split; [now rewrite app_nil_r | lia].
    + simpl. unfold bind.
      destruct (callback_effect r s) as [-> | (s' & added & -> & Hg & Hv & Hlen)].
      * apply IH.
      * rewrite (run_callbacks_ignored rs s' Hg). simpl. eauto.
  - intros H. apply run_callbacks_ignored. unfold callback_guard.
    destruct H as [-> | ->]; [reflexivity |]. simpl. now rewrite orb_true_r.
Qed.

Example listener_hears_three_phrases :
  let s' := snd (run_callbacks [Heard "  "; Heard "wait"; UnknownValue; Heard "stop"]
                   (set_speaking true st0)) in
  messages s' = ["Speech interrupted by user input: wait"]
  /\ interrupt_speech s' = true.
Proof. split; reflexivity. Qed.

(** ** Speech Player: what is spoken *)

Lemma says_app t1 t2 : says (t1 ++ t2) = says t1 ++ says t2.
Proof. unfold says. apply omap_app. Qed.

Lemma says_of_weaken {A} (m : M A) (P Q : list string -> Prop) :
  says_of m P -> (forall l, P l -> Q l) -> says_of m Q.
Proof.
  intros Hm HPQ s out s' H. destruct (Hm _ _ _ H) as (d & Ht & HP). eauto.
Qed.

Lemma silent_ret {A} (a : A) : silent (ret a).
Proof. intros s out s' H. run. inversion H; subst. exists []. now rewrite app_nil_r. Qed.

Lemma silent_raise {A} e : silent (@raise A e).
Proof. intros s out s' H. run. inversion H; subst. exists []. now rewrite app_nil_r. Qed.

Lemma silent_get : silent get.
Proof. intros s out s' H. run. inversion H; subst. exists []. now rewrite app_nil_r. Qed.

Lemma silent_modify f : (forall s, trace (f s) = trace s) -> silent (modify f).
Proof.
  intros Hf s out s' H. run. inversion H; subst. exists [].
  now rewrite app_nil_r, Hf.
Qed.

Lemma silent_emit e : says [e] = [] -> silent (emit e).
Proof. intros He s out s' H. run. inversion H; subst. exists [e]. auto. Qed.

Lemma silent_says {A} (m : M A) (P : list string -> Prop) :
  silent m -> P [] -> says_of m P.
Proof.
  intros Hm HP. eapply says_of_weaken; [exact Hm |]. now intros l ->.
Qed.

(** Sequencing: the requests of [m] followed by those of [k]. *)
Lemma says_of_bind {A B} (m : M A) (k : A -> M B) (P Q R : list string -> Prop) :
  says_of m P -> (forall a, says_of (k a) Q) ->
  (forall l, P l -> R l) ->
  (forall l1 l2, P l1 -> Q l2 -> R (l1 ++ l2)) ->
  says_of (bind m k) R.
Proof.
  intros Hm Hk Hstop Hgo s out s' H. unfold bind in H.
  destruct (m s) as [[a | e] s1] eqn:Hrun;
    destruct (Hm _ _ _ Hrun) as (d1 & Ht1 & HP).
  - destruct (Hk a _ _ _ H) as (d2 & Ht2 & HQ).
    exists (d1 ++ d2). rewrite Ht2, Ht1, <- app_assoc, says_app. auto.
  - inversion H; subst. eauto.
Qed.

Lemma says_of_try {A} (m : M A) (h : Exn -> M A) (P Q R : list string -> Prop) :
  says_of m P -> (forall e, says_of (h e) Q) ->
  (forall l, P l -> R l) ->
  (forall l1 l2, P l1 -> Q l2 -> R (l1 ++ l2)) ->
  says_of (try_except m h) R.
Proof.
  intros Hm Hh Hstop Hgo s out s' H. unfold try_except in H.
  destruct (m s) as [[a | e] s1] eqn:Hrun;
    destruct (Hm _ _ _ Hrun) as (d1 & Ht1 & HP).
  - inversion H; subst. eauto.
  - destruct (Hh e _ _ _ H) as (d2 & Ht2 & HQ).
    exists (d1 ++ d2). rewrite Ht2, Ht1, <- app_assoc, says_app. auto.
Qed.

Lemma silent_bind {A B} (m : M A) (k : A -> M B) :
  silent m -> (forall a, silent (k a)) -> silent (bind m k).
Proof.
  intros Hm Hk. eapply says_of_bind; eauto.
  intros l1 l2 -> ->. reflexivity.
Qed.

Lemma silent_try {A} (m : M A) (h : Exn -> M A) :
  silent m -> (forall e, silent (h e)) -> silent (try_except m h).
Proof.
  intros Hm Hh. eapply says_of_try; eauto.
  intros l1 l2 -> ->. reflexivity.
Qed.

(** A silent computation before or after another one does not change
    what is said. *)
Lemma silent_before {A B} (m : M A) (k : A -> M B) P :
  silent m -> (forall a, says_of (k a) P) -> P [] -> says_of (bind m k) P.
Proof.
  intros Hm Hk Hnil. eapply says_of_bind; eauto.
  - now intros l ->.
  - now intros l1 l2 ->.
Qed.

Lemma silent_after {A B} (m : M A) (k : A -> M B) P :
  says_of m P -> (forall a, silent (k a)) -> says_of (bind m k) P.
Proof.
  intros Hm Hk. eapply says_of_bind; eauto.
  intros l1 l2 Hl ->. now rewrite app_nil_r.
Qed.

Lemma silent_handler {A} (m : M A) (h : Exn -> M A) P :
  says_of m P -> (forall e, silent (h e)) -> says_of (try_except m h) P.
Proof.
  intros Hm Hh. eapply says_of_try; eauto.
  intros l1 l2 Hl ->. now rewrite app_nil_r.
Qed.

Ltac silent_basic :=
  first [ apply silent_ret | apply silent_raise | apply silent_get
        | apply silent_emit; reflexivity
        | apply silent_modify; reflexivity ].

Ltac silent_split :=
  first [ apply silent_bind; [| intros ?]
        | apply silent_try; [| intros ?]
        | match goal with
          | |- silent (if ?b then _ else _) => destruct b
          | |- silent (match ?x with _ => _ end) => destruct x
          end ].

Lemma silent_callback_outcome r : silent (callback_outcome r).
Proof.
  unfold callback_outcome, _log_violation.
  repeat first [silent_basic | silent_split].
Qed.

Lemma silent_monitor_step a : silent (monitor_step a).
Proof.
  unfold monitor_step.
  repeat first [apply silent_callback_outcome | silent_basic | silent_split].
Qed.

Lemma silent_run_monitor acts : silent (run_monitor acts).
Proof.
  induction acts as [| a acts IH]; simpl; [apply silent_ret |].
  apply silent_bind; [apply silent_monitor_step | intros _; exact IH].
Qed.

Lemma silent_read : silent read_interrupt.
Proof.
  unfold read_interrupt.
  repeat first [apply silent_run_monitor | silent_basic | silent_split].
Qed.

Ltac silent_step :=
  first [ assumption | apply silent_read | silent_basic | silent_split ].

Ltac silent_auto := repeat silent_step.

Lemma silent_poll_loop c running :
  forall safety, silent (poll_loop c running safety).
Proof.
  induction running as [| running IH]; intros safety; simpl; silent_auto.
  apply IH.
Qed.

Lemma silent_generation_wait polls : silent (generation_wait polls).
Proof. induction polls as [| polls IH]; simpl; silent_auto. Qed.

Lemma silent_elevenlabs_speak env text : silent (elevenlabs_speak env text).
Proof.
  unfold elevenlabs_speak.
  repeat first [apply silent_generation_wait | silent_step].
Qed.

Lemma silent_finish_session env n : silent (finish_session env n).
Proof.
  unfold finish_session, stop_background_listener, run_callback. silent_auto.
Qed.

(** One chunk asks [say] for that chunk, once. *)
Lemma speak_chunk_says c chunk :
  says_of (speak_chunk c chunk) (fun l => l = [chunk]).
Proof.
  unfold speak_chunk. apply silent_handler; [| intros e; silent_auto].
  eapply says_of_bind with (P := fun l => l = [chunk]) (Q := fun l => l = []).
  - intros s out s' H. run. inversion H; subst. exists [Say chunk]. auto.
  - intros _. repeat first [apply silent_poll_loop | silent_step].
  - auto.
  - intros l1 l2 -> ->. reflexivity.
Qed.

Lemma say_chunks_says env chunks :
  forall i, says_of (say_chunks env i chunks)
              (fun l => exists rest, chunks = l ++ rest).
Proof.
  induction chunks as [| chunk rest IH]; intros i; simpl.
  - intros s out s' H. run. inversion H; subst. exists [].
    rewrite app_nil_r. split; [reflexivity | now exists []].
  - apply silent_before; [apply silent_read | | now exists (chunk :: rest)].
    intros b. destruct b.
    + apply silent_says; [silent_auto | now exists (chunk :: rest)].
    + eapply says_of_bind with (P := fun l => l = [chunk])
                               (Q := fun l => exists r, rest = l ++ r).
      * apply speak_chunk_says.
      * intros _. apply silent_before; [apply silent_read | | now exists rest].
        intros b. destruct b; [| apply IH].
        apply silent_says; [apply silent_ret | now exists rest].
      * intros l ->. now exists rest.
      * intros l1 l2 -> [r ->]. now exists r.
Qed.

Lemma play_text_says env text :
  says_of (play_text env text)
          (fun l => exists rest, chunk_list (Py.split text) = l ++ rest).
Proof.
  assert (Hnil : exists rest : list string,
             chunk_list (Py.split text) = [] ++ rest) by eauto.
  unfold play_text.
  apply silent_before; [| | exact Hnil].
  { unfold _start_interruption_detection. silent_auto. }
  intros _. apply silent_before; [apply silent_get | | exact Hnil].
  intros s1. apply silent_before; [| | exact Hnil].
  { destruct (_ && _); [apply silent_elevenlabs_speak | apply silent_ret]. }
  intros _. apply silent_before; [apply silent_get | | exact Hnil].
  intros s2. destruct (_ || _); [apply say_chunks_says |].
  apply silent_says; [apply silent_ret | exact Hnil].
Qed.

(** X19: in every speech session, whatever the listener and the speech
    processes do, the chunks handed to [say] are an initial segment of
    the chunks of the text, in order: no chunk is skipped, repeated or
    spoken out of turn. *)
Theorem session_speaks_chunks_in_order :
  forall env text s,
    exists spoken rest,
      says (trace (snd (_speak_text env text s))) = says (trace s) ++ spoken
      /\ chunk_list (Py.split text) = spoken ++ rest.
Proof.
  intros env text s. rewrite speak_text_unfold.
  set (s0 := set_interrupt_speech false (set_speaking true s)).
  destruct (speak_thread env text s0) as [out s'] eqn:Hrun. simpl.
  assert (Hsays : says_of (speak_thread env text)
                    (fun l => exists rest, chunk_list (Py.split text) = l ++ rest)).
  { unfold speak_thread. apply silent_handler.
    - apply silent_after; [apply play_text_says |].
      intros _. apply silent_finish_session.
    - intros e. apply silent_finish_session. }
  destruct (Hsays _ _ _ Hrun) as (d & Ht & rest & Hrest).
  exists (says d), rest. rewrite Ht, says_app. auto.
Qed.

(** ** Speech Player: the checks before speech and the kill in flight *)

Lemma adds_weaken {A} (m : M A) (P Q : list Event -> Prop) :
  adds m P -> (forall d, P d -> Q d) -> adds m Q.
Proof.
  intros Hm HPQ s out s' H. destruct (Hm _ _ _ H) as (d & Ht & HP). eauto.
Qed.

(** Sequencing, for a first part that may raise. *)
Lemma adds_bind {A B} (m : M A) (k : A -> M B) (P Q R : list Event -> Prop) :
  adds m P -> (forall a, adds (k a) Q) ->
  (forall d, P d -> R d) ->
  (forall d1 d2, P d1 -> Q d2 -> R (d1 ++ d2)) ->
  adds (bind m k) R.
Proof.
  intros Hm Hk Hstop Hgo s out s' H. unfold bind in H.
  destruct (m s) as [[a | e] s1] eqn:Hrun;
    destruct (Hm _ _ _ Hrun) as (d1 & Ht1 & HP).
  - destruct (Hk a _ _ _ H) as (d2 & Ht2 & HQ).
    exists (d1 ++ d2). rewrite Ht2, Ht1, <- app_assoc. auto.
  - inversion H; subst. eauto.
Qed.

Lemma adds_try {A} (m : M A) (h : Exn -> M A) (P Q R : list Event -> Prop) :
  adds m P -> (forall e, adds (h e) Q) ->
  (forall d, P d -> R d) ->
  (forall d1 d2, P d1 -> Q d2 -> R (d1 ++ d2)) ->
  adds (try_except m h) R.
Proof.
  intros Hm Hh Hstop Hgo s out s' H. unfold try_except in H.
  destruct (m s) as [[a | e] s1] eqn:Hrun;
    destruct (Hm _ _ _ Hrun) as (d1 & Ht1 & HP).
  - inversion H; subst. eauto.
  - destruct (Hh e _ _ _ H) as (d2 & Ht2 & HQ).
    exists (d1 ++ d2). rewrite Ht2, Ht1, <- app_assoc. auto.
Qed.

(** After a request, which never raises. *)
Lemma adds_emit_bind {A} e (k : M A) (Q R : list Event -> Prop) :
  adds k Q -> (forall d, Q d -> R (e :: d)) ->
  adds (bind (emit e) (fun _ => k)) R.
Proof.
  intros Hk HR s out s' H. unfold bind, emit, modify in H.
  destruct (Hk _ _ _ H) as (d & Ht & HQ). simpl in Ht.
  exists (e :: d). rewrite Ht, <- app_assoc. auto.
Qed.

Lemma adds_ret_bind {A B} (a : A) (k : A -> M B) (R : list Event -> Prop) :
  adds (k a) R -> adds (bind (ret a) k) R.
Proof. intros Hk s out s' H. exact (Hk s out s' H). Qed.

(** After a read of the flag, by what the read found. *)
Lemma adds_read_bind {A} (k : bool -> M A) (Qt Qf R : list Event -> Prop) :
  adds (k true) Qt -> adds (k false) Qf ->
  (forall d, Qt d -> R (ReadFlag true :: d)) ->
  (forall d, Qf d -> R (ReadFlag false :: d)) ->
  adds (bind read_interrupt k) R.
Proof.
  intros Ht Hf HRt HRf s out s' H. unfold bind in H.
  destruct (read_interrupt_run s) as (s1 & Hrun & Htr & _).
  rewrite Hrun in H.
  destruct (interrupt_speech s1).
  - destruct (Ht _ _ _ H) as (d & Hd & HQ).
    exists (ReadFlag true :: d). rewrite Hd, Htr, <- app_assoc. auto.
  - destruct (Hf _ _ _ H) as (d & Hd & HQ).
    exists (ReadFlag false :: d). rewrite Hd, Htr, <- app_assoc. auto.
Qed.

Section Closed.
Variable P : list Event -> Prop.
Hypothesis HP : closed P.

Lemma closed_ret {A} (a : A) : adds (ret a) P.
Proof.
  intros s out s' H. run. inversion H; subst. exists [].
  rewrite app_nil_r. split; [reflexivity | apply HP].
Qed.

Lemma closed_raise {A} e : adds (@raise A e) P.
Proof.
  intros s out s' H. run. inversion H; subst. exists [].
  rewrite app_nil_r. split; [reflexivity | apply HP].
Qed.

Lemma closed_get : adds get P.
Proof.
  intros s out s' H. run. inversion H; subst. exists [].
  rewrite app_nil_r. split; [reflexivity | apply HP].
Qed.

Lemma closed_modify f : (forall s, trace (f s) = trace s) -> adds (modify f) P.
Proof.
  intros Hf s out s' H. run. inversion H; subst. exists [].
  rewrite app_nil_r, Hf. split; [reflexivity | apply HP].
Qed.

Lemma closed_emit e : P [e] -> adds (emit e) P.
Proof. intros He s out s' H. run. inversion H; subst. exists [e]. auto. Qed.

Lemma closed_bind {A B} (m : M A) (k : A -> M B) :
  adds m P -> (forall a, adds (k a) P) -> adds (bind m k) P.
Proof.
  intros Hm Hk. eapply adds_bind; eauto. apply HP.
Qed.

Lemma closed_try {A} (m : M A) (h : Exn -> M A) :
  adds m P -> (forall e, adds (h e) P) -> adds (try_except m h) P.
Proof.
  intros Hm Hh. eapply adds_try; eauto. apply HP.
Qed.

Lemma closed_read : adds read_interrupt P.
Proof.
  intros s out s' H.
  destruct (read_interrupt_run s) as (s1 & Hrun & Htr & _).
  rewrite Hrun in H. inversion H; subst.
  eexists. split; [exact Htr | apply HP].
Qed.
End Closed.

(** One step of the search for a proof that a computation adds a trace
    with the closed property [P]; [tac] proves [P] of one event. *)
Ltac closed_step HP tac :=
  first [ assumption
        | apply (closed_read _ HP)
        | apply (closed_ret _ HP) | apply (closed_raise _ HP)
        | apply (closed_get _ HP)
        | apply closed_emit; tac
        | apply (closed_modify _ HP); reflexivity
        | apply (closed_bind _ HP); [| intros ?]
        | apply (closed_try _ HP); [| intros ?]
        | match goal with
          | |- adds (if ?b then _ else _) _ => destruct b
          | |- adds (match ?x with _ => _ end) _ => destruct x
          end ].

Lemma speechless_closed : closed speechless.
Proof.
  split; [reflexivity | split].
  - intros d1 d2 H1 H2. unfold speechless in *.
    now rewrite forallb_app, H1, H2.
  - now intros [].
Qed.

Lemma checked_app clear d1 d2 :
  checked_from clear d1 = true ->
  (forall clear', checked_from clear' d2 = true) ->
  checked_from clear (d1 ++ d2) = true.
Proof.
  revert clear. induction d1 as [| e d1 IH]; intros clear H1 H2; simpl; [auto |].
  simpl in H1. apply andb_true_iff in H1 as [-> H1]. simpl. now apply IH.
Qed.

Lemma checked_and_silent_closed : closed checked_and_silent.
Proof.
  split; [now split | split].
  - intros d1 d2 [Hc1 Hs1] [Hc2 Hs2]. split.
    + intros clear. now apply checked_app.
    + now rewrite says_app, Hs1, Hs2.
  - intros b. now split.
Qed.

Lemma speechless_checked d clear : speechless d -> checked_from clear d = true.
Proof.
  revert clear. induction d as [| e d IH]; intros clear H; [reflexivity |].
  unfold speechless in H. simpl in H. apply andb_true_iff in H as [He H].
  simpl. destruct (is_speech e); [discriminate |]. now apply IH.
Qed.

Lemma speechless_says d : speechless d -> says d = [].
Proof.
  induction d as [| e d IH]; intros H; [reflexivity |].
  unfold speechless in H. simpl in H. apply andb_true_iff in H as [He H].
  destruct e; try discriminate; now apply IH.
Qed.

Lemma speechless_silent d : speechless d -> checked_and_silent d.
Proof.
  intros H. split; [intros clear; now apply speechless_checked |].
  now apply speechless_says.
Qed.

(** *** Where a [say] request sits in a trace made of two parts *)

Lemma app_split_at {A} (d1 d2 before : list A) x after :
  d1 ++ d2 = before ++ x :: after ->
  (exists rest, d1 = before ++ x :: rest /\ after = rest ++ d2)
  \/ (exists more, before = d1 ++ more /\ d2 = more ++ x :: after).
Proof.
  revert before. induction d1 as [| a d1 IH]; intros before H.
  - right. now exists before.
  - destruct before as [| b before]; simpl in H; inversion H; subst.
    + left. now exists d1.
    + destruct (IH _ H2) as [(rest & -> & ->) | (more & -> & ->)].
      * left. now exists rest.
      * right. now exists more.
Qed.

Lemma says_has_request before chunk after :
  says (before ++ Say chunk :: after) <> [].
Proof.
  rewrite says_app. simpl. intros H. apply app_eq_nil in H as [_ H].
  discriminate.
Qed.

Lemma kills_from_silent env i d : says d = [] -> kills_from env i d.
Proof.
  intros Hd before chunk after l ->. now apply says_has_request in Hd.
Qed.

Lemma kills_from_app env i d1 d2 :
  kills_from env i d1 -> kills_from env (i + length (says d1)) d2 ->
  kills_from env i (d1 ++ d2).
Proof.
  intros H1 H2 before chunk after l Heq.
  apply app_split_at in Heq as [(rest & -> & ->) | (more & -> & ->)].
  - rewrite <- app_assoc. now apply (H1 before chunk rest (d2 ++ l)).
  - rewrite says_app, length_app, Nat.add_assoc.
    now apply (H2 more chunk after l).
Qed.

Lemma kills_from_request env i chunk rest :
  says rest = [] ->
  (popen_ok (chunk_env env i) = true ->
   forall l, kill_on_poll (running_polls (chunk_env env i))
               (safety_polls (chunk_env env i)) (rest ++ l)) ->
  kills_from env i (Say chunk :: rest).
Proof.
  intros Hrest Hkill before chunk' after l Heq.
  destruct before as [| e before]; simpl in Heq; inversion Heq; subst.
  - simpl. rewrite Nat.add_0_r. intros Hpopen. now apply Hkill.
  - now apply says_has_request in Hrest.
Qed.

(** *** The polls while a chunk plays *)

Lemma kill_on_poll_hit running safety l :
  kill_on_poll running safety (ReadFlag true :: KillProc :: Pkill :: l).
Proof.
  intros j rest Heq _ _. destruct j as [| j]; simpl in Heq; inversion Heq.
  now exists l.
Qed.

Lemma kill_on_poll_next running safety d :
  kill_on_poll running safety d ->
  kill_on_poll (S running) (S safety) (ReadFlag false :: d).
Proof.
  intros Hd j rest Heq Hj Hj'. destruct j as [| j]; simpl in Heq;
    inversion Heq. apply (Hd j rest); [assumption | lia | lia].
Qed.

Lemma kill_on_poll_limit running l :
  kill_on_poll running 0 (ReadFlag false :: l).
Proof.
  intros j rest Heq _ Hj. destruct j as [| j]; [| lia]. discriminate.
Qed.

Lemma kill_on_poll_over safety l : kill_on_poll 0 safety l.
Proof. intros j rest _ Hj _. lia. Qed.

(** The loop of polls adds no request, and kills the process at the
    poll that finds the flag set, whatever comes after the loop. *)
Lemma poll_loop_kills c running :
  forall safety,
    adds (poll_loop c running safety)
         (fun d => speechless d
                   /\ forall l, kill_on_poll running safety (d ++ l)).
Proof.
  induction running as [| running IH]; intros safety; simpl.
  - intros s out s' H. run. inversion H; subst. exists [].
    rewrite app_nil_r. repeat split. intros l. apply kill_on_poll_over.
  - destruct safety as [| safety].
    + eapply adds_read_bind
        with (Qt := fun d => d = [KillProc; Pkill])
             (Qf := fun d => d = [KillProc]).
      * eapply adds_emit_bind with (Q := fun d => d = [Pkill]);
          [| now intros d ->].
        eapply adds_emit_bind with (Q := fun d => d = []);
          [| now intros d ->].
        intros s out s' H. exists []. rewrite app_nil_r.
        destruct (pkill_in_loop c); run; now inversion H.
      * eapply adds_emit_bind with (Q := fun d => d = []);
          [| now intros d ->].
        intros s out s' H. run. inversion H; subst. exists [].
        now rewrite app_nil_r.
      * intros d ->. split; [reflexivity |]. intros l.
        apply kill_on_poll_hit.
      * intros d ->. split; [reflexivity |]. intros l.
        apply kill_on_poll_limit.
    + eapply adds_read_bind
        with (Qt := fun d => d = [KillProc; Pkill])
             (Qf := fun d => speechless d
                             /\ forall l, kill_on_poll running safety (d ++ l)).
      * eapply adds_emit_bind with (Q := fun d => d = [Pkill]);
          [| now intros d ->].
        eapply adds_emit_bind with (Q := fun d => d = []);
          [| now intros d ->].
        intros s out s' H. exists []. rewrite app_nil_r.
        destruct (pkill_in_loop c); run; now inversion H.
      * apply IH.
      * intros d ->. split; [reflexivity |]. intros l.
        apply kill_on_poll_hit.
      * intros d [Hd Hkill]. split; [exact Hd |]. intros l.
        apply kill_on_poll_next, Hkill.
Qed.

Lemma speechless_handler c e :
  adds (if is_timeout_expired e then
          emit Pkill ;;;
          if pkill_in_handler_ok c then ret tt
          else raise (other_error "pkill")
        else ret tt)
       speechless.
Proof. repeat (closed_step speechless_closed ltac:(exact eq_refl)). Qed.

(** One chunk: the request, then nothing that makes sound, and the
    kill at the poll that finds the flag set. *)
Lemma speak_chunk_kills c chunk :
  adds (speak_chunk c chunk)
       (fun d => exists rest,
            d = Say chunk :: rest /\ speechless rest
            /\ (popen_ok c = true ->
                forall l, kill_on_poll (running_polls c) (safety_polls c)
                            (rest ++ l))).
Proof.
  set (tail_ok := fun d => speechless d
                           /\ (popen_ok c = true ->
                               forall l, kill_on_poll (running_polls c)
                                           (safety_polls c) (d ++ l))).
  set (chunk_ok := fun d => exists rest, d = Say chunk :: rest /\ tail_ok rest).
  change (adds (speak_chunk c chunk) chunk_ok).
  unfold speak_chunk.
  apply adds_try with (P := chunk_ok) (Q := speechless);
    [| intros e; apply speechless_handler | auto |].
  - apply adds_emit_bind with (Q := tail_ok);
      [| intros d Hd; now exists d].
    destruct (popen_ok c) eqn:Hpopen.
    + apply adds_ret_bind.
      apply adds_bind
        with (P := fun d => speechless d
                            /\ forall l, kill_on_poll (running_polls c)
                                           (safety_polls c) (d ++ l))
             (Q := speechless).
      * apply poll_loop_kills.
      * intros _. repeat (closed_step speechless_closed ltac:(exact eq_refl)).
      * intros d [Hd Hkill]. split; auto.
      * intros d1 d2 [Hd1 Hkill] Hd2. split.
        -- now apply speechless_closed.
        -- intros _ l. rewrite <- app_assoc. apply Hkill.
    + intros s out s' H. run. inversion H; subst. exists [].
      rewrite app_nil_r. split; [reflexivity |]. split; [reflexivity |].
      discriminate.
  - intros d1 d2 (rest & -> & Hrest & Hkill) Hd2. exists (rest ++ d2).
    split; [reflexivity |]. split.
    + now apply speechless_closed.
    + intros Hpopen l. rewrite <- app_assoc. now apply Hkill.
Qed.

Lemma checked_and_killed_read env i b d :
  checked_from (negb b) d = true -> kills_from env i d ->
  checked_and_killed env i (ReadFlag b :: d).
Proof.
  intros Hc Hk. split.
  - intros clear. simpl. now destruct b.
  - apply (kills_from_app env i [ReadFlag b] d).
    + now apply kills_from_silent.
    + simpl. now rewrite Nat.add_0_r.
Qed.

(** The loop over the chunks, from chunk number [i]. *)
Lemma say_chunks_checked env chunks :
  forall i, adds (say_chunks env i chunks) (checked_and_killed env i).
Proof.
  induction chunks as [| chunk chunks IH]; intros i; simpl.
  - intros s out s' H. run. inversion H; subst. exists [].
    rewrite app_nil_r. repeat split. now apply kills_from_silent.
  - eapply adds_read_bind
      with (Qt := speechless)
           (Qf := fun d => checked_from true d = true /\ kills_from env i d).
    + repeat (closed_step speechless_closed ltac:(exact eq_refl)).
    + eapply adds_bind with (Q := checked_and_killed env (S i));
        [apply speak_chunk_kills | | |].
      * intros _.
        eapply adds_read_bind
          with (Qt := speechless) (Qf := checked_and_killed env (S i)).
        -- apply (closed_ret _ speechless_closed).
        -- apply IH.
        -- intros d Hd. apply checked_and_killed_read.
           ++ now apply speechless_checked.
           ++ now apply kills_from_silent, speechless_says.
        -- intros d [Hc Hk]. now apply checked_and_killed_read.
      * intros d (rest & -> & Hrest & Hkill). split.
        -- simpl. now apply speechless_checked.
        -- apply kills_from_request; [now apply speechless_says | exact Hkill].
      * intros d1 d2 (rest & -> & Hrest & Hkill) [Hc Hk]. split.
        -- apply (checked_app true (Say chunk :: rest) d2); [| exact Hc].
           simpl. now apply speechless_checked.
        -- apply kills_from_app.
           ++ apply kills_from_request;
                [now apply speechless_says | exact Hkill].
           ++ simpl. rewrite (speechless_says rest Hrest). simpl.
              now rewrite Nat.add_1_r.
    + intros d Hd. apply checked_and_killed_read.
      * now apply speechless_checked.
      * now apply kills_from_silent, speechless_says.
    + intros d [Hc Hk]. now apply checked_and_killed_read.
Qed.

Lemma silent_generation_checked polls :
  adds (generation_wait polls) checked_and_silent.
Proof.
  induction polls as [| polls IH]; simpl;
    repeat (closed_step checked_and_silent_closed ltac:(now split)).
Qed.

(** The ElevenLabs branch asks for playback only right after a read
    that found the flag clear. *)
Lemma elevenlabs_speak_checked env text :
  adds (elevenlabs_speak env text) checked_and_silent.
Proof.
  pose proof checked_and_silent_closed as HP.
  unfold elevenlabs_speak.
  apply (closed_try _ HP); [| intros e; apply (closed_modify _ HP); reflexivity].
  apply (closed_bind _ HP); [apply closed_emit; now split |].
  intros _. apply (closed_bind _ HP); [apply silent_generation_checked |].
  intros finished. cbv zeta.
  apply (closed_bind _ HP);
    [destruct (_ && _); repeat (closed_step HP ltac:(now split)) |].
  intros _.
  eapply adds_read_bind
    with (Qt := checked_and_silent)
         (Qf := fun d => checked_from true d = true /\ says d = []).
  - apply (closed_ret _ HP).
  - simpl negb. destruct (true && _).
    + eapply adds_emit_bind with (Q := checked_and_silent).
      * repeat (closed_step HP ltac:(now split)).
      * intros d [Hc Hs]. split; [simpl; apply Hc | exact Hs].
    + intros s out s' H. run. inversion H; subst. exists [].
      now rewrite app_nil_r.
  - intros d [Hc Hs]. split; [intros clear; simpl; apply Hc | exact Hs].
  - intros d [Hc Hs]. split; [intros clear; simpl; exact Hc | exact Hs].
Qed.

Lemma checked_and_killed_after env d1 d2 :
  checked_and_silent d1 -> checked_and_killed env 0 d2 ->
  checked_and_killed env 0 (d1 ++ d2).
Proof.
  intros [Hc1 Hs1] [Hc2 Hk2]. split.
  - intros clear. now apply checked_app.
  - apply kills_from_app; [now apply kills_from_silent |].
    now rewrite Hs1.
Qed.

Lemma checked_and_killed_before env d1 d2 :
  checked_and_killed env 0 d1 -> speechless d2 ->
  checked_and_killed env 0 (d1 ++ d2).
Proof.
  intros [Hc1 Hk1] Hd2. split.
  - intros clear. apply checked_app; [apply Hc1 |].
    intros clear'. now apply speechless_checked.
  - apply kills_from_app; [exact Hk1 |].
    now apply kills_from_silent, speechless_says.
Qed.

Lemma checked_and_silent_killed env d :
  checked_and_silent d -> checked_and_killed env 0 d.
Proof. intros [Hc Hs]. split; [exact Hc | now apply kills_from_silent]. Qed.

Lemma play_text_checked env text :
  adds (play_text env text) (checked_and_killed env 0).
Proof.
  pose proof checked_and_silent_closed as HP.
  unfold play_text.
  eapply adds_bind with (P := checked_and_silent);
    [| | apply checked_and_silent_killed | apply checked_and_killed_after].
  { unfold _start_interruption_detection.
    repeat (closed_step HP ltac:(now split)). }
  intros _.
  eapply adds_bind with (P := checked_and_silent);
    [apply (closed_get _ HP) | | apply checked_and_silent_killed
    | apply checked_and_killed_after].
  intros s1.
  eapply adds_bind with (P := checked_and_silent);
    [| | apply checked_and_silent_killed | apply checked_and_killed_after].
  { destruct (_ && _); [apply elevenlabs_speak_checked | apply (closed_ret _ HP)]. }
  intros _.
  eapply adds_bind with (P := checked_and_silent);
    [apply (closed_get _ HP) | | apply checked_and_silent_killed
    | apply checked_and_killed_after].
  intros s2. destruct (_ || _); [apply say_chunks_checked |].
  eapply adds_weaken; [apply (closed_ret _ HP) | apply checked_and_silent_killed].
Qed.

Lemma finish_session_speechless env n : adds (finish_session env n) speechless.
Proof.
  unfold finish_session, stop_background_listener, run_callback.
  repeat (closed_step speechless_closed ltac:(exact eq_refl)).
Qed.

Lemma speak_thread_checked env text :
  adds (speak_thread env text) (checked_and_killed env 0).
Proof.
  unfold speak_thread.
  apply adds_try with (P := checked_and_killed env 0) (Q := speechless);
    [| intros e; apply finish_session_speechless | auto
     | apply checked_and_killed_before].
  apply adds_bind with (P := checked_and_killed env 0) (Q := speechless);
    [apply play_text_checked | intros _; apply finish_session_speechless
    | auto | apply checked_and_killed_before].
Qed.


(** ** Speech Player: the chunks of a text *)

Lemma chunks_cover {A} (l : list A) c m :
  concat (map (fun i => take c (drop i l)) (map (fun k => (k * c)%nat) (seq 0 m)))
  = take (m * c) l.
Proof.
  induction m as [| m IH]; [reflexivity |].
  rewrite seq_S, !map_app, concat_app, IH. simpl. rewrite app_nil_r.
  rewrite take_take_drop. f_equal. lia.
Qed.

Lemma chunk_count_covers n : (n <= (n + 5 - 1) / 5 * 5)%nat.
Proof.
  pose proof (Nat.div_mod_eq (n + 5 - 1) 5) as H.
  pose proof (Nat.mod_upper_bound (n + 5 - 1) 5 ltac:(lia)) as H'.
  lia.
Qed.

Lemma chunk_start_inside n k : (k < (n + 5 - 1) / 5)%nat -> (k * 5 < n)%nat.
Proof.
  intros Hk.
  pose proof (Nat.div_mod_eq (n + 5 - 1) 5) as H.
  pose proof (Nat.mod_upper_bound (n + 5 - 1) 5 ltac:(lia)) as H'.
  nia.
Qed.

(** X20: cutting a text into chunks loses nothing and invents nothing:
    the words of the chunks, taken in order, are the words of the text,
    and every chunk has at least one and at most five words. *)
Theorem chunks_keep_the_words :
  forall text,
    concat (map Py.split (chunk_list (Py.split text))) = Py.split text
    /\ Forall (fun chunk => 1 <= word_count chunk <= 5)
              (chunk_list (Py.split text)).
Proof.
  intros text. pose proof (split_words text) as Hwords.
  set (words := Py.split text) in *.
  unfold chunk_list, chunk_starts. split.
  - rewrite map_map.
    rewrite (map_ext_in _ (fun i => take 5 (drop i words))).
    + rewrite chunks_cover. apply take_ge, chunk_count_covers.
    + intros i _. apply split_join. now apply Forall_take, Forall_drop.
  - apply Forall_forall. intros chunk Hin.
    apply list_elem_of_In, in_map_iff in Hin as (i & <- & Hi).
    apply in_map_iff in Hi as (k & <- & Hk). apply in_seq in Hk.
    unfold word_count.
    rewrite split_join by (now apply Forall_take, Forall_drop).
    rewrite length_take, length_drop.
    pose proof (chunk_start_inside (length words) k ltac:(lia)). lia.
Qed.

Example chunk_list_examples :
  chunk_list (Py.split "  one two three four five   six seven ")
  = ["one two three four five"; "six seven"]
  /\ chunk_list (Py.split "   ") = []
  /\ chunk_list (Py.split "a b c d e") = ["a b c d e"].
Proof. repeat split; reflexivity. Qed.

(** ** Speech Player: the listener is always released *)

Lemma keeps_ret {A} (a : A) : keeps_handle (ret a).
Proof. intros s out s' H. run. now inversion H; subst. Qed.

Lemma keeps_raise {A} e : keeps_handle (@raise A e).
Proof. intros s out s' H. run. now inversion H; subst. Qed.

Lemma keeps_get : keeps_handle get.
Proof. intros s out s' H. run. now inversion H; subst. Qed.

Lemma keeps_modify f :
  (forall s, background_listener_stop s = true ->
             background_listener_stop (f s) = true) ->
  keeps_handle (modify f).
Proof. intros Hf s out s' H. run. inversion H; subst. apply Hf. Qed.

Lemma keeps_bind {A B} (m : M A) (k : A -> M B) :
  keeps_handle m -> (forall a, keeps_handle (k a)) -> keeps_handle (bind m k).
Proof.
  intros Hm Hk s out s' H Hs. unfold bind in H.
  destruct (m s) as [[a | e] s1] eqn:Hrun; pose proof (Hm _ _ _ Hrun Hs).
  - eapply Hk; eassumption.
  - now inversion H; subst.
Qed.

Lemma keeps_try {A} (m : M A) (h : Exn -> M A) :
  keeps_handle m -> (forall e, keeps_handle (h e)) ->
  keeps_handle (try_except m h).
Proof.
  intros Hm Hh s out s' H Hs. unfold try_except in H.
  destruct (m s) as [[a | e] s1] eqn:Hrun; pose proof (Hm _ _ _ Hrun Hs).
  - now inversion H; subst.
  - eapply Hh; eassumption.
Qed.

Ltac keeps_basic :=
  first [ apply keeps_ret | apply keeps_raise | apply keeps_get
        | apply keeps_modify; intros ? ?; first [assumption | reflexivity] ].

Ltac keeps_split :=
  first [ apply keeps_bind; [| intros ?]
        | apply keeps_try; [| intros ?]
        | match goal with
          | |- keeps_handle (if ?b then _ else _) => destruct b
          | |- keeps_handle (match ?x with _ => _ end) => destruct x
          end ].

Lemma keeps_monitor_step a : keeps_handle (monitor_step a).
Proof.
  unfold monitor_step, callback_outcome, _log_violation.
  repeat first [keeps_basic | keeps_split].
Qed.

Lemma keeps_run_monitor acts : keeps_handle (run_monitor acts).
Proof.
  induction acts as [| a acts IH]; simpl; [apply keeps_ret |].
  apply keeps_bind; [apply keeps_monitor_step | intros _; exact IH].
Qed.

Lemma keeps_read : keeps_handle read_interrupt.
Proof.
  unfold read_interrupt, emit.
  repeat first [apply keeps_run_monitor | keeps_basic | keeps_split].
Qed.

Ltac keeps_step :=
  first [ assumption | apply keeps_read | keeps_basic | keeps_split ].

Ltac keeps_auto := repeat keeps_step.

Lemma keeps_poll_loop c running :
  forall safety, keeps_handle (poll_loop c running safety).
Proof.
  induction running as [| running IH]; intros safety; simpl; unfold emit;
    keeps_auto.
  apply IH.
Qed.

Lemma keeps_say_chunks env chunks :
  forall i, keeps_handle (say_chunks env i chunks).
Proof.
  induction chunks as [| chunk rest IH]; intros i; simpl; unfold emit.
  - apply keeps_ret.
  - unfold speak_chunk, emit.
    repeat first [apply keeps_poll_loop | apply IH | keeps_step].
Qed.

Lemma keeps_generation_wait polls : keeps_handle (generation_wait polls).
Proof. induction polls as [| polls IH]; simpl; keeps_auto. Qed.

Lemma keeps_play_text env text : keeps_handle (play_text env text).
Proof.
  unfold play_text, _start_interruption_detection, elevenlabs_speak, emit.
  repeat first [ apply keeps_generation_wait | apply keeps_say_chunks
               | keeps_step ].
Qed.

(** When the listener can be started, the player holds its handle by the
    time playback is over, however playback went. *)
Lemma play_text_holds_handle env text s out s' :
  listener_starts env = true -> speaking s = true ->
  play_text env text s = (out, s') ->
  background_listener_stop s' = true.
Proof.
  intros Hstart Hspeak Hrun.
  destruct (background_listener_stop s) eqn:Hs.
  - eapply keeps_play_text; eassumption.
  - unfold play_text in Hrun. unfold bind at 1 in Hrun.
    unfold _start_interruption_detection in Hrun. unfold bind at 1 in Hrun.
    unfold get at 1 in Hrun. rewrite Hspeak, Hstart in Hrun. simpl in Hrun.
    unfold bind at 1 in Hrun. unfold emit, modify in Hrun. simpl in Hrun.
    match type of Hrun with
    | ?k ?s1 = _ =>
        assert (Hk : keeps_handle k);
        [| exact (Hk s1 out s' Hrun eq_refl)]
    end.
    unfold elevenlabs_speak, emit.
    repeat first [ apply keeps_generation_wait | apply keeps_say_chunks
                 | keeps_step ].
Qed.

(** The end of a session clears the handle, and stops the listener when
    there was one. *)
Lemma finish_session_releases env n s out s' :
  finish_session env n s = (out, s') ->
  background_listener_stop s' = false
  /\ exists d, trace s' = trace s ++ d
               /\ (background_listener_stop s = true -> In StopListener d).
Proof.
  unfold finish_session, stop_background_listener, run_callback.
  unfold bind, modify, get, emit. simpl.
  destruct (background_listener_stop s) eqn:Hs; simpl;
    destruct (has_callback env); simpl;
    try destruct (callback_ok env n); run;
    intros H; inversion H; subst; simpl; (split; [assumption || reflexivity |]);
    rewrite <- ?app_assoc;
    first [ eexists; split; [reflexivity |]; simpl; now auto
          | exists []; split; [now rewrite app_nil_r | discriminate] ].
Qed.

Lemma speak_thread_releases env text s out s' :
  speaking s = true ->
  speak_thread env text s = (out, s') ->
  background_listener_stop s' = false
  /\ exists d, trace s' = trace s ++ d
               /\ (listener_starts env = true -> In StopListener d).
Proof.
  intros Hspeak.
  assert (Hplay : says_of (play_text env text) (fun _ => True)).
  { eapply says_of_weaken; [apply play_text_says | auto]. }
  unfold speak_thread, try_except. unfold bind at 1.
  destruct (play_text env text s) as [[[] | e] s1] eqn:Hrun;
    destruct (Hplay _ _ _ Hrun) as (d1 & Ht1 & _).
  - destruct (finish_session env 0 s1) as [[[] | e] s2] eqn:Hfin.
    + destruct (finish_session_releases _ _ _ _ _ Hfin)
        as (Hclear & d2 & Ht2 & Hstop).
      intros H. inversion H; subst. split; [exact Hclear |].
      exists (d1 ++ d2). rewrite Ht2, Ht1, <- app_assoc.
      split; [reflexivity |]. intros Hstart.
      apply in_or_app. right. apply Hstop.
      eapply play_text_holds_handle; eauto.
    + destruct (finish_session_releases _ _ _ _ _ Hfin)
        as (_ & d2 & Ht2 & Hstop).
      intros Hfin'.
      destruct (finish_session_releases _ _ _ _ _ Hfin')
        as (Hclear & d3 & Ht3 & _).
      split; [exact Hclear |].
      exists (d1 ++ d2 ++ d3). rewrite Ht3, Ht2, Ht1, <- !app_assoc.
      split; [reflexivity |]. intros Hstart.
      apply in_or_app. right. apply in_or_app. left. apply Hstop.
      eapply play_text_holds_handle; eauto.
  - intros Hfin.
    destruct (finish_session_releases _ _ _ _ _ Hfin)
      as (Hclear & d2 & Ht2 & Hstop).
    split; [exact Hclear |].
    exists (d1 ++ d2). rewrite Ht2, Ht1, <- app_assoc.
    split; [reflexivity |]. intros Hstart.
    apply in_or_app. right. apply Hstop.
    eapply play_text_holds_handle; eauto.
Qed.

(** X21: a speech session always releases the listener.  However
    playback goes (finished, interrupted, a backend or a process
    raising, the callback raising), the handle of the background
    listener is cleared when the session ends, and when the listener
    could be started its stopper is called in that session. *)
Theorem session_releases_listener :
  forall env text s,
    let s' := snd (_speak_text env text s) in
    background_listener_stop s' = false
    /\ (listener_starts env = true ->
        In StopListener (drop (length (trace s)) (trace s'))).
Proof.
  intros env text s s'. subst s'.
  destruct (_speak_text env text s) as [out s'] eqn:Hrun.
  rewrite speak_text_unfold in Hrun.
  apply speak_thread_releases in Hrun; [| reflexivity].
  destruct Hrun as (Hclear & d & Ht & Hstop). simpl in Ht |- *.
  split; [exact Hclear |]. intros Hstart.
  rewrite Ht, drop_app_length. auto.
Qed.

(** ** Speech Player: a session nobody disturbs *)

Lemma calmly_ret {A} (a : A) : calmly (ret a) (Ret a) [].
Proof.
  intros s out s' Hc H. run. inversion H; subst.
  repeat split; try apply Hc. exists []. now rewrite app_nil_r.
Qed.

Lemma calmly_raise {A} e : calmly (@raise A e) (Raise e) [].
Proof.
  intros s out s' Hc H. run. inversion H; subst.
  repeat split; try apply Hc. exists []. now rewrite app_nil_r.
Qed.

Lemma calmly_emit e : calmly (emit e) (Ret tt) (says [e]).
Proof.
  intros s out s' Hc H. run. inversion H; subst.
  repeat split; try apply Hc. now exists [e].
Qed.

Lemma calmly_bind {A B} (m : M A) (k : A -> M B) a out l1 l2 :
  calmly m (Ret a) l1 -> calmly (k a) out l2 ->
  calmly (bind m k) out (l1 ++ l2).
Proof.
  intros Hm Hk s out' s' Hc H. unfold bind in H.
  destruct (m s) as [r s1] eqn:Hrun.
  destruct (Hm _ _ _ Hc Hrun) as (-> & Hc1 & d1 & Ht1 & Hs1).
  destruct (Hk _ _ _ Hc1 H) as (-> & Hc2 & d2 & Ht2 & Hs2).
  repeat split; try apply Hc2. exists (d1 ++ d2).
  rewrite Ht2, Ht1, <- app_assoc, says_app, Hs1, Hs2. auto.
Qed.

Lemma calmly_bind_raise {A B} (m : M A) (k : A -> M B) e l :
  calmly m (Raise e) l -> calmly (bind m k) (Raise e) l.
Proof.
  intros Hm s out' s' Hc H. unfold bind in H.
  destruct (m s) as [r s1] eqn:Hrun.
  destruct (Hm _ _ _ Hc Hrun) as (-> & Hc1 & d1 & Ht1 & Hs1).
  inversion H; subst. repeat split; try apply Hc1. eauto.
Qed.

Lemma calmly_get {B} (k : State -> M B) out l :
  (forall s, calm s -> calmly (k s) out l) -> calmly (bind get k) out l.
Proof. intros Hk s out' s' Hc H. exact (Hk s Hc s out' s' Hc H). Qed.

Lemma calmly_try_ret {A} (m : M A) h a l :
  calmly m (Ret a) l -> calmly (try_except m h) (Ret a) l.
Proof.
  intros Hm s out' s' Hc H. unfold try_except in H.
  destruct (m s) as [r s1] eqn:Hrun.
  destruct (Hm _ _ _ Hc Hrun) as (-> & Hc1 & d1 & Ht1 & Hs1).
  inversion H; subst. repeat split; try apply Hc1. eauto.
Qed.

Lemma calmly_try_raise {A} (m : M A) h e out l1 l2 :
  calmly m (Raise e) l1 -> calmly (h e) out l2 ->
  calmly (try_except m h) out (l1 ++ l2).
Proof.
  intros Hm Hh s out' s' Hc H. unfold try_except in H.
  destruct (m s) as [r s1] eqn:Hrun.
  destruct (Hm _ _ _ Hc Hrun) as (-> & Hc1 & d1 & Ht1 & Hs1).
  destruct (Hh _ _ _ Hc1 H) as (-> & Hc2 & d2 & Ht2 & Hs2).
  repeat split; try apply Hc2. exists (d1 ++ d2).
  rewrite Ht2, Ht1, <- app_assoc, says_app, Hs1, Hs2. auto.
Qed.

(** With nothing scheduled, a read finds the flag clear. *)
Lemma calmly_read : calmly read_interrupt (Ret false) [].
Proof.
  intros s out s' Hc H. pose proof Hc as (Htape & Hflag & Hel).
  unfold read_interrupt in H. run. rewrite Htape in H. simpl in H.
  rewrite Hflag in H. inversion H; subst.
  repeat split; simpl; auto. now exists [ReadFlag false].
Qed.

Lemma calmly_poll_loop c running :
  forall safety, calmly (poll_loop c running safety) (Ret tt) [].
Proof.
  induction running as [| running IH]; intros safety; simpl.
  - apply calmly_ret.
  - apply (calmly_bind _ _ false _ [] []); [apply calmly_read |].
    cbv beta iota. destruct safety as [| safety]; [| apply IH].
    apply (calmly_bind _ _ tt _ [] []); [apply calmly_emit | apply calmly_ret].
Qed.

(** Undisturbed, the chunk is requested once and the loop body returns:
    a process that cannot be started or that hangs does not end the
    session. *)
Lemma calmly_speak_chunk c chunk :
  (wait_expires c = true -> pkill_in_handler_ok c = true) ->
  calmly (speak_chunk c chunk) (Ret tt) [chunk].
Proof.
  intros Hrecover. unfold speak_chunk.
  destruct (popen_ok c) eqn:Hpopen.
  - destruct (wait_expires c) eqn:Hwait.
    + apply (calmly_try_raise _ _ timeout_expired _ [chunk] []).
      * apply (calmly_bind _ _ tt _ [chunk] []); [apply calmly_emit |].
        apply (calmly_bind _ _ tt _ [] []); [apply calmly_ret |].
        apply (calmly_bind _ _ tt _ [] []); [apply calmly_poll_loop |].
        apply (calmly_bind _ _ false _ [] []); [apply calmly_read |].
        cbv beta iota. simpl negb. cbv iota.
        apply (calmly_bind _ _ tt _ [] []); [apply calmly_emit |].
        apply calmly_raise.
      * simpl. rewrite Hrecover by reflexivity.
        apply (calmly_bind _ _ tt _ [] []); [apply calmly_emit |].
        apply calmly_ret.
    + apply calmly_try_ret.
      apply (calmly_bind _ _ tt _ [chunk] []); [apply calmly_emit |].
      apply (calmly_bind _ _ tt _ [] []); [apply calmly_ret |].
      apply (calmly_bind _ _ tt _ [] []); [apply calmly_poll_loop |].
      apply (calmly_bind _ _ false _ [] []); [apply calmly_read |].
      simpl negb. cbv iota.
      apply (calmly_bind _ _ tt _ [] []); [apply calmly_emit |].
      apply calmly_ret.
  - apply (calmly_try_raise _ _ (other_error "Popen") _ [chunk] []).
    + apply (calmly_bind _ _ tt _ [chunk] []); [apply calmly_emit |].
      apply calmly_bind_raise. apply calmly_raise.
    + simpl. apply calmly_ret.
Qed.

Lemma calmly_say_chunks env chunks :
  handlers_recover env ->
  forall i, calmly (say_chunks env i chunks) (Ret tt) chunks.
Proof.
  intros Hrecover.
  induction chunks as [| chunk rest IH]; intros i; simpl.
  - apply calmly_ret.
  - apply (calmly_bind _ _ false _ [] (chunk :: rest)); [apply calmly_read |].
    cbv beta iota.
    apply (calmly_bind _ _ tt _ [chunk] rest);
      [apply calmly_speak_chunk, Hrecover |].
    apply (calmly_bind _ _ false _ [] rest); [apply calmly_read |].
    apply IH.
Qed.

Lemma calmly_play_text env text :
  handlers_recover env ->
  calmly (play_text env text) (Ret tt) (chunk_list (Py.split text)).
Proof.
  intros Hrecover. unfold play_text.
  apply (calmly_bind _ _ tt _ [] _).
  { unfold _start_interruption_detection. apply calmly_get. intros s _.
    destruct (negb (speaking s)); [apply calmly_ret |].
    destruct (listener_starts env); [| apply calmly_ret].
    apply (calmly_bind _ _ tt _ [] []); [apply calmly_emit |].
    intros s1 out s' Hc H. run. inversion H; subst.
    repeat split; try apply Hc. exists []. now rewrite app_nil_r. }
  apply calmly_get. intros s (_ & _ & Hel). rewrite Hel. simpl andb. cbv iota.
  apply (calmly_bind _ _ tt _ [] _); [apply calmly_ret |].
  apply calmly_get. intros s1 (_ & _ & Hel1). rewrite Hel1. simpl.
  now apply calmly_say_chunks.
Qed.

Lemma finish_session_keeps_flag env n s out s' :
  finish_session env n s = (out, s') ->
  interrupt_speech s' = interrupt_speech s.
Proof.
  unfold finish_session, stop_background_listener, run_callback.
  unfold bind, modify, get, emit. simpl.
  destruct (background_listener_stop s); simpl;
    destruct (has_callback env); simpl;
    try destruct (callback_ok env n); run;
    intros H; inversion H; subst; reflexivity.
Qed.

Lemma speak_thread_undisturbed env text s out s' :
  handlers_recover env -> calm s ->
  speak_thread env text s = (out, s') ->
  interrupt_speech s' = false
  /\ exists d, trace s' = trace s ++ d
               /\ says d = chunk_list (Py.split text).
Proof.
  intros Hrecover Hc.
  unfold speak_thread, try_except. unfold bind at 1.
  destruct (play_text env text s) as [r s1] eqn:Hrun.
  destruct (calmly_play_text env text Hrecover _ _ _ Hc Hrun)
    as (-> & (_ & Hflag & _) & d1 & Ht1 & Hs1).
  destruct (finish_session env 0 s1) as [[[] | e] s2] eqn:Hf0.
  - intros H. inversion H; subst.
    destruct (silent_finish_session env 0 _ _ _ Hf0) as (d2 & Ht2 & Hs2).
    rewrite (finish_session_keeps_flag _ _ _ _ _ Hf0). split; [exact Hflag |].
    exists (d1 ++ d2). rewrite Ht2, Ht1, <- app_assoc, says_app, Hs1, Hs2.
    now rewrite app_nil_r.
  - intros Hf1.
    destruct (silent_finish_session env 0 _ _ _ Hf0) as (d2 & Ht2 & Hs2).
    destruct (silent_finish_session env 1 _ _ _ Hf1) as (d3 & Ht3 & Hs3).
    rewrite (finish_session_keeps_flag _ _ _ _ _ Hf1),
            (finish_session_keeps_flag _ _ _ _ _ Hf0).
    split; [exact Hflag |].
    exists (d1 ++ d2 ++ d3).
    rewrite Ht3, Ht2, Ht1, <- !app_assoc, !says_app, Hs1, Hs2, Hs3.
    now rewrite !app_nil_r.
Qed.

(** X22: an undisturbed session speaks the whole text.  With the system
    voice in use and no sound reaching the listener, the session hands
    [say] every chunk of the text, in order, and the flag is still
    clear afterwards; this holds although single [say] processes may
    fail to start, run into the safety timeout or outlive [proc.wait],
    as long as the [pkill] of the handler returns. *)
Theorem undisturbed_session_speaks_all :
  forall env text s,
    tape s = [] -> use_elevenlabs s = false -> handlers_recover env ->
    let s' := snd (_speak_text env text s) in
    says (drop (length (trace s)) (trace s')) = chunk_list (Py.split text)
    /\ interrupt_speech s' = false.
Proof.
  intros env text s Htape Hel Hrecover s'. subst s'.
  destruct (_speak_text env text s) as [out s'] eqn:Hrun.
  rewrite speak_text_unfold in Hrun.
  apply speak_thread_undisturbed in Hrun;
    [| exact Hrecover | repeat split; assumption].
  destruct Hrun as (Hflag & d & Ht & Hs). simpl in Ht |- *.
  rewrite Ht, drop_app_length. auto.
Qed.

Lemma undisturbed_session_speaks_all_witness :
  let text := "one two three four five six seven eight nine ten eleven" in
  let s' := snd (_speak_text rough_speech text st0) in
  says (drop (length (trace st0)) (trace s'))
  = ["one two three four five"; "six seven eight nine ten"; "eleven"]
  /\ interrupt_speech s' = false.
Proof.
  apply (undisturbed_session_speaks_all rough_speech
           "one two three four five six seven eight nine ten eleven" st0).
  - reflexivity.
  - reflexivity.
  - intros i _. destruct i as [| [| i]]; reflexivity.
Defined.

(** ** Violation Log: a returned list is a snapshot *)

Module SnapshotFacts.
Import Store.

(** Rewriting one list object leaves the view through another list as
    it was. *)
Lemma view_update_other l self items' (h : gmap loc object) log :
  l <> self ->
  (exists items, h !! self = Some (ListObj items)) ->
  view l h = Some log ->
  view l (<[self := ListObj items']> h) = Some log.
Proof.
  intros Hne [items Hself]. unfold view, items_of.
  rewrite lookup_insert_ne by congruence.
  destruct (h !! l) as [[its | v] |] eqn:Hl; try discriminate. simpl.
  rewrite !mapM_Some. intros Hall. eapply Forall2_impl; [exact Hall |].
  intros d v. unfold entry_of.
  destruct (h !! d) as [[its' | v'] |] eqn:Hd; try discriminate.
  rewrite lookup_insert_ne by congruence. now rewrite Hd.
Qed.

Lemma log_violation_other l self t msg (h : gmap loc object) log :
  l <> self ->
  (exists items, h !! self = Some (ListObj items)) ->
  view l h = Some log ->
  view l (log_violation self t msg h) = Some log.
Proof.
  intros Hne [items Hself] Hview. unfold log_violation.
  destruct (StoreFacts.alloc_fresh (DictObj (mkViolation t msg)) h) as [Hfresh Heq].
  destruct (alloc (DictObj (mkViolation t msg)) h) as [d h1].
  simpl in *. subst h1.
  assert (Hd : d <> self) by congruence.
  rewrite lookup_insert_ne by exact Hd. rewrite Hself.
  apply view_update_other; [exact Hne | |].
  - exists items. now rewrite lookup_insert_ne.
  - eapply StoreFacts.view_weaken; [| exact Hview].
    now apply insert_subseteq.
Qed.

(** X23: the list returned by [get_violations] is a snapshot.  Later
    calls of [_log_violation] and [clear_violations] change what the
    log shows (one entry more, no entry) and leave the returned list
    showing the entries of the moment of the call. *)
Theorem returned_list_is_snapshot :
  forall (self : loc) (h : gmap loc object) (log : list Violation) t msg,
    view self h = Some log ->
    exists copy,
      get_violations self h = (Some copy, snd (get_violations self h))
      /\ let h1 := snd (get_violations self h) in
         view copy (log_violation self t msg h1) = Some log
         /\ view self (log_violation self t msg h1)
            = Some (log ++ [mkViolation t msg])
         /\ view copy (clear_violations self h1) = Some log
         /\ view self (clear_violations self h1) = Some []
         /\ view copy (clear_violations self (log_violation self t msg h1))
            = Some log.
Proof.
  intros self h log t msg Hview.
  destruct (StoreFacts.view_items _ _ _ Hview) as [items Hself].
  pose proof (StoreFacts.view_entries _ _ _ _ Hself Hview) as Hentries.
  destruct (StoreFacts.get_violations_run self h items Hself)
    as (copy & Hrun & Hfresh).
  exists copy. rewrite Hrun. simpl.
  assert (Hne : copy <> self) by congruence.
  set (h1 := <[copy := ListObj items]> h).
  assert (Hself1 : h1 !! self = Some (ListObj items)).
  { unfold h1. now rewrite lookup_insert_ne. }
  assert (Hcopy : view copy h1 = Some log).
  { now apply StoreFacts.view_insert_list. }
  assert (Hlog1 : view self h1 = Some log).
  { eapply StoreFacts.view_weaken; [| exact Hview].
    now apply insert_subseteq. }
  assert (Hafter : view self (log_violation self t msg h1)
                   = Some (log ++ [mkViolation t msg])).
  { now apply StoreFacts.log_violation_view. }
  assert (Hcopy' : view copy (log_violation self t msg h1) = Some log).
  { apply log_violation_other; eauto. }
  split; [reflexivity |]. repeat split; auto.
  - unfold clear_violations, mutate_list. rewrite Hself1.
    apply view_update_other; eauto.
  - unfold clear_violations, mutate_list. rewrite Hself1.
    unfold view, items_of. now rewrite lookup_insert_eq.
  - unfold clear_violations, mutate_list.
    destruct (StoreFacts.view_items _ _ _ Hafter) as [items2 Hself2].
    rewrite Hself2. apply view_update_other; eauto.
Qed.

Lemma returned_list_is_snapshot_witness :
  exists copy,
    get_violations 1%positive two_entries
    = (Some copy, snd (get_violations 1%positive two_entries))
    /\ view copy (clear_violations 1%positive
                    (snd (get_violations 1%positive two_entries)))
       = Some [mkViolation 5 "Grok API timeout: read timed out";
               mkViolation 7 "Web search failed: timeout"].
Proof.
  destruct (returned_list_is_snapshot 1%positive two_entries _ 9 "late" eq_refl)
    as (copy & Hrun & _ & _ & Hclear & _).
  exists copy. split; assumption.
Defined.

End SnapshotFacts.

(** ** The API server's instance *)

(** A key that passes the server's check passes the key test of
    [_query_grok]. *)
Lemma accepted_key_is_configured key cfg :
  key_rejected "your-grok" (Some key) = false ->
  grok_api_key cfg = key ->
  api_key_configured cfg = true.
Proof.
  unfold key_rejected, api_key_configured. intros Hkey ->.
  apply orb_false_iff in Hkey as [Hne Hmark]. rewrite Hne. simpl.
  destruct (String.eqb_spec key "your-grok-api-key-here") as [-> | _];
    [discriminate Hmark |].
  destruct (String.eqb_spec key "") as [-> | _]; [discriminate Hne |].
  reflexivity.
Qed.

(** When every 200 answer carries a string, [_query_grok] returns
    text. *)
Lemma query_grok_returns_text cfg requests_post user_input context s :
  replies_are_text requests_post ->
  exists text s',
    _query_grok cfg requests_post user_input context s = (Ret (Text text), s').
Proof.
  intros Htext. unfold _query_grok.
  destruct (negb (nonempty (grok_api_key cfg)) || _ || _).
  - run. eauto.
  - unfold try_except, query_body. unfold bind at 1.
    destruct (try_models requests_post (system_content context) user_input
                model_names None s) as [[ending | e] s1] eqn:Hrun.
    + destruct ending as [content | [r |]].
      * apply try_models_returned in Hrun
          as (m & r & _ & Hpost & H200 & Hreply).
        destruct content as [text | truthy]; [unfold ret; eauto |].
        exfalso. exact (Htext _ _ _ Hpost H200 Hreply).
      * clear Hrun. destruct (response_truthy r); run; eauto.
      * clear Hrun. run. eauto.
    + destruct (query_handler_is_error cfg e s1) as (text & s' & -> & _).
      eauto.
Qed.

(** With a limit that is not negative and a service whose 200 answers
    carry a string, [process_input] returns text from every state:
    nothing is raised past it. *)
Lemma process_input_returns cfg GoogleSearch requests_post polls user_input s :
  0 <= max_response_words cfg ->
  replies_are_text requests_post ->
  exists text s',
    process_input cfg GoogleSearch requests_post polls user_input s
    = (Ret (Text text), s').
Proof.
  intros Hmax Htext.
  destruct (wait_loop_returns polls s) as (silent & s1 & Hwait).
  destruct silent.
  - rewrite (process_input_silent _ _ _ _ _ _ _ Hwait). unfold bind at 1.
    destruct (search_web_returns GoogleSearch (search_query_for user_input) s1)
      as (context & s2 & ->).
    unfold bind at 1.
    destruct (query_grok_returns_text cfg requests_post user_input context s2
                Htext) as (text & s3 & ->).
    unfold limit_reply, bind.
    destruct (shape_returns cfg text user_input Hmax s3) as (out & s4 & ->).
    unfold ret. eauto.
  - rewrite (process_input_interrupted _ _ _ _ _ _ _ Hwait). eauto.
Qed.

(** X24: the instance built by the API server answers whenever the
    service sends text.  When [get_hue_instance] accepts the two keys,
    the key passes the test at the top of [_query_grok]; and if every
    200 answer of the completion service carries a string under
    "content", [process_input] on that instance returns text for every
    message, from every state and whatever else the search and
    completion services do. *)
Theorem server_instance_always_answers :
  forall grok_key serp_key cfg GoogleSearch requests_post polls message s,
    get_hue_instance grok_key serp_key = Ret cfg ->
    replies_are_text requests_post ->
    api_key_configured cfg = true
    /\ exists text s',
         process_input cfg GoogleSearch requests_post polls message s
         = (Ret (Text text), s').
Proof.
  intros grok_key serp_key cfg GoogleSearch requests_post polls message s.
  unfold get_hue_instance.
  destruct (key_rejected "your-grok" grok_key) eqn:Hgrok; [discriminate |].
  destruct (key_rejected "your-serpapi" serp_key); [discriminate |].
  intros H Htext. inversion H; subst. clear H.
  destruct grok_key as [key |]; [| discriminate Hgrok]. split.
  - eapply accepted_key_is_configured; [exact Hgrok | reflexivity].
  - apply process_input_returns; [simpl; lia | exact Htext].
Qed.

Lemma server_instance_always_answers_witness :
  api_key_configured (init_config "xai-0123456789" "serp-key" 20 "explain") = true
  /\ exists text s',
       process_input (init_config "xai-0123456789" "serp-key" 20 "explain")
         None busy_then_ok 3 "What is the capital of France?" st0
       = (Ret (Text text), s').
Proof.
  apply (server_instance_always_answers (Some "xai-0123456789") (Some "serp-key")).
  - reflexivity.
  - intros req r truthy H _. unfold busy_then_ok in H.
    destruct (String.eqb (req_model req) "grok-3"); inversion H; discriminate.
Defined.

(** X25: a 200 answer whose "content" is not a string breaks the turn.
    When the silence wait passes, the key is configured and the first
    model answers 200 with a value that is not a string, [_query_grok]
    hands that value on; [process_input] then returns it unshaped if
    the input has the keyword, and otherwise raises AttributeError at
    [response.split()], after the search and the one completion call
    have been made. *)
Theorem non_text_reply_breaks_turn :
  forall cfg GoogleSearch requests_post polls user_input s r truthy,
    api_key_configured cfg = true ->
    fst (_wait_for_silence polls s) = Ret true ->
    (forall system,
        requests_post (mkRequest "grok-3" system user_input) = Responds r) ->
    status_code r = 200 ->
    reply r = Ret (NotText truthy) ->
    let result := process_input cfg GoogleSearch requests_post polls user_input s in
    fst result
    = (if Py.contains (explain_keyword cfg) (Py.lower user_input)
       then Ret (NotText truthy)
       else Raise (attribute_error "object has no attribute 'split'"))
    /\ post_calls (trace (snd result)) = post_calls (trace s) ++ ["grok-3"].
Proof.
  intros cfg GoogleSearch requests_post polls user_input s r truthy
         Hkey Hgate Hpost H200 Hreply result. subst result.
  unfold api_key_configured in Hkey. apply negb_true_iff in Hkey.
  unfold _wait_for_silence in Hgate.
  destruct (wait_loop polls s) as [out s1] eqn:Hwait. simpl in Hgate.
  subst out. rewrite (process_input_silent _ _ _ _ _ _ _ Hwait).
  apply quiet_wait_loop in Hwait as [_ Hw].
  destruct (search_web_returns GoogleSearch (search_query_for user_input) s1)
    as (context & s2 & Hsearch).
  assert (Hs : post_calls (trace s2) = post_calls (trace s1)).
  { destruct GoogleSearch as [search |].
    - destruct (search_web_one_call search (search_query_for user_input) s1)
        as (c & s' & Hrun & _ & Hp). congruence.
    - unfold _search_web in Hsearch. run. now inversion Hsearch. }
  assert (Hq : _query_grok cfg requests_post user_input context s2
               = (Ret (NotText truthy),
                  set_trace (trace s2 ++ [PostCall "grok-3"]) s2)).
  { unfold _query_grok. rewrite Hkey. cbv beta iota.
    unfold try_except, query_body. unfold bind at 1.
    unfold model_names. simpl try_models. unfold bind at 1.
    unfold emit, modify. cbv beta iota. rewrite Hpost.
    apply Z.eqb_eq in H200. rewrite H200, Hreply. reflexivity. }
  unfold bind. rewrite Hsearch, Hq. unfold limit_reply.
  destruct (Py.contains (explain_keyword cfg) (Py.lower user_input));
    unfold ret, raise; simpl; rewrite post_calls_snoc, Hs, Hw; auto.
Qed.

Lemma non_text_reply_breaks_turn_witness :
  let result :=
    process_input cfg10 None null_content 3 "What is the capital of France?"
                  st0 in
  fst result = Raise (attribute_error "object has no attribute 'split'")
  /\ post_calls (trace (snd result)) = ["grok-3"].
Proof.
  apply (non_text_reply_breaks_turn cfg10 None null_content 3
           "What is the capital of France?" st0
           (mkResponse 200 "{}" (Ret (NotText false)) None) false);
    reflexivity.
Defined.
